(** * Screeps2 [src/utils.js]: wide-integer layer, seeded generator, maze passes

    A shallow embedding of the direction tables and of the classes [M64],
    [PRNG] and [Maze] of [src/utils.js], followed by the properties of the
    terrain-generator specification that concern them and by further
    properties of the code.

    Modelling conventions.
    - A JavaScript number that holds an integer is a [Z].  Every sum and
      product formed below from 32-bit operands stays far under 2^53, where
      doubles are exact, so [Z] arithmetic is the arithmetic of the host.
    - The bitwise operators first convert their operands with ToInt32 (or
      ToUint32 for [>>>]) and mask the shift count with 31; this is written
      out in [to_int32], [to_uint32] and [shcount].
    - A number that need not be an integer is an IEEE 754 binary64 value
      ([number]): the draw [loss] compares and the rate and weights it is
      given.  Two quantities are kept as exact rationals ([Q]) instead: the
      quotient [rand] stands for, where only its range is at stake, and the
      weighted sums of [count], which stay at least 0.1 away from the
      thresholds they are compared with.
    - A JavaScript string is the list of its UTF-16 code units. *)

From Stdlib Require Import ZArith List Bool Lia QArith Decimal Permutation.
From Stdlib Require Import SpecFloat.
Import ListNotations.
Local Open Scope Z_scope.

(** ** Host numbers *)

Module JS.

Definition to_uint32 (z : Z) : Z := z mod 2 ^ 32.

Definition to_int32 (z : Z) : Z := (z + 2 ^ 31) mod 2 ^ 32 - 2 ^ 31.

(** The shift count of [<<], [>>] and [>>>]: ToUint32 of the right operand,
    masked with 0x1F. *)
Definition shcount (n : Z) : Z := Z.land (to_uint32 n) 31.

(** [a << n] *)
Definition shl (a n : Z) : Z := to_int32 (Z.shiftl (to_int32 a) (shcount n)).

(** [a >> n], sign-propagating *)
Definition sar (a n : Z) : Z := Z.shiftr (to_int32 a) (shcount n).

(** [a >>> n], zero-filling *)
Definition shr (a n : Z) : Z := Z.shiftr (to_uint32 a) (shcount n).

(** [a ^ b], [a | b], [a & b] *)
Definition bxor (a b : Z) : Z := Z.lxor (to_int32 a) (to_int32 b).
Definition bor (a b : Z) : Z := Z.lor (to_int32 a) (to_int32 b).
Definition band (a b : Z) : Z := Z.land (to_int32 a) (to_int32 b).

(** The values that reach the wide-integer layer: numbers, two-element
    arrays, and the [arguments] object of a two-argument call. *)
Inductive value : Type :=
| Num (n : Z)
| Arr (a b : value)
| Arguments (a b : value).

(** Outcome of a call: a value, a thrown TypeError or RangeError, or
    [Undetermined] for a result that depends on the wall clock
    ([PRNG.from()] with its default seed). *)
Inductive result (A : Type) : Type :=
| Ok (a : A)
| TypeError
| RangeError
| Undetermined.
Arguments Ok {A} a.
Arguments TypeError {A}.
Arguments RangeError {A}.
Arguments Undetermined {A}.

Definition bind {A B} (r : result A) (k : A -> result B) : result B :=
  match r with
  | Ok a => k a
  | TypeError => TypeError
  | RangeError => RangeError
  | Undetermined => Undetermined
  end.

(** ToInt32 of a value used as an operand of a bitwise operator.  An array
    of two elements converts to a string with a comma, the arguments object
    to "[object Arguments]"; both are NaN as numbers, and ToInt32(NaN) is 0. *)
Definition ToInt32 (v : value) : Z :=
  match v with
  | Num n => to_int32 n
  | Arr _ _ | Arguments _ _ => 0
  end.

(** [(a + b) >>> 0].  With an operand that is not a number, [+] concatenates
    strings; the text is not a numeral, so ToUint32 gives 0. *)
Definition add_u32 (a b : value) : Z :=
  match a, b with
  | Num x, Num y => to_uint32 (x + y)
  | _, _ => 0
  end.

(** The array pattern [[p, q]] of a parameter or a declaration: a number is
    not iterable. *)
Definition destructure (v : value) : result (value * value) :=
  match v with
  | Num _ => TypeError
  | Arr a b => Ok (a, b)
  | Arguments a b => Ok (a, b)
  end.

(** A number that need not be an integer: an IEEE 754 binary64 value, with
    the arithmetic the standard library specifies for precision 53 and
    maximal exponent 1024 (rounding to nearest, ties to even). *)
Definition number : Type := spec_float.

(** An integer as a number; exact below 2^53. *)
Definition number_of_int (n : Z) : number := binary_normalize 53 1024 n 0 false.

(** [a * b], [a / b], [-a], [a < b] and [a <= b] on numbers.  A comparison
    with NaN is false, and [a > b] is [b < a]. *)
Definition fmul (a b : number) : number := SFmul 53 1024 a b.
Definition fdiv (a b : number) : number := SFdiv 53 1024 a b.
Definition fneg (a : number) : number := SFopp a.
Definition flt (a b : number) : bool := SFltb a b.
Definition fle (a b : number) : bool := SFleb a b.

Definition is_nan (a : number) : bool :=
  match a with S754_nan => true | _ => false end.

Definition is_zero (a : number) : bool :=
  match a with S754_zero _ => true | _ => false end.

(** The sign bit of a number other than NaN. *)
Definition sign_bit (a : number) : bool :=
  match a with
  | S754_zero s | S754_infinity s | S754_finite s _ _ => s
  | S754_nan => false
  end.

End JS.
Import JS.

Notation "x <- c1 ;; c2" := (bind c1 (fun x => c2))
  (at level 61, c1 at next level, right associativity).
Notation "' pat <- c1 ;; c2" := (bind c1 (fun x => match x with pat => c2 end))
  (at level 61, pat pattern, c1 at next level, right associativity).

(** A WideWord as the code lays it out: the array [[high, low]]. *)
Definition word (p : Z * Z) : value := Arr (Num (fst p)) (Num (snd p)).

(** ** class M64 *)

Module M64.

(** [mul32(a, b)]: the two numbers of the returned array. *)
Definition mul32 (a b : value) : Z * Z :=
  let aH := Z.land (Z.shiftr (ToInt32 a) 16) 65535 in
  let aL := Z.land (ToInt32 a) 65535 in
  let bH := Z.land (Z.shiftr (ToInt32 b) 16) 65535 in
  let bL := Z.land (ToInt32 b) 65535 in
  let c := aH * bL + aL * bH in
  (aH * bH + sar c 16, aL * bL + shl c 16).

Definition imul32 (a b : value) : Z := snd (mul32 a b).

(** [add64([aH, aL], [bH, bL])] *)
Definition add64 (a b : value) : result (Z * Z) :=
  '(aH, aL) <- destructure a ;;
  '(bH, bL) <- destructure b ;;
  Ok (add_u32 aH bH, add_u32 aL bL).

(** [mul64([aH, aL], [bH, bL])]: the inner calls are to [mul64] itself, on
    the halves. *)
Fixpoint mul64 (a b : value) {struct a} : result ((Z * Z) * (Z * Z)) :=
  match a with
  | Num _ => TypeError
  | Arr aH aL | Arguments aH aL =>
    '(bH, bL) <- destructure b ;;
    '(cH, cL) <- add64 (word (mul32 aH bL)) (word (mul32 aL bH)) ;;
    hh <- mul64 aH bH ;;
    hi <- add64 (Arr (word (fst hh)) (word (snd hh))) (word (0, cH)) ;;
    ll <- mul64 aL bL ;;
    lo <- add64 (Arr (word (fst ll)) (word (snd ll))) (word (cL, 0)) ;;
    Ok (hi, lo)
  end.

Definition imul64 (a b : value) : result (Z * Z) :=
  r <- mul64 a b ;; Ok (snd r).

(** [shift64([aH, aL], l)] *)
Definition shift64 (a : value) (l : Z) : result value :=
  '(aH, aL) <- destructure a ;;
  if 0 <? l then
    Ok (word (sar (ToInt32 aH) l,
              bor (shl (ToInt32 aH) (32 - l)) (sar (ToInt32 aL) l)))
  else if l <? 0 then
    Ok (word (bor (shl (ToInt32 aH) (- l)) (sar (ToInt32 aL) (32 + l)),
              shl (ToInt32 aL) (- l)))
  else Ok (Arguments a (Num l)).

(** [xor64([aH, aL], [bH, bL])] *)
Definition xor64 (a b : value) : result (Z * Z) :=
  '(aH, aL) <- destructure a ;;
  '(bH, bL) <- destructure b ;;
  Ok (Z.lxor (ToInt32 aH) (ToInt32 bH), Z.lxor (ToInt32 aL) (ToInt32 bL)).

(** [divmod(x, y)] on integers.  [x % y] has the sign of [x]; the difference
    [x - rem] is a multiple of [y], so the quotient of the division is exact.
    With [y = 0] the remainder is NaN and so are both results: [None]. *)
Definition divmod (x y : Z) : option (Z * Z) :=
  if y =? 0 then None
  else let rem := Z.rem x y in Some ((x - rem) / y, rem).

End M64.

(** ** class PRNG *)

Module PRNG.
Import M64.

(** Decimal digits as UTF-16 code units. *)
Fixpoint digits (u : Decimal.uint) : list Z :=
  match u with
  | Nil => []
  | D0 u => 48 :: digits u
  | D1 u => 49 :: digits u
  | D2 u => 50 :: digits u
  | D3 u => 51 :: digits u
  | D4 u => 52 :: digits u
  | D5 u => 53 :: digits u
  | D6 u => 54 :: digits u
  | D7 u => 55 :: digits u
  | D8 u => 56 :: digits u
  | D9 u => 57 :: digits u
  end.

(** Number-to-string conversion of an integer below 10^21: its decimal
    numeral, with a leading minus sign (code unit 45) when negative. *)
Definition number_to_string (n : Z) : list Z :=
  match Z.to_int n with
  | Pos u => digits u
  | Neg u => 45 :: digits u
  end.

(** One round of the loop of [hash32]. *)
Definition hash32_step (hash c : Z) : Z :=
  let hash := imul32 (Num (bxor hash c)) (Num 3432918353) in
  bor (shl hash 13) (shr hash 19).

(** [hash32(str)] *)
Definition hash32 (str : list Z) : Z :=
  fold_left hash32_step str (bxor 1779033703 (Z.of_nat (length str))).

Definition max32 : Z := 4294967295.

(** [hash64(str)]: the two numbers of the returned array [[nL, nH]]. *)
Definition hash64 (str : list Z) : Z * Z :=
  let nL := hash32 str in
  let nH := hash32 (number_to_string nL ++ str) in
  (nL, nH).

(** The fields [s0] and [s1] of a generator. *)
Record t : Type := mk { s0 : value; s1 : value }.

(** [PRNG.from(seed)] with an explicit seed.  [RNG.s0 + seed] converts the
    array to its elements joined by a comma (code unit 44). *)
Definition from (seed : list Z) : t :=
  let a := hash64 seed in
  let text := number_to_string (fst a) ++ 44 :: number_to_string (snd a) ++ seed in
  {| s0 := word a; s1 := word (hash64 text) |}.

(** [copy()]: a new object with the same two fields. *)
Definition copy (p : t) : t := {| s0 := s0 p; s1 := s1 p |}.

(** [rand64()]: the generator after the call and the returned array. *)
Definition rand64 (p : t) : result (t * (Z * Z)) :=
  let x := s0 p in
  let y := s1 p in
  sx <- shift64 x (-23) ;;
  x <- xor64 x sx ;;
  xy <- xor64 (word x) y ;;
  sx17 <- shift64 (word x) 17 ;;
  sy26 <- shift64 y 26 ;;
  sh <- xor64 sx17 sy26 ;;
  n1 <- xor64 (word xy) (word sh) ;;
  let p' := {| s0 := y; s1 := word n1 |} in
  out <- add64 (s1 p') y ;;
  Ok (p', out).

(** [rand32()]: element 0 of the array [rand64] returns. *)
Definition rand32 (p : t) : result (t * Z) :=
  '(p', out) <- rand64 p ;; Ok (p', fst out).

(** [rand()]: [rand32() / PRNG.max32] as an exact quotient. *)
Definition rand (p : t) : result (t * Q) :=
  '(p', n) <- rand32 p ;; Ok (p', Qmake n 4294967295).

(** [rand()] as the number it returns: the quotient of the two integers,
    rounded to a double. *)
Definition rand_double (p : t) : result (t * number) :=
  '(p', n) <- rand32 p ;; Ok (p', fdiv (number_of_int n) (number_of_int max32)).

(** [array[index] = value] for an index within the array or just past it. *)
Definition set_at {A} (l : list A) (i : nat) (x : A) : list A :=
  firstn i l ++ x :: skipn (S i) l.

(** [pick(array)]: the generator after the draw, the picked element
    ([None] for [undefined]) and the array as the call leaves it.  On an
    empty array the index is NaN, the picked element is [undefined], and
    [array.pop()] returns [undefined], which is stored under the property
    "NaN": the array stays without elements. *)
Definition pick {A} (p : t) (array : list A) : result (t * option A * list A) :=
  '(p', n) <- rand32 p ;;
  match array with
  | [] => Ok (p', None, [])
  | first :: rest =>
    let index := Z.rem n (Z.of_nat (length array)) in
    let picked := nth_error array (Z.to_nat index) in
    if index =? Z.of_nat (length array) - 1
    then Ok (p', picked, removelast array)
    else let popped := last rest first in
         Ok (p', picked, set_at (removelast array) (Z.to_nat index) popped)
  end.

(** An object as the list of its own enumerable properties, in the order
    [_.keys] lists them; a key is a string. *)
Definition object (V : Type) : Type := list (list Z * V).

Definition key_eqb (k k' : list Z) : bool :=
  if list_eq_dec Z.eq_dec k k' then true else false.

(** [object[key]] *)
Fixpoint get {V} (o : object V) (key : list Z) : option V :=
  match o with
  | [] => None
  | (k, v) :: o' => if key_eqb key k then Some v else get o' key
  end.

(** [delete object[key]] *)
Definition delete {V} (o : object V) (key : list Z) : object V :=
  filter (fun kv => negb (key_eqb key (fst kv))) o.

(** The property key of [undefined]: the string "undefined". *)
Definition undefined_key : list Z := [117; 110; 100; 101; 102; 105; 110; 101; 100].

(** [select(object)]: the generator after the draw, the returned pair
    [[key, selected]] and the object as the call leaves it. *)
Definition select {V} (p : t) (o : object V)
  : result (t * (option (list Z) * option V) * object V) :=
  '(p', key, _) <- pick p (map fst o) ;;
  let k := match key with Some k => k | None => undefined_key end in
  Ok (p', (key, get o k), delete o k).

(** The digit [d] of a hexadecimal numeral: '0'..'9', 'a'..'f'. *)
Definition hexdigit (d : Z) : Z := if d <? 10 then 48 + d else 87 + d.

(** The hexadecimal digits of a positive integer, last digit first. *)
Fixpoint to_hex_rev (fuel : nat) (n : Z) : list Z :=
  match fuel with
  | O => []
  | S fuel' =>
    hexdigit (n mod 16) :: (if n / 16 =? 0 then [] else to_hex_rev fuel' (n / 16))
  end.

(** [n.toString(16)] for an integer [n]; a numeral has no more digits than
    [n] has bits. *)
Definition toString16 (n : Z) : list Z :=
  if n <? 0 then 45 :: List.rev (to_hex_rev (S (Z.to_nat (Z.log2 (- n)))) (- n))
  else List.rev (to_hex_rev (S (Z.to_nat (Z.log2 n))) n).

(** [toHex(n)]: [(0x100000000 + n).toString(16).substr(-8)], the last eight
    code units (the whole string when it is shorter). *)
Definition toHex (n : Z) : list Z :=
  let s := toString16 (4294967296 + n) in skipn (length s - 8) s.

(** [randhex()] *)
Definition randhex (p : t) : result (t * list Z) :=
  '(p', out) <- rand64 p ;; Ok (p', toHex (fst out) ++ toHex (snd out)).

End PRNG.

(** ** The direction tables *)

Module Directions.
Import PRNG.

(** A property [[key]: value] of an object literal: a key that comes again
    keeps its place and takes the new value. *)
Fixpoint put {V} (o : object V) (key : list Z) (v : V) : object V :=
  match o with
  | [] => [(key, v)]
  | (k, v') :: o' =>
    if key_eqb key k then (k, v) :: o' else (k, v') :: put o' key v
  end.

(** An object literal with computed keys.  The tables below are read with
    [get] only; the order of the entries is that of the literal, which is
    the order of enumeration for keys that are not array indices. *)
Definition literal {V} (entries : list (list Z * V)) : object V :=
  fold_left (fun o kv => put o (fst kv) (snd kv)) entries [].

Section Constants.

(** The eight direction constants are globals this file does not define.
    Each stands here for the property key it converts to; a value of
    [opposite] is used by the code as a key again. *)
Variables TOP TOP_RIGHT RIGHT BOTTOM_RIGHT BOTTOM BOTTOM_LEFT LEFT TOP_LEFT
  : list Z.

Definition dirs : list (list Z) :=
  [TOP; TOP_RIGHT; RIGHT; BOTTOM_RIGHT; BOTTOM; BOTTOM_LEFT; LEFT; TOP_LEFT].

Definition dudv : object (Z * Z) :=
  literal [(TOP, (0, -1)); (RIGHT, (1, 0)); (BOTTOM, (0, 1)); (LEFT, (-1, 0))].

Definition dxdy : object (Z * Z) :=
  literal [(TOP, (0, -1)); (TOP_RIGHT, (1, -1)); (RIGHT, (1, 0));
           (BOTTOM_RIGHT, (1, 1)); (BOTTOM, (0, 1)); (BOTTOM_LEFT, (-1, 1));
           (LEFT, (-1, 0)); (TOP_LEFT, (-1, -1))].

Definition opposite : object (list Z) :=
  literal [(TOP, BOTTOM); (TOP_RIGHT, BOTTOM_LEFT); (RIGHT, LEFT);
           (BOTTOM_RIGHT, TOP_LEFT); (BOTTOM, TOP); (BOTTOM_LEFT, TOP_RIGHT);
           (LEFT, RIGHT); (TOP_LEFT, BOTTOM_RIGHT)].

End Constants.

End Directions.

(** ** class Maze *)

Module Maze.

(** What the field [RNG] of a maze can hold: a generator, the method
    [PRNG.prototype.copy] itself (a function, not a generator), or the
    generator [PRNG.from()] builds from the current date. *)
Inductive rng : Type :=
| Generator (p : PRNG.t)
| CopyMethod
| FromClock.

(** [Maze.isEdge(X, Y)]: [x++ <= 0] compares the old [x] and then increments
    it, so the next test reads [x + 1]; likewise for [y]. *)
Definition isEdge (X Y : Z) : Z -> Z -> bool :=
  fun x y => (x <=? 0) || (X <=? x + 1) || (y <=? 0) || (Y <=? y + 1).

Record t : Type := mk {
  X : Z;
  Y : Z;
  RNG : rng;
  isWall : Z -> Z -> bool;
  data : list (list bool)
}.

(** [this.RNG.rand()] *)
Definition rng_rand (r : rng) : result (rng * number) :=
  match r with
  | Generator p => '(p', d) <- PRNG.rand_double p ;; Ok (Generator p', d)
  | CopyMethod => TypeError
  | FromClock => Undetermined
  end.

(** [this.RNG.rand32()] *)
Definition rng_rand32 (r : rng) : result (rng * Z) :=
  match r with
  | Generator p => '(p', n) <- PRNG.rand32 p ;; Ok (Generator p', n)
  | CopyMethod => TypeError
  | FromClock => Undetermined
  end.

(** The iteratee of the inner map of [loss]: [value ? pos(x, y) : neg(x, y)],
    with [pos] the test [rand() > -rate * factor(x, y)] and [neg] the test
    [rand() < rate * factor(x, y)], on doubles.  The draw comes first, then
    the product. *)
Definition loss_cell (rate : number) (factor : Z -> Z -> number) (r : rng)
  (x y : Z) (value : bool) : result (rng * bool) :=
  '(r', d) <- rng_rand r ;;
  Ok (r', if value then flt (fmul (fneg rate) (factor x y)) d
          else flt d (fmul rate (factor x y))).

(** One row, from column [x] on, threading the generator. *)
Fixpoint loss_row (rate : number) (factor : Z -> Z -> number) (r : rng) (x y : Z)
  (row : list bool) : result (rng * list bool) :=
  match row with
  | [] => Ok (r, [])
  | value :: row' =>
    '(r1, v) <- loss_cell rate factor r x y value ;;
    '(r2, rest) <- loss_row rate factor r1 (x + 1) y row' ;;
    Ok (r2, v :: rest)
  end.

(** The rows from row [y] on. *)
Fixpoint loss_rows (rate : number) (factor : Z -> Z -> number) (r : rng) (y : Z)
  (rows : list (list bool)) : result (rng * list (list bool)) :=
  match rows with
  | [] => Ok (r, [])
  | row :: rows' =>
    '(r1, row1) <- loss_row rate factor r 0 y row ;;
    '(r2, rest) <- loss_rows rate factor r1 (y + 1) rows' ;;
    Ok (r2, row1 :: rest)
  end.

(** [loss(rate, factor)].  An argument that is left out is NaN as a
    number. *)
Definition loss (rate : number) (factor : Z -> Z -> number) (m : t) : result t :=
  '(r, d) <- loss_rows rate factor (RNG m) 0 (data m) ;;
  Ok {| X := X m; Y := Y m; RNG := r; isWall := isWall m; data := d |}.

(** [_.slice(array, start, end)] *)
Definition slice {A} (l : list A) (s e : Z) : list A :=
  let len := Z.of_nat (length l) in
  let s := if s <? 0 then (if len <? - s then 0 else len + s) else s in
  let e := if len <? e then len else e in
  let e := if e <? 0 then e + len else e in
  let n := if e <? s then 0 else e - s in
  firstn (Z.to_nat n) (skipn (Z.to_nat s) l).

(** [_.range(size / div)]: with a positive quotient [q] the indices 0, 1, ...
    below [q]; with a negative one the step is -1 and the indices are 0, -1,
    ... above [q]; NaN (0 / 0) counts as 0, and an infinite quotient asks for
    an array of invalid length. *)
Definition range (size div : Z) : result (list Z) :=
  if div =? 0 then (if size =? 0 then Ok [] else RangeError)
  else if 0 <? size * div
  then Ok (map Z.of_nat (seq 0 (Z.to_nat (- (- size / div)))))
  else Ok (map (fun k => - Z.of_nat k) (seq 0 (Z.to_nat (- (size / div))))).

(** [cuts(div, size)] *)
Definition cuts (div size : Z) : result (list (Z * Z)) :=
  xs <- range size div ;; Ok (map (fun x => (x * div, (x + 1) * div)) xs).

(** [cut(div, size, rect)] *)
Definition cut {A} (div size : Z) (rect : list (list A))
  : result (list (list (list A))) :=
  cs <- cuts div size ;;
  Ok (map (fun '(s, e) => map (fun row => slice row s e) rect) cs).

(** [_.map(list, f)] for an iteratee that can throw. *)
Fixpoint mapM {A B} (f : A -> result B) (l : list A) : result (list B) :=
  match l with
  | [] => Ok []
  | a :: l' => b <- f a ;; bs <- mapM f l' ;; Ok (b :: bs)
  end.

(** [Array(n)] for an integer [n]: the length of the new array; a length
    that is negative or above 2^32 - 1 is a RangeError. *)
Definition Array (n : Z) : result nat :=
  if (n <? 0) || (4294967295 <? n) then RangeError else Ok (Z.to_nat n).

(** [new Maze(X, Y, RNG, isWall)] with its four arguments given: [_.map]
    calls the iteratee once for each of the [Y] indices of [Array(Y)], and
    each call builds a row of [X] cells holding [false]. *)
Definition constructor (X Y : Z) (RNG : rng) (isWall : Z -> Z -> bool) : result t :=
  rows <- Array Y ;;
  data <- mapM (fun _ : unit => cols <- Array X ;; Ok (repeat false cols))
               (repeat tt rows) ;;
  Ok {| X := X; Y := Y; RNG := RNG; isWall := isWall; data := data |}.

(** The expression [this.RNG.copy], a property read without a call, as the
    third argument of the constructor: on a generator it is the method
    itself; a function has no such property, and the parameter then takes
    its default [PRNG.from()]. *)
Definition RNG_copy (r : rng) : rng :=
  match r with
  | Generator _ | FromClock => CopyMethod
  | CopyMethod => FromClock
  end.

(** [Object.assign(new Maze(_.head(data).length, data.length, this.RNG.copy),
    { data })] *)
Definition room (parent : t) (d : list (list bool)) : result t :=
  match d with
  | [] => TypeError
  | row :: _ =>
    let x := Z.of_nat (length row) in
    let y := Z.of_nat (length d) in
    Ok {| X := x; Y := y; RNG := RNG_copy (RNG parent);
          isWall := isEdge x y; data := d |}
  end.

(** [split(divX, divY)] *)
Definition split (m : t) (divX divY : Z) : result (list (list t)) :=
  bands <- cut divY (Y m) [data m] ;;
  mapM (fun rect => blocks <- cut divX (X m) rect ;; mapM (room m) blocks)
       (map (fun b => hd [] b) bands).

(** What [look] returns: the number 0.3, a stored boolean, or [undefined]. *)
Inductive looked : Type :=
| Weight03
| Cell (b : bool)
| Undefined.

(** [array[i]] for an integer [i]: [None] for [undefined]. *)
Definition index {A} (l : list A) (i : Z) : option A :=
  if i <? 0 then None else nth_error l (Z.to_nat i).

(** [look(x, y)] *)
Definition look (m : t) (x y : Z) : looked :=
  if isWall m x y then Weight03
  else match index (data m) y with
       | Some row =>
         match index row x with
         | Some b => Cell b
         | None => Undefined
         end
       | None => Undefined
       end.

(** [value ? Number(value) : 0].  The sums [count] forms have at most eight
    terms, each 0, 0.3 or 1; they are exact rationals here.  The exact sums
    other than 2 and 4 themselves lie at least 0.1 away from these two
    thresholds, so the comparisons of [trim] and [grow] come out as they do
    on doubles. *)
Definition weight (value : looked) : Q :=
  match value with
  | Weight03 => 3 # 10
  | Cell true => 1
  | Cell false | Undefined => 0
  end.

(** [_.sumBy(list, f)] *)
Definition sumBy {A} (f : A -> Q) (l : list A) : Q :=
  match l with
  | [] => 0
  | a :: l' => fold_left (fun acc b => acc + f b)%Q l' (f a)
  end.

(** [count(x, y, set)], with [set] the list [_.values] gives. *)
Definition count (m : t) (x y : Z) (set : list (Z * Z)) : Q :=
  sumBy (fun d => weight (look m (x + fst d) (y + snd d))) set.

(** [_.map(list, (v, i) => f(i, v))], the indices counted from [i]. *)
Fixpoint mapi {A B} (f : Z -> A -> B) (i : Z) (l : list A) : list B :=
  match l with
  | [] => []
  | a :: l' => f i a :: mapi f (i + 1) l'
  end.

(** The number of elements of [_.range(round)]: a negative [round] counts
    down from 0 and gives as many. *)
Definition rounds (round : Z) : nat := Z.to_nat (Z.abs round).

Section Tables.

(** [_.values(dudv)] and [_.values(dxdy)].  The direction constants that key
    the two tables are not part of this file; the lists are parameters. *)
Variables dudv dxdy : list (Z * Z).

(** One round of [trim]: the new grid is built from the old one. *)
Definition trim_round (m : t) : t :=
  {| X := X m; Y := Y m; RNG := RNG m; isWall := isWall m;
     data := mapi (fun y row =>
               mapi (fun x (v : bool) =>
                 if v then Qle_bool 2 (count m x y dudv) else false) 0 row)
               0 (data m) |}.

(** [trim(round)] *)
Definition trim (round : Z) (m : t) : t := Nat.iter (rounds round) trim_round m.

(** One round of [grow]. *)
Definition grow_round (m : t) : t :=
  {| X := X m; Y := Y m; RNG := RNG m; isWall := isWall m;
     data := mapi (fun y row =>
               mapi (fun x (v : bool) =>
                 if v then true
                 else negb (isWall m x y) && Qle_bool 4 (count m x y dxdy)) 0 row)
               0 (data m) |}.

(** [grow(round)] *)
Definition grow (round : Z) (m : t) : t := Nat.iter (rounds round) grow_round m.

End Tables.

(** [draw(sym)]: a space for [true], the block U+258A otherwise. *)
Definition draw (sym : bool) : Z := if sym then 32 else 9610.

(** [array()] *)
Definition array (m : t) : list (list Z) := map (map draw) (data m).

(** [_.join(list, separator)] on strings. *)
Fixpoint join (l : list (list Z)) (separator : list Z) : list Z :=
  match l with
  | [] => []
  | [a] => a
  | a :: l' => a ++ separator ++ join l' separator
  end.

(** [print()]: the rows between bars, joined by a bar, a line feed and a
    bar. *)
Definition print (m : t) : list Z :=
  124 :: join (array m) [124; 10; 124] ++ [124].

(** Whether a value [look] returns is truthy. *)
Definition truthy (value : looked) : bool :=
  match value with
  | Weight03 => true
  | Cell b => b
  | Undefined => false
  end.

(** The predicate [isWall] that [generate] gives the fine grid, for the
    coarse maze [cross].  A zero [X] or [Y] makes [isOut] hold everywhere, so
    [divmod] then is not reached. *)
Definition generate_isWall (cross : t) (nX nY X Y : Z) : Z -> Z -> bool :=
  fun x y =>
  if isEdge (nX * X) (nY * Y) x y then true
  else match M64.divmod x X, M64.divmod y Y with
       | Some (wx, rx), Some (wy, ry) =>
         if negb (isEdge X Y rx ry) then false
         else if isEdge X Y rx rx && isEdge X Y ry ry then true
         else
           let wx := wx * 2 + Z.b2z (isEdge X Y rx rx)
                              * (Z.b2z (negb (rx =? 0)) * 2 - 1) + 1 in
           let wy := wy * 2 + Z.b2z (isEdge X Y ry ry)
                              * (Z.b2z (negb (ry =? 0)) * 2 - 1) + 1 in
           negb (truthy (look cross wx wy))
       | _, _ => true
       end.

End Maze.

(** ** Reference arithmetic on unbounded integers *)

Module Reference.

(** The 64-bit number a pair of halves stands for, each half taken modulo
    2^32, high half first as in the parameters [[aH, aL]] of [M64]. *)
Definition u64 (p : Z * Z) : Z := to_uint32 (fst p) * 2 ^ 32 + to_uint32 (snd p).

Definition high (p : Z * Z) : Z := fst p.
Definition low (p : Z * Z) : Z := snd p.

(** The two elements of the pair [hash64] returns, under the names the code
    gives them: it returns [[nL, nH]], the low half first.  [rand32] reads
    the output of [rand64] the same way: it takes element 0. *)
Definition nL (p : Z * Z) : Z := fst p.
Definition nH (p : Z * Z) : Z := snd p.

(** A half within [0, 2^32), and a pair of such halves. *)
Definition is_u32 (z : Z) : Prop := 0 <= z < 2 ^ 32.
Definition wide (p : Z * Z) : Prop := is_u32 (fst p) /\ is_u32 (snd p).

(** The step of the specification, word for word: [x ^= x >> 23],
    [newS1 = x ^ s1 ^ (x << 17) ^ (s1 << 26)], [newS0 = s1],
    output [newS1 + s1], on 64-bit integers.  The result is
    [(newS0, newS1, output)]. *)
Definition next_spec (S0 S1 : Z) : Z * Z * Z :=
  let x := S0 in
  let x := Z.lxor x (Z.shiftr x 23) in
  let newS1 :=
    Z.lxor (Z.lxor (Z.lxor x S1) (Z.shiftl x 17 mod 2 ^ 64))
           (Z.shiftl S1 26 mod 2 ^ 64) in
  (S1, newS1, (newS1 + S1) mod 2 ^ 64).

(** xorshift128+ with the shift directions of [rand64]: left by 23, right
    by 17 and by 26. *)
Definition x_of (S0 : Z) : Z := Z.lxor S0 (Z.shiftl S0 23 mod 2 ^ 64).

Definition newS1_of (S0 S1 : Z) : Z :=
  let x := x_of S0 in
  Z.lxor (Z.lxor x S1) (Z.lxor (Z.shiftr x 17) (Z.shiftr S1 26)).

(** Whether the [count] bits of [z] from bit [from] on are all set. *)
Definition all_set (z from count : Z) : bool :=
  Z.land (Z.shiftr z from) (Z.ones count) =? Z.ones count.

(** When the sign-propagating [>>] of [shift64] brings no sign bit into the
    result, read off the 64-bit number [z] the pair stands for.  In a right
    shift by [k] the high half is filled from bit 63 and the low half from
    bit 31, the latter ORed onto the [k] lowest bits of the high half; in a
    left shift by [k] the low half is shifted right by [32 - k], filled from
    bit 31 and ORed onto the [32 - k] lowest bits of the high half. *)
Definition no_fill_right (k z : Z) : bool :=
  negb (Z.testbit z 63) && (negb (Z.testbit z 31) || all_set z 32 k).

Definition no_fill_left (k z : Z) : bool :=
  negb (Z.testbit z 31) || all_set z 32 (32 - k).

(** A cell of a grid, [None] outside the stored rows. *)
Definition cell (d : list (list bool)) (x y : nat) : option bool :=
  match nth_error d y with
  | Some row => nth_error row x
  | None => None
  end.

End Reference.
Import Reference.

(** ** Compositions used to state properties *)

Module Compose.

(** [n] calls of [pick] on the same array: the generator, the picked
    elements in the order of the calls, and the array left. *)
Fixpoint picks {A} (n : nat) (p : PRNG.t) (array : list A)
  : result (PRNG.t * list A * list A) :=
  match n with
  | O => Ok (p, [], array)
  | S n' =>
    '(p1, x, array1) <- PRNG.pick p array ;;
    '(p2, xs, array2) <- picks n' p1 array1 ;;
    Ok (p2, match x with Some v => v :: xs | None => xs end, array2)
  end.

(** [n] calls of [rand64]: the generator they leave. *)
Fixpoint draws (n : nat) (p : PRNG.t) : result PRNG.t :=
  match n with
  | O => Ok p
  | S n' => '(p1, _) <- PRNG.rand64 p ;; draws n' p1
  end.

(** The value of a code unit as a hexadecimal digit, and the number a
    hexadecimal numeral stands for. *)
Definition digit_value (c : Z) : Z := if c <? 58 then c - 48 else c - 87.

Definition hex_value (s : list Z) : Z :=
  fold_left (fun acc c => acc * 16 + digit_value c) s 0.

Definition is_hex_digit (c : Z) : Prop := 48 <= c <= 57 \/ 97 <= c <= 102.

(** How many of the cells a table reaches from [(x, y)] look open, and how
    many look like a forced wall. *)
Definition opens (m : Maze.t) (x y : Z) (set : list (Z * Z)) : Z :=
  Z.of_nat (length (filter (fun d =>
    match Maze.look m (x + fst d) (y + snd d) with
    | Maze.Cell true => true
    | _ => false
    end) set)).

Definition walls (m : Maze.t) (x y : Z) (set : list (Z * Z)) : Z :=
  Z.of_nat (length (filter (fun d =>
    match Maze.look m (x + fst d) (y + snd d) with
    | Maze.Weight03 => true
    | _ => false
    end) set)).

(** A grid of [h] rows of [w] cells. *)
Definition rectangular (d : list (list bool)) (w h : nat) : Prop :=
  length d = h /\ Forall (fun row => length row = w) d.

(** The number [rand32] returns on call number [k], counted from 0. *)
Fixpoint draw32_at (k : nat) (p : PRNG.t) : result Z :=
  match k with
  | O => '(_, n) <- PRNG.rand32 p ;; Ok n
  | S k' => '(p', _) <- PRNG.rand32 p ;; draw32_at k' p'
  end.

(** The double [rand()] makes of the draw [n]. *)
Definition unit_draw (n : Z) : number :=
  fdiv (number_of_int n) (number_of_int PRNG.max32).

(** What [loss] makes of a cell that holds [v], for the draw [n] and the
    weight [w]: the test [pos] on a cell that is open, [neg] on one that is
    closed. *)
Definition loss_outcome (rate w : number) (n : Z) (v : bool) : bool :=
  if v then flt (fmul (fneg rate) w) (unit_draw n)
  else flt (unit_draw n) (fmul rate w).

(** The place of the cell [(x, y)] among the stored cells, row after row. *)
Definition position (d : list (list bool)) (x y : nat) : nat :=
  (length (concat (firstn y d)) + x)%nat.

(** Halves that are signed 32-bit numbers, and a generator whose two fields
    are pairs of such halves. *)
Definition signed (p : Z * Z) : Prop :=
  (- 2 ^ 31 <= fst p < 2 ^ 31) /\ (- 2 ^ 31 <= snd p < 2 ^ 31).

Definition signed_state (p : PRNG.t) : Prop :=
  exists a b, p = PRNG.mk (word a) (word b) /\ signed a /\ signed b.

(** A grid without an open cell. *)
Definition closed (d : list (list bool)) : Prop :=
  Forall (Forall (fun b : bool => b = false)) d.

End Compose.
Import Compose.

(** * Properties *)

(** ** Host numbers: conversions and bits *)

Ltac pow2 := change (2 ^ 32) with 4294967296 in *; change (2 ^ 31) with 2147483648 in *;
             change (2 ^ 64) with 18446744073709551616 in *.

Lemma to_uint32_range z : 0 <= to_uint32 z < 2 ^ 32.
Proof. unfold to_uint32. apply Z.mod_pos_bound. reflexivity. Qed.

Lemma to_int32_range z : - 2 ^ 31 <= to_int32 z < 2 ^ 31.
Proof. unfold to_int32. pow2. pose proof (Z.mod_pos_bound (z + 2147483648) 4294967296). lia. Qed.

Lemma to_uint32_int32 z : to_uint32 (to_int32 z) = to_uint32 z.
Proof. unfold to_uint32, to_int32. pow2. Z.div_mod_to_equations. lia. Qed.

Lemma to_int32_of_u31 z : to_uint32 z < 2 ^ 31 -> to_int32 z = to_uint32 z.
Proof. unfold to_uint32, to_int32. pow2. intros H. Z.div_mod_to_equations. lia. Qed.

Lemma to_uint32_u32 z : is_u32 z -> to_uint32 z = z.
Proof. unfold is_u32, to_uint32. intros H. apply Z.mod_small. exact H. Qed.

Lemma to_uint32_testbit z i : Z.testbit (to_uint32 z) i = (i <? 32) && Z.testbit z i.
Proof.
  unfold to_uint32. destruct (Z.ltb_spec i 32).
  - rewrite Z.mod_pow2_bits_low by lia. reflexivity.
  - rewrite Z.mod_pow2_bits_high by lia. reflexivity.
Qed.

Lemma to_uint32_lxor a b : to_uint32 (Z.lxor a b) = Z.lxor (to_uint32 a) (to_uint32 b).
Proof.
  apply Z.bits_inj'. intros i Hi.
  rewrite Z.lxor_spec, !to_uint32_testbit, Z.lxor_spec.
  destruct (i <? 32); reflexivity.
Qed.

Lemma to_uint32_lor a b : to_uint32 (Z.lor a b) = Z.lor (to_uint32 a) (to_uint32 b).
Proof.
  apply Z.bits_inj'. intros i Hi.
  rewrite Z.lor_spec, !to_uint32_testbit, Z.lor_spec.
  destruct (i <? 32); reflexivity.
Qed.

Lemma lor_disjoint_add a b k :
  0 <= k -> a mod 2 ^ k = 0 -> 0 <= b < 2 ^ k -> Z.lor a b = a + b.
Proof.
  intros Hk Ha Hb.
  assert (D : Z.land a b = 0).
  { apply Z.bits_inj'. intros i Hi. rewrite Z.land_spec, Z.bits_0.
    destruct (Z.ltb_spec i k).
    - rewrite <- (Z.mod_pow2_bits_low a k i) by lia. rewrite Ha, Z.bits_0. reflexivity.
    - rewrite <- (Z.mod_small b (2 ^ k)) by lia.
      rewrite Z.mod_pow2_bits_high by lia. apply andb_false_r. }
  rewrite <- Z.lxor_lor by exact D. symmetry. apply Z.add_nocarry_lxor. exact D.
Qed.

Lemma concat_testbit A B i :
  0 <= i -> 0 <= B < 2 ^ 32 ->
  Z.testbit (A * 2 ^ 32 + B) i = if i <? 32 then Z.testbit B i else Z.testbit A (i - 32).
Proof.
  intros Hi HB. destruct (Z.ltb_spec i 32).
  - rewrite <- (Z.mod_pow2_bits_low (A * 2 ^ 32 + B) 32 i) by lia.
    rewrite Z.add_comm, Z.mod_add by lia. rewrite Z.mod_small by lia. reflexivity.
  - replace i with ((i - 32) + 32) at 1 by lia.
    rewrite <- Z.div_pow2_bits by lia.
    rewrite Z.add_comm, Z.div_add by lia. rewrite Z.div_small by lia. reflexivity.
Qed.

Lemma lxor_u32 a b : is_u32 a -> is_u32 b -> is_u32 (Z.lxor a b).
Proof.
  intros Ha Hb. unfold is_u32.
  rewrite <- (to_uint32_u32 a Ha), <- (to_uint32_u32 b Hb), <- to_uint32_lxor.
  apply to_uint32_range.
Qed.

Lemma concat_lxor A B C D :
  is_u32 B -> is_u32 D ->
  Z.lxor (A * 2 ^ 32 + B) (C * 2 ^ 32 + D) = Z.lxor A C * 2 ^ 32 + Z.lxor B D.
Proof.
  intros HB HD. apply Z.bits_inj'. intros i Hi.
  rewrite Z.lxor_spec, !concat_testbit by (try apply lxor_u32; assumption).
  rewrite !Z.lxor_spec. destruct (i <? 32); reflexivity.
Qed.

(** *** Signed 32-bit results *)

Lemma testbit_31_small u : 0 <= u < 2 ^ 31 -> Z.testbit u 31 = false.
Proof.
  intros H. apply Z.testbit_false; [lia | ]. rewrite Z.div_small by lia. reflexivity.
Qed.

Lemma testbit_31_big u : 2 ^ 31 <= u < 2 ^ 32 -> Z.testbit u 31 = true.
Proof.
  intros H. apply Z.testbit_true; [lia | ].
  replace (u / 2 ^ 31) with 1; [reflexivity | ].
  pow2. Z.div_mod_to_equations. lia.
Qed.

(** ToInt32 keeps the low 31 bits and repeats bit 31 above them. *)
Lemma to_int32_testbit z i :
  0 <= i -> Z.testbit (to_int32 z) i = Z.testbit z (Z.min i 31).
Proof.
  intros Hi.
  assert (Low : forall j, 0 <= j < 32 -> Z.testbit (to_int32 z) j = Z.testbit z j).
  { intros j Hj.
    transitivity (Z.testbit (to_uint32 (to_int32 z)) j).
    - rewrite to_uint32_testbit. destruct (Z.ltb_spec j 32); [reflexivity | lia].
    - rewrite to_uint32_int32, to_uint32_testbit.
      destruct (Z.ltb_spec j 32); [reflexivity | lia]. }
  destruct (Z.le_gt_cases i 31) as [Hle | Hgt].
  - rewrite Z.min_l by lia. apply Low. lia.
  - rewrite Z.min_r by lia.
    replace i with ((i - 32) + 32) by lia.
    rewrite <- Z.div_pow2_bits by lia.
    assert (B : Z.testbit z 31 = Z.testbit (to_uint32 z) 31).
    { rewrite to_uint32_testbit. reflexivity. }
    rewrite B. pose proof (to_uint32_range z) as R.
    destruct (Z.lt_ge_cases (to_uint32 z) (2 ^ 31)) as [S | S].
    + rewrite (to_int32_of_u31 z S), Z.div_small by lia.
      rewrite Z.bits_0, testbit_31_small by lia. reflexivity.
    + replace (to_int32 z / 2 ^ 32) with (-1).
      * rewrite Z.bits_m1 by lia. rewrite testbit_31_big by lia. reflexivity.
      * unfold to_int32, to_uint32 in *. pow2. Z.div_mod_to_equations. lia.
Qed.

(** A number whose bits from 31 upwards all agree is a ToInt32 result. *)
Lemma to_int32_fixed z :
  (forall i, 31 <= i -> Z.testbit z i = Z.testbit z 31) -> to_int32 z = z.
Proof.
  intros H. apply Z.bits_inj'. intros i Hi. rewrite to_int32_testbit by exact Hi.
  destruct (Z.le_gt_cases i 31).
  - rewrite Z.min_l by lia. reflexivity.
  - rewrite Z.min_r by lia. symmetry. apply H. lia.
Qed.

(** The results of [|] and [^] are signed 32-bit numbers. *)
Lemma lor_int32 a b : - 2 ^ 31 <= bor a b < 2 ^ 31.
Proof.
  unfold bor. pose proof (to_int32_range (Z.lor (to_int32 a) (to_int32 b))) as R.
  rewrite to_int32_fixed in R; [exact R | ].
  intros i Hi. rewrite !Z.lor_spec, !to_int32_testbit by lia.
  rewrite (Z.min_r i 31) by lia. reflexivity.
Qed.

Lemma lxor_int32 a b : - 2 ^ 31 <= bxor a b < 2 ^ 31.
Proof.
  unfold bxor. pose proof (to_int32_range (Z.lxor (to_int32 a) (to_int32 b))) as R.
  rewrite to_int32_fixed in R; [exact R | ].
  intros i Hi. rewrite !Z.lxor_spec, !to_int32_testbit by lia.
  rewrite (Z.min_r i 31) by lia. reflexivity.
Qed.

(** ** M64 *)

(** [add64] on two pairs of numbers adds the halves separately. *)
Lemma add64_words (a b : Z * Z) :
  M64.add64 (word a) (word b)
  = Ok (to_uint32 (fst a + fst b), to_uint32 (snd a + snd b)).
Proof. reflexivity. Qed.

(** [add64] wraps each half with [>>> 0]: its halves lie in [0, 2^32). *)
Lemma add64_wide (a b : Z * Z) :
  exists c, M64.add64 (word a) (word b) = Ok c /\ wide c.
Proof.
  eexists. split; [apply add64_words | ].
  split; cbn [fst snd]; apply Z.mod_pos_bound; reflexivity.
Qed.

(** C1: [add64] does not carry from the low half into the high half.  At
    [[0, 0xFFFFFFFF]] and [[0, 1]] it returns [[0, 0]], while the 64-bit sum
    of the two operands is 2^32, the pair [[1, 0]]. *)
Theorem add64_drops_carry :
  M64.add64 (word (0, 4294967295)) (word (0, 1)) = Ok (0, 0)
  /\ u64 (0, 0) <> (u64 (0, 4294967295) + u64 (0, 1)) mod 2 ^ 64
  /\ u64 (1, 0) = (u64 (0, 4294967295) + u64 (0, 1)) mod 2 ^ 64.
Proof.
  split; [reflexivity | split; [vm_compute; discriminate | reflexivity] ].
Qed.

(** C3: with a shift amount of 0, [shift64] returns its [arguments] object,
    which holds the input pair and the number 0; it does not return the
    input pair. *)
Theorem shift64_zero_returns_arguments (a : Z * Z) :
  M64.shift64 (word a) 0 = Ok (Arguments (word a) (Num 0))
  /\ M64.shift64 (word a) 0 <> Ok (word a).
Proof. split; [reflexivity | discriminate]. Qed.

(** C4: [mul64] calls itself on the high halves, which are numbers and
    cannot be destructured: on every pair of WideWords [mul64] and [imul64]
    throw a TypeError and return no product. *)
Theorem mul64_throws (a b : Z * Z) :
  M64.mul64 (word a) (word b) = TypeError
  /\ M64.imul64 (word a) (word b) = TypeError.
Proof. destruct a, b. split; reflexivity. Qed.

(** The two halves are recovered from the 64-bit number. *)
Lemma u64_halves (p : Z * Z) :
  u64 p / 2 ^ 32 = to_uint32 (fst p) /\ u64 p mod 2 ^ 32 = to_uint32 (snd p).
Proof.
  unfold u64.
  pose proof (to_uint32_range (fst p)). pose proof (to_uint32_range (snd p)).
  revert H H0. generalize (to_uint32 (fst p)) (to_uint32 (snd p)). intros h l Hh Hl.
  pow2. Z.div_mod_to_equations. lia.
Qed.

(** When the low halves add without a carry, [add64] is the 64-bit sum. *)
Lemma add64_no_carry (a b : Z * Z) :
  exists out, M64.add64 (word a) (word b) = Ok out
    /\ (u64 a mod 2 ^ 32 + u64 b mod 2 ^ 32 < 2 ^ 32 ->
        u64 out = (u64 a + u64 b) mod 2 ^ 64).
Proof.
  destruct a as [ah al], b as [bh bl].
  eexists. split; [reflexivity | ].
  destruct (u64_halves (ah, al)) as [_ ->]. destruct (u64_halves (bh, bl)) as [_ ->].
  unfold u64; cbn [fst snd].
  assert (I : forall z, to_uint32 (to_uint32 z) = to_uint32 z).
  { intros z. apply to_uint32_u32, to_uint32_range. }
  assert (S : forall x y, to_uint32 (x + y) = to_uint32 (to_uint32 x + to_uint32 y)).
  { intros x y. unfold to_uint32. apply Z.add_mod. discriminate. }
  cbn [add_u32]. rewrite !I, (S ah bh), (S al bl).
  pose proof (to_uint32_range ah) as R1. pose proof (to_uint32_range al) as R2.
  pose proof (to_uint32_range bh) as R3. pose proof (to_uint32_range bl) as R4.
  revert R1 R2 R3 R4.
  generalize (to_uint32 ah) (to_uint32 al) (to_uint32 bh) (to_uint32 bl).
  intros A B C D R1 R2 R3 R4 NC.
  rewrite (to_uint32_u32 (B + D)) by (unfold is_u32; lia).
  unfold to_uint32. pow2. Z.div_mod_to_equations. lia.
Qed.

(** Whenever the low halves carry, [add64] differs from the 64-bit sum. *)
Lemma add64_wrong_on_carry (a b : Z * Z) :
  wide a -> wide b -> 2 ^ 32 <= snd a + snd b ->
  exists out, M64.add64 (word a) (word b) = Ok out
              /\ u64 out <> (u64 a + u64 b) mod 2 ^ 64.
Proof.
  destruct a as [ah al], b as [bh bl]. unfold wide, is_u32; cbn [fst snd].
  intros [Hah Hal] [Hbh Hbl] C.
  eexists. split; [reflexivity | ].
  unfold u64; cbn [fst snd add_u32].
  rewrite (to_uint32_u32 ah), (to_uint32_u32 al), (to_uint32_u32 bh),
    (to_uint32_u32 bl) by assumption.
  rewrite !(to_uint32_u32 (to_uint32 _)) by apply to_uint32_range.
  unfold to_uint32. pow2. Z.div_mod_to_equations. lia.
Qed.

(** [xor64] is the xor of the 64-bit numbers, whatever the signs of the
    halves. *)
Lemma xor64_words (a b : Z * Z) :
  exists c, M64.xor64 (word a) (word b) = Ok c
            /\ u64 c = Z.lxor (u64 a) (u64 b).
Proof.
  destruct a as [ah al], b as [bh bl].
  eexists. split; [reflexivity | ].
  unfold u64; cbn [fst snd ToInt32].
  rewrite !to_uint32_lxor, !to_uint32_int32.
  symmetry. apply concat_lxor; apply to_uint32_range.
Qed.

(** *** [shift64]: when it is the 64-bit shift *)

Lemma to_int32_idem z : to_int32 (to_int32 z) = to_int32 z.
Proof. unfold to_int32. pow2. Z.div_mod_to_equations. lia. Qed.

Lemma shcount_mod (n : Z) : shcount n = n mod 32.
Proof.
  unfold shcount, to_uint32. change 31 with (Z.ones 5).
  rewrite Z.land_ones by lia. change (2 ^ 5) with 32. pow2.
  Z.div_mod_to_equations. lia.
Qed.

Lemma shcount_small (k : Z) : 0 <= k < 32 -> shcount k = k.
Proof. intros H. rewrite shcount_mod. apply Z.mod_small. exact H. Qed.

Lemma u32_testbit_high (z j : Z) : 32 <= j -> Z.testbit (to_uint32 z) j = false.
Proof.
  intros H. rewrite to_uint32_testbit.
  destruct (Z.ltb_spec j 32); [lia | reflexivity].
Qed.

Lemma int32_testbit_low (z i : Z) :
  0 <= i < 32 -> Z.testbit (to_int32 z) i = Z.testbit z i.
Proof. intros H. rewrite to_int32_testbit by lia. rewrite Z.min_l by lia. reflexivity. Qed.

Lemma u32_testbit_low (z i : Z) :
  i < 32 -> Z.testbit (to_uint32 z) i = Z.testbit z i.
Proof.
  intros H. rewrite to_uint32_testbit.
  destruct (Z.ltb_spec i 32); [reflexivity | lia].
Qed.

Lemma u64_testbit (p : Z * Z) (i : Z) :
  0 <= i ->
  Z.testbit (u64 p) i
  = if i <? 32 then Z.testbit (snd p) i
    else (i <? 64) && Z.testbit (fst p) (i - 32).
Proof.
  intros Hi. unfold u64. rewrite concat_testbit by (try lia; apply to_uint32_range).
  rewrite !to_uint32_testbit.
  destruct (Z.ltb_spec i 32); [reflexivity | ].
  destruct (Z.ltb_spec (i - 32) 32), (Z.ltb_spec i 64); try lia; reflexivity.
Qed.

Lemma all_set_spec (z from count : Z) :
  0 <= from -> 0 <= count ->
  (all_set z from count = true
   <-> forall j, 0 <= j < count -> Z.testbit z (from + j) = true).
Proof.
  intros Hf Hc. unfold all_set. rewrite Z.eqb_eq. split.
  - intros E j Hj. apply (f_equal (fun y => Z.testbit y j)) in E.
    rewrite Z.land_spec, Z.shiftr_spec, Z.ones_spec_low in E by lia.
    rewrite andb_true_r, Z.add_comm in E. exact E.
  - intros H. apply Z.bits_inj'. intros i Hi.
    rewrite Z.land_spec, Z.shiftr_spec by lia.
    destruct (Z.lt_ge_cases i count).
    + rewrite Z.ones_spec_low by lia. rewrite Z.add_comm, H by lia. reflexivity.
    + rewrite Z.ones_spec_high by lia. apply andb_false_r.
Qed.

(** The bits of the pair [shift64(a, k)] returns for [0 < k < 32]. *)
Lemma shift64_right_bits (h l k i : Z) :
  0 < k < 32 -> 0 <= i ->
  Z.testbit (u64 (sar (to_int32 h) k,
                  bor (shl (to_int32 h) (32 - k)) (sar (to_int32 l) k))) i
  = if i <? 32
    then (if i + k <? 32 then Z.testbit l (i + k)
          else Z.testbit h (i + k - 32) || Z.testbit l 31)
    else (i <? 64) && Z.testbit h (Z.min (i - 32 + k) 31).
Proof.
  intros Hk Hi. rewrite u64_testbit by exact Hi. cbn [fst snd].
  unfold sar, shl, bor. rewrite !to_int32_idem.
  rewrite (shcount_small k), (shcount_small (32 - k)) by lia.
  destruct (Z.ltb_spec i 32) as [A | A].
  - rewrite Z.lor_spec, !int32_testbit_low by lia.
    rewrite Z.shiftl_spec, Z.shiftr_spec by lia.
    rewrite (to_int32_testbit l) by lia.
    destruct (Z.ltb_spec (i + k) 32).
    + rewrite Z.testbit_neg_r by lia. rewrite Z.min_l by lia. reflexivity.
    + rewrite int32_testbit_low by lia. rewrite Z.min_r by lia.
      f_equal. f_equal. lia.
  - rewrite Z.shiftr_spec by lia. rewrite to_int32_testbit by lia. reflexivity.
Qed.

(** The bits of the pair [shift64(a, -k)] returns for [0 < k < 32]. *)
Lemma shift64_left_bits (h l k i : Z) :
  0 < k < 32 -> 0 <= i ->
  Z.testbit (u64 (bor (shl (to_int32 h) (- - k)) (sar (to_int32 l) (32 + - k)),
                  shl (to_int32 l) (- - k))) i
  = if i <? 32 then Z.testbit l (i - k)
    else (i <? 64)
         && (if i - 32 <? k then Z.testbit l (i - k)
             else Z.testbit h (i - 32 - k) || Z.testbit l 31).
Proof.
  intros Hk Hi. rewrite u64_testbit by exact Hi. cbn [fst snd].
  unfold sar, shl, bor. rewrite Z.opp_involutive, !to_int32_idem.
  rewrite (shcount_small k), (shcount_small (32 + - k)) by lia.
  destruct (Z.ltb_spec i 32) as [A | A].
  - rewrite int32_testbit_low, Z.shiftl_spec by lia.
    destruct (Z.lt_ge_cases (i - k) 0).
    + rewrite !Z.testbit_neg_r by lia. reflexivity.
    + apply int32_testbit_low. lia.
  - destruct (Z.ltb_spec i 64) as [B | B]; [ | reflexivity]. cbn [andb].
    rewrite Z.lor_spec, !int32_testbit_low by lia.
    rewrite Z.shiftl_spec, Z.shiftr_spec by lia.
    rewrite (to_int32_testbit l) by lia.
    destruct (Z.ltb_spec (i - 32) k).
    + rewrite Z.testbit_neg_r by lia. rewrite Z.min_l by lia. cbn [orb].
      f_equal. lia.
    + rewrite int32_testbit_low by lia. rewrite Z.min_r by lia. reflexivity.
Qed.

(** [shift64(a, k)] for [0 < k < 32] returns a pair, and the pair is the
    64-bit logical right shift of [a] exactly when [>>] brings in no sign
    bit. *)
Lemma shift64_right_iff (a : Z * Z) (k : Z) :
  0 < k < 32 ->
  exists s, M64.shift64 (word a) k = Ok (word s)
            /\ (u64 s = Z.shiftr (u64 a) k <-> no_fill_right k (u64 a) = true).
Proof.
  intros Hk. destruct a as [h l].
  exists (sar (ToInt32 (Num h)) k,
          bor (shl (ToInt32 (Num h)) (32 - k)) (sar (ToInt32 (Num l)) k)).
  split.
  { unfold M64.shift64, word. cbn [destructure bind fst snd].
    destruct (Z.ltb_spec 0 k); [reflexivity | lia]. }
  cbn [ToInt32]. unfold no_fill_right.
  rewrite andb_true_iff, orb_true_iff, !negb_true_iff.
  rewrite all_set_spec by lia.
  rewrite !u64_testbit by lia. cbn [fst snd].
  change (63 <? 32) with false. change (63 <? 64) with true.
  change (31 <? 32) with true. change (63 - 32) with 31. cbn [andb].
  split.
  - intros E.
    assert (B : forall i, 0 <= i ->
              Z.testbit (u64 (sar (to_int32 h) k,
                              bor (shl (to_int32 h) (32 - k)) (sar (to_int32 l) k))) i
              = Z.testbit (Z.shiftr (u64 (h, l)) k) i)
      by (intros i _; rewrite E; reflexivity).
    assert (H31 : Z.testbit h 31 = false).
    { specialize (B 63 ltac:(lia)).
      rewrite shift64_right_bits, Z.shiftr_spec, u64_testbit in B by lia.
      cbn [fst snd] in B.
      destruct (Z.ltb_spec 63 32); [lia | ].
      destruct (Z.ltb_spec (63 + k) 32); [lia | ].
      destruct (Z.ltb_spec (63 + k) 64); [lia | ].
      rewrite Z.min_r in B by lia. exact B. }
    split; [exact H31 | ].
    destruct (Z.testbit l 31) eqn:L31; [right | left; reflexivity].
    intros j Hj. rewrite u64_testbit by lia. cbn [fst snd].
    destruct (Z.ltb_spec (32 + j) 32); [lia | ].
    destruct (Z.ltb_spec (32 + j) 64); [ | lia]. cbn [andb].
    replace (32 + j - 32) with j by lia.
    specialize (B (j + 32 - k) ltac:(lia)).
    rewrite shift64_right_bits, Z.shiftr_spec, u64_testbit in B by lia.
    cbn [fst snd] in B.
    destruct (Z.ltb_spec (j + 32 - k) 32); [ | lia].
    destruct (Z.ltb_spec (j + 32 - k + k) 32); [lia | ].
    destruct (Z.ltb_spec (j + 32 - k + k) 64); [ | lia].
    rewrite L31, orb_true_r in B. cbn [andb] in B.
    replace (j + 32 - k + k - 32) with j in B by lia. symmetry. exact B.
  - intros [H31 F]. apply Z.bits_inj'. intros i Hi.
    rewrite shift64_right_bits, Z.shiftr_spec, u64_testbit by lia.
    cbn [fst snd].
    destruct (Z.ltb_spec i 32) as [A | A].
    + destruct (Z.ltb_spec (i + k) 32); [reflexivity | ].
      destruct (Z.ltb_spec (i + k) 64); [ | lia]. cbn [andb].
      destruct F as [L31 | F]; [rewrite L31; apply orb_false_r | ].
      specialize (F (i + k - 32) ltac:(lia)).
      rewrite u64_testbit in F by lia. cbn [fst snd] in F.
      destruct (Z.ltb_spec (32 + (i + k - 32)) 32); [lia | ].
      destruct (Z.ltb_spec (32 + (i + k - 32)) 64); [ | lia]. cbn [andb] in F.
      replace (32 + (i + k - 32) - 32) with (i + k - 32) in F by lia.
      rewrite F. reflexivity.
    + destruct (Z.ltb_spec (i + k) 32); [lia | ].
      destruct (Z.ltb_spec i 64), (Z.ltb_spec (i + k) 64); try lia; cbn [andb];
        try reflexivity.
      * rewrite Z.min_l by lia. f_equal. lia.
      * rewrite Z.min_r by lia. exact H31.
Qed.

(** [shift64(a, -k)] for [0 < k < 32] returns a pair, and the pair is the
    64-bit left shift of [a], the bits beyond bit 63 dropped, exactly when
    [>>] brings in no sign bit. *)
Lemma shift64_left_iff (a : Z * Z) (k : Z) :
  0 < k < 32 ->
  exists s, M64.shift64 (word a) (- k) = Ok (word s)
            /\ (u64 s = Z.shiftl (u64 a) k mod 2 ^ 64
                <-> no_fill_left k (u64 a) = true).
Proof.
  intros Hk. destruct a as [h l].
  exists (bor (shl (ToInt32 (Num h)) (- - k)) (sar (ToInt32 (Num l)) (32 + - k)),
          shl (ToInt32 (Num l)) (- - k)).
  split.
  { unfold M64.shift64, word. cbn [destructure bind fst snd].
    destruct (Z.ltb_spec 0 (- k)); [lia | ].
    destruct (Z.ltb_spec (- k) 0); [reflexivity | lia]. }
  cbn [ToInt32]. unfold no_fill_left.
  rewrite orb_true_iff, !negb_true_iff.
  rewrite all_set_spec by lia.
  rewrite !u64_testbit by lia. cbn [fst snd].
  change (31 <? 32) with true. cbv iota.
  assert (T : forall i, 0 <= i ->
            Z.testbit (Z.shiftl (u64 (h, l)) k mod 2 ^ 64) i
            = if i <? 32 then Z.testbit l (i - k)
              else (i <? 64)
                   && (if i - 32 <? k then Z.testbit l (i - k)
                       else Z.testbit h (i - 32 - k))).
  { intros i Hi. destruct (Z.ltb_spec i 64) as [B | B].
    - rewrite Z.mod_pow2_bits_low, Z.shiftl_spec by lia.
      destruct (Z.lt_ge_cases (i - k) 0).
      + rewrite !Z.testbit_neg_r by lia.
        destruct (Z.ltb_spec i 32); [reflexivity | lia].
      + rewrite u64_testbit by lia. cbn [fst snd].
        destruct (Z.ltb_spec i 32), (Z.ltb_spec (i - k) 32),
          (Z.ltb_spec (i - 32) k), (Z.ltb_spec (i - k) 64);
          try lia; cbn [andb]; try reflexivity.
        f_equal. lia.
    - rewrite Z.mod_pow2_bits_high by lia.
      destruct (Z.ltb_spec i 32); [lia | reflexivity]. }
  split.
  - intros E.
    destruct (Z.testbit l 31) eqn:L31; [right | left; reflexivity].
    intros j Hj. rewrite u64_testbit by lia. cbn [fst snd].
    destruct (Z.ltb_spec (32 + j) 32); [lia | ].
    destruct (Z.ltb_spec (32 + j) 64); [ | lia]. cbn [andb].
    replace (32 + j - 32) with j by lia.
    assert (B := f_equal (fun z => Z.testbit z (j + k + 32)) E). cbn beta in B.
    rewrite shift64_left_bits, T in B by lia.
    destruct (Z.ltb_spec (j + k + 32) 32); [lia | ].
    destruct (Z.ltb_spec (j + k + 32) 64); [ | lia].
    destruct (Z.ltb_spec (j + k + 32 - 32) k); [lia | ].
    cbn [andb] in B. rewrite L31, orb_true_r in B.
    replace (j + k + 32 - 32 - k) with j in B by lia. symmetry. exact B.
  - intros F. apply Z.bits_inj'. intros i Hi.
    rewrite shift64_left_bits, T by lia.
    destruct (Z.ltb_spec i 32); [reflexivity | ].
    destruct (Z.ltb_spec i 64); [ | reflexivity]. cbn [andb].
    destruct (Z.ltb_spec (i - 32) k); [reflexivity | ].
    destruct F as [L31 | F]; [rewrite L31; apply orb_false_r | ].
    specialize (F (i - 32 - k) ltac:(lia)).
    rewrite u64_testbit in F by lia. cbn [fst snd] in F.
    destruct (Z.ltb_spec (32 + (i - 32 - k)) 32); [lia | ].
    destruct (Z.ltb_spec (32 + (i - 32 - k)) 64); [ | lia]. cbn [andb] in F.
    replace (32 + (i - 32 - k) - 32) with (i - 32 - k) in F by lia.
    rewrite F. reflexivity.
Qed.

(** C5, as stated, fails: halves in [0, 2^32) do not stay there.  [xor64]
    and [shift64] return the signed results of the bitwise operators, and
    [mul32] returns sums that are not truncated. *)
Lemma halves_leave_u32_range :
  wide (2147483648, 0) /\ wide (0, 0) /\ wide (0, 1) /\ is_u32 4294967295
  /\ M64.xor64 (word (2147483648, 0)) (word (0, 0)) = Ok (-2147483648, 0)
  /\ M64.shift64 (word (0, 1)) (-31) = Ok (word (0, -2147483648))
  /\ M64.mul32 (Num 4294967295) (Num 4294967295) = (4294836221, 4294967297)
  /\ ~ wide (-2147483648, 0) /\ ~ wide (0, -2147483648)
  /\ ~ wide (4294836221, 4294967297).
Proof.
  unfold wide, is_u32; simpl fst; simpl snd.
  repeat split; try reflexivity; try lia.
Qed.

(** The results of [>>] and [<<] are signed 32-bit numbers. *)
Lemma shcount_nonneg n : 0 <= shcount n.
Proof. unfold shcount. apply Z.land_nonneg. right. lia. Qed.

Lemma sar_int32 a n : - 2 ^ 31 <= sar a n < 2 ^ 31.
Proof.
  unfold sar. pose proof (to_int32_range a) as R. pose proof (shcount_nonneg n) as K.
  revert R K. generalize (to_int32 a) (shcount n). intros z k R K.
  rewrite Z.shiftr_div_pow2 by exact K.
  assert (P : 0 < 2 ^ k) by (apply Z.pow_pos_nonneg; lia).
  revert P. generalize (2 ^ k). intros d P. pow2.
  Z.div_mod_to_equations. nia.
Qed.

Lemma shl_int32 a n : - 2 ^ 31 <= shl a n < 2 ^ 31.
Proof. unfold shl. apply to_int32_range. Qed.

(** C5 (amended): [add64] returns halves within [0, 2^32); [xor64] and
    [shift64] by an amount other than 0 return halves that are signed 32-bit
    numbers, within [-2^31, 2^31): truncated to 32 bits, negative when bit 31
    is set. *)
Theorem halves_stay_32_bit (a b : Z * Z) :
  (exists c, M64.add64 (word a) (word b) = Ok c /\ wide c)
  /\ (exists c, M64.xor64 (word a) (word b) = Ok c
                /\ - 2 ^ 31 <= high c < 2 ^ 31 /\ - 2 ^ 31 <= low c < 2 ^ 31)
  /\ (forall l, l <> 0 ->
        exists c, M64.shift64 (word a) l = Ok (word c)
                  /\ - 2 ^ 31 <= high c < 2 ^ 31 /\ - 2 ^ 31 <= low c < 2 ^ 31).
Proof.
  split; [apply add64_wide | split].
  - destruct a as [ah al], b as [bh bl]. eexists. split; [reflexivity | ].
    unfold high, low; cbn [fst snd ToInt32]. split; apply lxor_int32.
  - intros l Hl. destruct a as [ah al]. unfold M64.shift64. cbn [word fst snd destructure bind].
    destruct (Z.ltb_spec 0 l) as [P | P].
    + eexists. split; [reflexivity | ]. unfold high, low; cbn [fst snd].
      split; [apply sar_int32 | apply lor_int32].
    + destruct (Z.ltb_spec l 0) as [N | N]; [ | lia].
      eexists. split; [reflexivity | ]. unfold high, low; cbn [fst snd].
      split; [apply lor_int32 | apply shl_int32].
Qed.

Lemma halves_stay_32_bit_witness :
  (-31 <> 0)
  /\ exists c, M64.shift64 (word (0, 1)) (-31) = Ok (word c)
               /\ - 2 ^ 31 <= high c < 2 ^ 31 /\ - 2 ^ 31 <= low c < 2 ^ 31.
Proof.
  assert (N : -31 <> 0) by discriminate.
  split; [exact N | ].
  destruct (halves_stay_32_bit (0, 1) (0, 0)) as (_ & _ & S).
  exact (S (-31) N).
Defined.

(** ** PRNG.hash32 and PRNG.hash64 *)

Lemma hash32_step_int32 (h c : Z) : - 2 ^ 31 <= PRNG.hash32_step h c < 2 ^ 31.
Proof. exact (lor_int32 _ _). Qed.

Lemma fold_left_step {A B} (f : A -> B -> A) (l : list B) (b : B) (a : A) :
  fold_left f (b :: l) a = fold_left f l (f a b).
Proof. reflexivity. Qed.

Lemma fold_hash32_step_int32 (str : list Z) (h : Z) :
  - 2 ^ 31 <= h < 2 ^ 31 -> - 2 ^ 31 <= fold_left PRNG.hash32_step str h < 2 ^ 31.
Proof.
  revert h. induction str as [ | c str IH]; intros h Hh.
  - exact Hh.
  - rewrite fold_left_step. apply IH, hash32_step_int32.
Qed.

(** [hash32] returns the result of a bitwise operator: a signed 32-bit
    number. *)
Lemma hash32_int32 (str : list Z) : - 2 ^ 31 <= PRNG.hash32 str < 2 ^ 31.
Proof. apply fold_hash32_step_int32, lxor_int32. Qed.


(** ** PRNG.rand64 *)

(** C2, as the specification words it, fails: from the state
    [s0 = [0, 1]], [s1 = [0, 0]] the code reaches [s1 = [0, 8388673]], the
    specified step reaches 131073. *)
Lemma rand64_not_next_spec :
  ~ (exists n0 n1 out,
        PRNG.rand64 (PRNG.mk (word (0, 1)) (word (0, 0)))
        = Ok (PRNG.mk (word n0) (word n1), out)
        /\ (u64 n0, u64 n1, u64 out) = next_spec (u64 (0, 1)) (u64 (0, 0))).
Proof.
  intros (n0 & n1 & out & E & S).
  vm_compute in E. injection E as E0 E0' E1 E1' Eo.
  destruct n0, n1; cbn [fst snd] in *. subst.
  vm_compute in S. discriminate S.
Qed.

(** [add64] is the 64-bit sum exactly when the low halves add without a
    carry, whatever the signs of the halves. *)
Lemma add64_carry_iff (a b : Z * Z) :
  exists out, M64.add64 (word a) (word b) = Ok out
    /\ (u64 out = (u64 a + u64 b) mod 2 ^ 64
        <-> u64 a mod 2 ^ 32 + u64 b mod 2 ^ 32 < 2 ^ 32).
Proof.
  destruct a as [ah al], b as [bh bl].
  eexists. split; [reflexivity | ].
  destruct (u64_halves (ah, al)) as [_ ->]. destruct (u64_halves (bh, bl)) as [_ ->].
  unfold u64; cbn [fst snd].
  assert (I : forall z, to_uint32 (to_uint32 z) = to_uint32 z).
  { intros z. apply to_uint32_u32, to_uint32_range. }
  assert (S : forall x y, to_uint32 (x + y) = to_uint32 (to_uint32 x + to_uint32 y)).
  { intros x y. unfold to_uint32. apply Z.add_mod. discriminate. }
  cbn [add_u32]. rewrite !I, (S ah bh), (S al bl).
  pose proof (to_uint32_range ah) as R1. pose proof (to_uint32_range al) as R2.
  pose proof (to_uint32_range bh) as R3. pose proof (to_uint32_range bl) as R4.
  revert R1 R2 R3 R4.
  generalize (to_uint32 ah) (to_uint32 al) (to_uint32 bh) (to_uint32 bl).
  intros A B C D R1 R2 R3 R4.
  unfold to_uint32. pow2. Z.div_mod_to_equations. lia.
Qed.

(** The calls of one [rand64], and what each result stands for. *)
Lemma rand64_trace (a b : Z * Z) :
  exists x n1 out,
    PRNG.rand64 (PRNG.mk (word a) (word b)) = Ok (PRNG.mk (word b) (word n1), out)
    /\ M64.add64 (word n1) (word b) = Ok out
    /\ (no_fill_left 23 (u64 a) = true -> u64 x = x_of (u64 a))
    /\ (no_fill_right 17 (u64 x) = true -> no_fill_right 26 (u64 b) = true ->
        u64 n1 = Z.lxor (Z.lxor (u64 x) (u64 b))
                        (Z.lxor (Z.shiftr (u64 x) 17) (Z.shiftr (u64 b) 26)))
    /\ (u64 out = (u64 n1 + u64 b) mod 2 ^ 64
        <-> u64 n1 mod 2 ^ 32 + u64 b mod 2 ^ 32 < 2 ^ 32).
Proof.
  destruct (shift64_left_iff a 23 ltac:(lia)) as (sx & E1 & U1).
  change (M64.shift64 (word a) (-23) = Ok (word sx)) in E1.
  destruct (xor64_words a sx) as (x & E2 & U2).
  destruct (xor64_words x b) as (xy & E3 & U3).
  destruct (shift64_right_iff x 17 ltac:(lia)) as (sx17 & E4 & U4).
  destruct (shift64_right_iff b 26 ltac:(lia)) as (sy26 & E5 & U5).
  destruct (xor64_words sx17 sy26) as (sh & E6 & U6).
  destruct (xor64_words xy sh) as (n1 & E7 & U7).
  destruct (add64_carry_iff n1 b) as (out & E8 & U8).
  exists x, n1, out. repeat apply conj.
  - unfold PRNG.rand64. cbn [PRNG.s0 PRNG.s1].
    rewrite E1. cbn [bind]. rewrite E2. cbn [bind]. rewrite E3. cbn [bind].
    rewrite E4. cbn [bind]. rewrite E5. cbn [bind]. rewrite E6. cbn [bind].
    rewrite E7. cbn [bind]. rewrite E8. reflexivity.
  - exact E8.
  - intros Ha. rewrite U2, (proj2 U1 Ha). reflexivity.
  - intros Hx Hb. rewrite U7, U3, U6, (proj2 U4 Hx), (proj2 U5 Hb). reflexivity.
  - apply U8.
  - apply U8.
Qed.

(** C2 (amended): one call to [rand64] makes the old [s1] the new [s0] and
    returns [add64] of the new [s1] and the old [s1].  The shifts go the
    other way round than claimed: whenever [>>] brings no sign bit into the
    three shifted pairs, the new [s1] is [x ^ s1 ^ (x >> 17) ^ (s1 >> 26)]
    with [x = s0 ^ (s0 << 23)] on 64-bit integers; and the output is the
    64-bit sum of the new [s1] and the old [s1] exactly when the low halves
    add without a carry.  The three conditions are those under which each
    call of [shift64] is the 64-bit shift (lemmas [shift64_left_iff] and
    [shift64_right_iff]); no half is otherwise restricted. *)
Theorem rand64_xorshift128plus (a b : Z * Z) :
  exists n1 out,
    PRNG.rand64 (PRNG.mk (word a) (word b)) = Ok (PRNG.mk (word b) (word n1), out)
    /\ M64.add64 (word n1) (word b) = Ok out
    /\ (no_fill_left 23 (u64 a) = true ->
        no_fill_right 17 (x_of (u64 a)) = true ->
        no_fill_right 26 (u64 b) = true ->
        u64 n1 = newS1_of (u64 a) (u64 b))
    /\ (u64 out = (u64 n1 + u64 b) mod 2 ^ 64
        <-> u64 n1 mod 2 ^ 32 + u64 b mod 2 ^ 32 < 2 ^ 32).
Proof.
  destruct (rand64_trace a b) as (x & n1 & out & E & A & X & N & S).
  exists n1, out. split; [exact E | split; [exact A | split; [ | exact S] ] ].
  intros Ha Hx Hb. specialize (X Ha). rewrite <- X in Hx.
  unfold newS1_of. rewrite <- X. exact (N Hx Hb).
Qed.

Lemma rand64_xorshift128plus_witness :
  (no_fill_left 23 (u64 (2147483904, 0)) = true
   /\ no_fill_right 17 (x_of (u64 (2147483904, 0))) = true
   /\ no_fill_right 26 (u64 (0, 0)) = true)
  /\ exists n1 out,
       PRNG.rand64 (PRNG.mk (word (2147483904, 0)) (word (0, 0)))
       = Ok (PRNG.mk (word (0, 0)) (word n1), out)
       /\ u64 n1 = newS1_of (u64 (2147483904, 0)) (u64 (0, 0))
       /\ u64 out = (u64 n1 + u64 (0, 0)) mod 2 ^ 64.
Proof.
  assert (L : no_fill_left 23 (u64 (2147483904, 0)) = true) by reflexivity.
  assert (X : no_fill_right 17 (x_of (u64 (2147483904, 0))) = true) by reflexivity.
  assert (R : no_fill_right 26 (u64 (0, 0)) = true) by reflexivity.
  split; [exact (conj L (conj X R)) | ].
  destruct (rand64_xorshift128plus (2147483904, 0) (0, 0)) as (n1 & out & E & _ & N & S).
  exists n1, out. split; [exact E | ].
  split; [exact (N L X R) | ]. apply S.
  destruct (u64_halves n1) as [_ ->].
  pose proof (to_uint32_range (snd n1)) as W. change (u64 (0, 0) mod 2 ^ 32) with 0.
  clear - W. lia.
Defined.

(** ** PRNG.rand32 and PRNG.rand *)

(** On a generator whose two fields are pairs of numbers, [rand64] returns;
    the halves of its result are within [0, 2^32). *)
Lemma rand64_words (a b : Z * Z) :
  exists n1 out,
    PRNG.rand64 (PRNG.mk (word a) (word b)) = Ok (PRNG.mk (word b) (word n1), out)
    /\ wide out.
Proof.
  destruct (rand64_trace a b) as (_ & n1 & out & E & A & _).
  exists n1, out. split; [exact E | ].
  rewrite add64_words in A. injection A as <-.
  split; cbn [fst snd]; apply to_uint32_range.
Qed.

(** [rand32] and [rand] on such a generator: the draw and its quotient. *)
Lemma rand_words (a b : Z * Z) :
  exists n1 n,
    PRNG.rand32 (PRNG.mk (word a) (word b)) = Ok (PRNG.mk (word b) (word n1), n)
    /\ PRNG.rand (PRNG.mk (word a) (word b))
       = Ok (PRNG.mk (word b) (word n1), Qmake n 4294967295)
    /\ 0 <= n < 2 ^ 32.
Proof.
  destruct (rand64_words a b) as (n1 & out & E & [W _]).
  exists n1, (fst out).
  unfold PRNG.rand, PRNG.rand32. rewrite E. cbn [bind].
  split; [reflexivity | split; [reflexivity | exact W] ].
Qed.

(** C9, as stated, fails: from [s0 = [0, 0]], [s1 = [0xFFFFFFFF, 0]] the draw
    is 0xFFFFFFFF and [rand] returns exactly 1. *)
Lemma rand_reaches_one :
  ~ (forall a b p' q, wide a -> wide b ->
       PRNG.rand (PRNG.mk (word a) (word b)) = Ok (p', q) -> (0 <= q < 1)%Q).
Proof.
  intros H.
  assert (W0 : wide (0, 0)) by (unfold wide, is_u32; cbn; lia).
  assert (W1 : wide (4294967295, 0)) by (unfold wide, is_u32; cbn; lia).
  destruct (H (0, 0) (4294967295, 0) _ _ W0 W1 eq_refl) as [_ L].
  revert L. vm_compute. discriminate.
Qed.

(** C9 (amended): [rand] returns [rand32() / 0xFFFFFFFF]; the draw lies in
    [0, 0xFFFFFFFF], so the quotient lies in the closed interval [0, 1], and
    it is 1 exactly when the draw is 0xFFFFFFFF. *)
Theorem rand_unit_interval_closed (a b : Z * Z) :
  exists p' n,
    PRNG.rand32 (PRNG.mk (word a) (word b)) = Ok (p', n)
    /\ PRNG.rand (PRNG.mk (word a) (word b)) = Ok (p', Qmake n 4294967295)
    /\ 0 <= n <= PRNG.max32
    /\ (0 <= Qmake n 4294967295 <= 1)%Q
    /\ ((Qmake n 4294967295 == 1)%Q <-> n = PRNG.max32).
Proof.
  destruct (rand_words a b) as (n1 & n & E32 & E & W).
  exists (PRNG.mk (word b) (word n1)), n.
  split; [exact E32 | split; [exact E | ] ].
  unfold PRNG.max32, Qle, Qeq. cbn [Qnum Qden].
  pow2. repeat split; lia.
Qed.

(** ** Maze.isEdge *)

(** C10: the default wall predicate built by [Maze.isEdge(X, Y)] holds
    exactly at the cells with [x <= 0], [x >= X - 1], [y <= 0] or
    [y >= Y - 1]; it therefore holds everywhere outside the bounds and on the
    whole one-cell border ring inside them. *)
Theorem isEdge_border_ring (X Y : Z) (HX : 0 < X) (HY : 0 < Y) :
  (forall x y, Maze.isEdge X Y x y = true <->
               (x <= 0 \/ x >= X - 1 \/ y <= 0 \/ y >= Y - 1))
  /\ (forall x y, ~ (0 <= x < X /\ 0 <= y < Y) -> Maze.isEdge X Y x y = true)
  /\ (forall x y, 0 <= x < X -> 0 <= y < Y ->
                  x = 0 \/ x = X - 1 \/ y = 0 \/ y = Y - 1 ->
                  Maze.isEdge X Y x y = true).
Proof.
  assert (E : forall x y, Maze.isEdge X Y x y = true <->
                          (x <= 0 \/ x >= X - 1 \/ y <= 0 \/ y >= Y - 1)).
  { intros x y. unfold Maze.isEdge.
    rewrite !orb_true_iff, !Z.leb_le. lia. }
  split; [exact E | split].
  - intros x y Hout. apply E. lia.
  - intros x y _ _ Hring. apply E. lia.
Qed.

Lemma isEdge_border_ring_witness :
  (0 < 3 /\ 0 < 3) /\
  (Maze.isEdge 3 3 0 1 = true /\ Maze.isEdge 3 3 2 1 = true /\
   Maze.isEdge 3 3 5 1 = true).
Proof.
  split; [lia | ].
  destruct (isEdge_border_ring 3 3 ltac:(lia) ltac:(lia)) as [E _].
  repeat split; apply E; lia.
Defined.

(** ** Numbers that are not integers *)

Lemma iter_pos_inv {A} (P : A -> Prop) (f : A -> A) :
  (forall x, P x -> P (f x)) -> forall p x, P x -> P (iter_pos f p x).
Proof.
  intros H. induction p as [p IH | p IH | ]; intros x Hx; cbn [iter_pos].
  - apply IH, IH, H, Hx.
  - apply IH, IH, Hx.
  - apply H, Hx.
Qed.

Lemma shr_1_nonneg (mrs : shr_record) : 0 <= shr_m mrs -> 0 <= shr_m (shr_1 mrs).
Proof.
  destruct mrs as [m r s]. cbn [shr_m shr_1].
  destruct m as [ | [p | p | ] | p]; cbn [shr_m]; lia.
Qed.

Lemma shr_fexp_nonneg (m e : Z) (l : location) :
  0 <= m -> 0 <= shr_m (fst (shr_fexp 53 1024 m e l)).
Proof.
  intros H. unfold shr_fexp, SpecFloat.shr.
  assert (R : 0 <= shr_m (shr_record_of_loc m l)).
  { destruct l as [ | [ | | ] ]; exact H. }
  destruct (fexp 53 1024 (Zdigits2 m + e) - e) as [ | p | p]; cbn [fst];
    [exact R | | exact R].
  apply (iter_pos_inv (fun r => 0 <= shr_m r)); [apply shr_1_nonneg | exact R].
Qed.

Lemma round_nearest_even_nonneg (m : Z) (l : location) :
  0 <= m -> 0 <= round_nearest_even m l.
Proof.
  intros H. destruct l as [ | [ | | ] ]; cbn [round_nearest_even]; try lia.
  destruct (Z.even m); lia.
Qed.

(** Rounding a mantissa that is not negative gives no NaN and keeps the
    sign. *)
Lemma binary_round_aux_sign (s : bool) (m e : Z) (l : location) :
  0 <= m ->
  is_nan (binary_round_aux 53 1024 s m e l) = false
  /\ sign_bit (binary_round_aux 53 1024 s m e l) = s.
Proof.
  intros H. unfold binary_round_aux.
  pose proof (shr_fexp_nonneg m e l H) as R1.
  destruct (shr_fexp 53 1024 m e l) as [mrs' e']. cbn [fst] in R1.
  pose proof (shr_fexp_nonneg
                (round_nearest_even (shr_m mrs') (loc_of_shr_record mrs')) e'
                loc_Exact (round_nearest_even_nonneg _ _ R1)) as R2.
  destruct (shr_fexp 53 1024 _ e' loc_Exact) as [mrs'' e'']. cbn [fst] in R2.
  destruct (shr_m mrs'') as [ | p | p]; [split; reflexivity | | lia].
  destruct (e'' <=? 1024 - 53); split; reflexivity.
Qed.

(** Rounding does not look at the sign. *)
Lemma binary_round_aux_opp (s : bool) (m e : Z) (l : location) :
  binary_round_aux 53 1024 (negb s) m e l
  = SFopp (binary_round_aux 53 1024 s m e l).
Proof.
  unfold binary_round_aux.
  destruct (shr_fexp 53 1024 m e l) as [mrs' e'].
  destruct (shr_fexp 53 1024 _ e' loc_Exact) as [mrs'' e''].
  destruct (shr_m mrs'') as [ | p | p]; [reflexivity | | reflexivity].
  destruct (e'' <=? 1024 - 53); reflexivity.
Qed.

(** [-a * b] is [-(a * b)]. *)
Lemma fmul_fneg (a b : number) : fmul (fneg a) b = fneg (fmul a b).
Proof.
  unfold fmul, fneg.
  destruct a as [sa | sa | | sa ma ea], b as [sb | sb | | sb mb eb];
    cbn [SFmul SFopp]; try reflexivity;
    try (destruct sa, sb; reflexivity).
  replace (xorb (negb sa) sb) with (negb (xorb sa sb)) by (destruct sa, sb; reflexivity).
  apply binary_round_aux_opp.
Qed.

(** An integer that is not negative is a number that is not negative. *)
Lemma number_of_int_nonneg (n : Z) :
  0 <= n -> is_nan (number_of_int n) = false /\ sign_bit (number_of_int n) = false.
Proof.
  intros H. unfold number_of_int, binary_normalize.
  destruct n as [ | p | p]; [split; reflexivity | | lia].
  unfold binary_round.
  destruct (shl_align p 0 (fexp 53 1024 (Z.pos (digits2_pos p) + 0))) as [mz ez].
  apply binary_round_aux_sign. lia.
Qed.

(** The double of a draw is a number that is not negative, and it is [+0]
    for the draw 0. *)
Lemma unit_draw_nonneg (n : Z) :
  0 <= n -> is_nan (unit_draw n) = false /\ sign_bit (unit_draw n) = false.
Proof.
  intros H. unfold unit_draw, PRNG.max32.
  destruct (number_of_int_nonneg n H) as [N S].
  assert (M : exists m e, number_of_int 4294967295 = S754_finite false m e)
    by (eexists; eexists; reflexivity).
  destruct M as (m & e & ->).
  unfold fdiv. destruct (number_of_int n) as [s | s | | s mx ex];
    cbn [is_nan sign_bit] in N, S; try discriminate N; subst s; cbn [SFdiv xorb].
  - split; reflexivity.
  - split; reflexivity.
  - unfold SFdiv_core_binary.
    set (s := (ex - e - _)%Z).
    set (m' := match s with Z.pos _ => Z.shiftl (Z.pos mx) s | 0 => Z.pos mx | Z.neg _ => 0 end).
    assert (P : 0 <= m').
    { unfold m'. destruct s; [lia | | lia]. apply Z.shiftl_nonneg. lia. }
    pose proof (Z.div_pos m' (Z.pos m) P ltac:(lia)) as Q.
    unfold Z.div in Q. destruct (Z.div_eucl m' (Z.pos m)) as [q r].
    apply binary_round_aux_sign. exact Q.
Qed.

Lemma unit_draw_zero : unit_draw 0 = S754_zero false.
Proof. reflexivity. Qed.

(** Comparisons by sign. *)
Lemma flt_neg_nonneg (p d : number) :
  is_nan p = false -> is_zero p = false -> sign_bit p = true ->
  is_nan d = false -> sign_bit d = false ->
  flt p d = true.
Proof.
  destruct p as [sp | sp | | sp mp ep], d as [sd | sd | | sd md ed];
    cbn [is_nan is_zero sign_bit]; intros; subst; try discriminate; reflexivity.
Qed.

Lemma flt_zero_nonneg (p d : number) :
  is_zero p = true -> is_nan d = false -> sign_bit d = false ->
  flt p d = negb (is_zero d).
Proof.
  destruct p as [sp | sp | | sp mp ep], d as [sd | sd | | sd md ed];
    cbn [is_nan is_zero sign_bit]; intros; subst; try discriminate; reflexivity.
Qed.

Lemma flt_nan_l (p d : number) : is_nan p = true -> flt p d = false.
Proof. destruct p; cbn [is_nan]; intros; try discriminate. reflexivity. Qed.

Lemma flt_nan_r (p d : number) : is_nan p = true -> flt d p = false.
Proof. destruct p, d; cbn [is_nan]; intros; try discriminate; reflexivity. Qed.

Lemma flt_nonneg_nonpos (d p : number) :
  is_nan d = false -> sign_bit d = false ->
  is_nan p = true \/ is_zero p = true \/ sign_bit p = true ->
  flt d p = false.
Proof.
  destruct p as [sp | sp | | sp mp ep], d as [sd | sd | | sd md ed];
    cbn [is_nan is_zero sign_bit]; intros N S [H | [H | H] ]; subst;
    try discriminate; reflexivity.
Qed.

(** The sign of a product. *)
Lemma fmul_sign (a b : number) :
  is_nan (fmul a b) = false -> sign_bit (fmul a b) = xorb (sign_bit a) (sign_bit b).
Proof.
  unfold fmul.
  destruct a as [sa | sa | | sa ma ea], b as [sb | sb | | sb mb eb];
    cbn [SFmul is_nan sign_bit]; try reflexivity; try discriminate.
  intros _. apply binary_round_aux_sign. lia.
Qed.

(** The number of binary digits of a positive mantissa. *)
Lemma digits2_pos_bounds (p : positive) :
  2 ^ (Z.pos (digits2_pos p) - 1) <= Z.pos p < 2 ^ Z.pos (digits2_pos p).
Proof.
  induction p as [p IH | p IH | ]; cbn [digits2_pos].
  - rewrite Pos2Z.inj_succ. replace (Z.succ (Z.pos (digits2_pos p)) - 1)
      with (Z.succ (Z.pos (digits2_pos p) - 1)) by lia.
    rewrite !Z.pow_succ_r by lia. lia.
  - rewrite Pos2Z.inj_succ. replace (Z.succ (Z.pos (digits2_pos p)) - 1)
      with (Z.succ (Z.pos (digits2_pos p) - 1)) by lia.
    rewrite !Z.pow_succ_r by lia. lia.
  - cbn. lia.
Qed.

Lemma digits2_pos_lower (p : positive) (k : Z) :
  0 <= k -> 2 ^ k <= Z.pos p -> k + 1 <= Z.pos (digits2_pos p).
Proof.
  intros Hk H. destruct (digits2_pos_bounds p) as [_ U].
  destruct (Z.lt_ge_cases k (Z.pos (digits2_pos p))) as [L | G]; [lia | ].
  pose proof (Z.pow_le_mono_r 2 (Z.pos (digits2_pos p)) k ltac:(lia) G). lia.
Qed.

Lemma digits2_pos_shift (p q : positive) :
  digits2_pos (Pos.iter xO p q) = (digits2_pos p + q)%positive.
Proof.
  induction q as [ | q IH] using Pos.peano_ind.
  - cbn. lia.
  - rewrite Pos.iter_succ. cbn [digits2_pos]. rewrite IH. lia.
Qed.

Lemma shr_1_half (mrs : shr_record) (c : Z) :
  2 * c <= shr_m mrs -> c <= shr_m (shr_1 mrs).
Proof.
  destruct mrs as [m r s]. cbn [shr_m shr_1].
  destruct m as [ | [p | p | ] | [p | p | ] ]; cbn [shr_m]; lia.
Qed.

(** Shifting a mantissa right by fewer places than it has digits leaves a
    mantissa other than 0. *)
Lemma iter_shr_1_lower (k : positive) :
  forall (mrs : shr_record) (c : Z),
    0 <= c -> 2 ^ Z.pos k * c <= shr_m mrs -> c <= shr_m (iter_pos shr_1 k mrs).
Proof.
  induction k as [k IH | k IH | ]; intros mrs c Hc H; cbn [iter_pos].
  - apply IH; [exact Hc | ]. apply IH; [nia | ]. apply shr_1_half.
    replace (Z.pos k~1) with (Z.pos k + Z.pos k + 1) in H by lia.
    rewrite !Z.pow_add_r in H by lia. change (2 ^ 1) with 2 in H.
    assert (0 < 2 ^ Z.pos k) by (apply Z.pow_pos_nonneg; lia). nia.
  - apply IH; [exact Hc | ]. apply IH; [nia | ].
    replace (Z.pos k~0) with (Z.pos k + Z.pos k) in H by lia.
    rewrite Z.pow_add_r in H by lia.
    assert (0 < 2 ^ Z.pos k) by (apply Z.pow_pos_nonneg; lia). nia.
  - apply shr_1_half. change (2 ^ 1) with 2 in H. exact H.
Qed.

Lemma shr_fexp_positive (m e : Z) (l : location) :
  1 <= m -> -1074 < Zdigits2 m + e ->
  1 <= shr_m (fst (shr_fexp 53 1024 m e l))
  /\ -1074 <= snd (shr_fexp 53 1024 m e l).
Proof.
  intros Hm He. unfold shr_fexp, SpecFloat.shr.
  assert (R : shr_m (shr_record_of_loc m l) = m).
  { destruct l as [ | [ | | ] ]; reflexivity. }
  destruct m as [ | p | p]; try lia. cbn [Zdigits2] in *.
  pose proof (digits2_pos_bounds p) as [B _].
  unfold fexp, emin.
  destruct (Z.max (Z.pos (digits2_pos p) + e - 53) (3 - 1024 - 53) - e)
    as [ | k | k] eqn:N; cbn [fst snd].
  - rewrite R. lia.
  - split; [ | lia].
    apply iter_shr_1_lower; [lia | ]. rewrite R, Z.mul_1_r.
    apply Z.le_trans with (2 := B). apply Z.pow_le_mono_r; lia.
  - rewrite R. lia.
Qed.

Lemma round_nearest_even_ge (m : Z) (l : location) : m <= round_nearest_even m l.
Proof.
  destruct l as [ | [ | | ] ]; cbn [round_nearest_even]; try lia.
  destruct (Z.even m); lia.
Qed.

(** Rounding a mantissa other than 0 that lies above the smallest double
    does not give 0. *)
Lemma binary_round_aux_nonzero (s : bool) (m e : Z) (l : location) :
  1 <= m -> -1074 < Zdigits2 m + e ->
  is_zero (binary_round_aux 53 1024 s m e l) = false.
Proof.
  intros Hm He. unfold binary_round_aux.
  destruct (shr_fexp_positive m e l Hm He) as [P1 E1].
  destruct (shr_fexp 53 1024 m e l) as [mrs' e']. cbn [fst snd] in P1, E1.
  pose proof (round_nearest_even_ge (shr_m mrs') (loc_of_shr_record mrs')) as G.
  set (m2 := round_nearest_even (shr_m mrs') (loc_of_shr_record mrs')) in *.
  assert (D2 : 1 <= Zdigits2 m2).
  { destruct m2 as [ | p | p]; try lia. cbn [Zdigits2]. lia. }
  destruct (shr_fexp_positive m2 e' loc_Exact ltac:(lia) ltac:(lia)) as [P2 _].
  destruct (shr_fexp 53 1024 m2 e' loc_Exact) as [mrs'' e'']. cbn [fst] in P2.
  destruct (shr_m mrs'') as [ | p | p]; try lia.
  destruct (e'' <=? 1024 - 53); reflexivity.
Qed.

(** A positive integer below 2^53 is the double made of its digits, shifted
    to fill 53 places. *)
Lemma number_of_int_shape (p : positive) :
  Z.pos (digits2_pos p) < 53 ->
  exists mx,
    number_of_int (Z.pos p)
    = S754_finite false mx (Z.pos (digits2_pos p) - 53)
    /\ Z.pos (digits2_pos mx) = 53.
Proof.
  intros H. unfold number_of_int, binary_normalize, binary_round.
  set (d := Z.pos (digits2_pos p)) in *.
  assert (F : fexp 53 1024 (d + 0) = d - 53) by (unfold fexp, emin; lia).
  rewrite F. unfold shl_align.
  destruct (d - 53 - 0) as [ | k | k] eqn:K; try lia.
  exists (Pos.iter xO p k).
  assert (D : Z.pos (digits2_pos (Pos.iter xO p k)) = 53).
  { rewrite digits2_pos_shift, Pos2Z.inj_add. fold d. lia. }
  split; [ | exact D].
  unfold binary_round_aux, shr_fexp. cbn [Zdigits2]. rewrite D.
  assert (F' : fexp 53 1024 (53 + (d - 53)) - (d - 53) = 0)
    by (unfold fexp, emin; lia).
  rewrite F'. cbn [SpecFloat.shr shr_record_of_loc loc_of_shr_record shr_m
                   round_nearest_even Zdigits2].
  rewrite D, F'. cbn [SpecFloat.shr shr_m].
  destruct (Z.leb_spec (d - 53) (1024 - 53)); [reflexivity | lia].
Qed.

(** The double of a draw is 0 only for the draw 0. *)
Lemma unit_draw_zero_iff (n : Z) :
  0 <= n < 2 ^ 32 -> (is_zero (unit_draw n) = true <-> n = 0).
Proof.
  intros W. split; [ | intros ->; reflexivity].
  intros Z. destruct n as [ | p | p]; [reflexivity | exfalso | lia].
  assert (Dp : Z.pos (digits2_pos p) <= 32).
  { destruct (Z.le_gt_cases (Z.pos (digits2_pos p)) 32) as [L | G]; [exact L | ].
    destruct (digits2_pos_bounds p) as [B _].
    pose proof (Z.pow_le_mono_r 2 32 (Z.pos (digits2_pos p) - 1) ltac:(lia) ltac:(lia)).
    lia. }
  destruct (number_of_int_shape p ltac:(lia)) as (mx & Sx & Dx).
  unfold unit_draw in Z. rewrite Sx in Z.
  change (number_of_int PRNG.max32)
    with (S754_finite false 9007199252643840 (-21)) in Z.
  unfold fdiv in Z. cbn [SFdiv xorb] in Z.
  unfold SFdiv_core_binary in Z. cbn [Zdigits2] in Z. rewrite Dx in Z.
  change (Z.pos (digits2_pos 9007199252643840)) with 53 in Z.
  set (d := Z.pos (digits2_pos p)) in *.
  assert (E' : Z.min (fexp 53 1024 (53 + (d - 53) - (53 + -21))) (d - 53 - -21)
               = d - 85) by (unfold fexp, emin; lia).
  rewrite E' in Z.
  replace (d - 53 - -21 - (d - 85)) with 53 in Z by lia.
  cbv iota in Z.
  pose proof (digits2_pos_bounds mx) as [Bx _]. rewrite Dx in Bx.
  rewrite Z.shiftl_mul_pow2 in Z by lia.
  assert (Q : 2 ^ 52 <= Z.pos mx * 2 ^ 53 / 9007199252643840).
  { apply Z.div_le_lower_bound; [lia | ].
    change (53 - 1) with 52 in Bx.
    change (2 ^ 52) with 4503599627370496 in *.
    change (2 ^ 53) with 9007199254740992. lia. }
  unfold Z.div in Q.
  destruct (Z.div_eucl (Z.pos mx * 2 ^ 53) 9007199252643840) as [q r].
  assert (Qp : 1 <= q) by (change (2 ^ 52) with 4503599627370496 in Q; lia).
  rewrite binary_round_aux_nonzero in Z; [discriminate Z | exact Qp | ].
  destruct q as [ | q | q]; try lia. cbn [Zdigits2].
  pose proof (digits2_pos_lower q 52 ltac:(lia) Q). lia.
Qed.

(** ** Maze.loss *)

(** A draw from a generator whose fields are pairs of numbers succeeds and
    leaves such a generator; [rand()] is the double of the draw. *)
Lemma rng_rand_words (a b : Z * Z) :
  exists n1 n,
    PRNG.rand32 (PRNG.mk (word a) (word b)) = Ok (PRNG.mk (word b) (word n1), n)
    /\ Maze.rng_rand (Maze.Generator (PRNG.mk (word a) (word b)))
       = Ok (Maze.Generator (PRNG.mk (word b) (word n1)), unit_draw n)
    /\ 0 <= n < 2 ^ 32.
Proof.
  destruct (rand_words a b) as (n1 & n & E & _ & W).
  exists n1, n. split; [exact E | split; [ | exact W] ].
  unfold Maze.rng_rand, PRNG.rand_double. rewrite E. reflexivity.
Qed.

(** What the iteratee makes of a cell, for the draw it takes. *)
Lemma loss_cell_outcome (rate : number) (factor : Z -> Z -> number) (a b : Z * Z)
  (x y : Z) (v : bool) :
  exists n1 n,
    PRNG.rand32 (PRNG.mk (word a) (word b)) = Ok (PRNG.mk (word b) (word n1), n)
    /\ 0 <= n < 2 ^ 32
    /\ Maze.loss_cell rate factor (Maze.Generator (PRNG.mk (word a) (word b))) x y v
       = Ok (Maze.Generator (PRNG.mk (word b) (word n1)),
             loss_outcome rate (factor x y) n v).
Proof.
  destruct (rng_rand_words a b) as (n1 & n & E & R & W).
  exists n1, n. split; [exact E | split; [exact W | ] ].
  unfold Maze.loss_cell. rewrite R. reflexivity.
Qed.

Lemma draw32_at_next (k : nat) (p p' : PRNG.t) (n : Z) :
  PRNG.rand32 p = Ok (p', n) -> draw32_at (S k) p = draw32_at k p'.
Proof. intros E. cbn [draw32_at]. rewrite E. reflexivity. Qed.

Lemma draw32_at_first (p p' : PRNG.t) (n : Z) :
  PRNG.rand32 p = Ok (p', n) -> draw32_at 0 p = Ok n.
Proof. intros E. cbn [draw32_at]. rewrite E. reflexivity. Qed.

(** A row: each cell is decided by its own draw, the draws taken from left
    to right. *)
Lemma loss_row_cells (rate : number) (factor : Z -> Z -> number) (row : list bool) :
  forall (a b : Z * Z) (x y : Z),
  exists a' b' row',
    Maze.loss_row rate factor (Maze.Generator (PRNG.mk (word a) (word b))) x y row
    = Ok (Maze.Generator (PRNG.mk (word a') (word b')), row')
    /\ (forall k, draw32_at (length row + k) (PRNG.mk (word a) (word b))
                  = draw32_at k (PRNG.mk (word a') (word b')))
    /\ length row' = length row
    /\ forall k v, nth_error row k = Some v ->
         exists n,
           draw32_at k (PRNG.mk (word a) (word b)) = Ok n
           /\ 0 <= n < 2 ^ 32
           /\ nth_error row' k
              = Some (loss_outcome rate (factor (x + Z.of_nat k) y) n v).
Proof.
  induction row as [ | value row IH]; intros a b x y.
  - exists a, b, []. split; [reflexivity | split; [reflexivity | split; [reflexivity | ] ] ].
    intros [ | k] v H; discriminate H.
  - destruct (loss_cell_outcome rate factor a b x y value) as (n1 & n & E & W & C).
    destruct (IH b n1 (x + 1) y) as (a' & b' & row' & E' & D & L & K).
    exists a', b', (loss_outcome rate (factor x y) n value :: row').
    split; [ | split; [ | split] ].
    + cbn [Maze.loss_row]. rewrite C. cbn [bind]. rewrite E'. reflexivity.
    + intros k. cbn [length Nat.add]. rewrite (draw32_at_next _ _ _ _ E). apply D.
    + cbn [length]. rewrite L. reflexivity.
    + intros [ | k] v H; cbn [nth_error] in *.
      * injection H as <-. exists n.
        split; [exact (draw32_at_first _ _ _ E) | split; [exact W | ] ].
        rewrite Z.add_0_r. reflexivity.
      * destruct (K k v H) as (n' & Dk & Wk & Ck).
        exists n'. rewrite (draw32_at_next _ _ _ _ E).
        split; [exact Dk | split; [exact Wk | ] ].
        rewrite Ck. replace (x + 1 + Z.of_nat k) with (x + Z.of_nat (S k)) by lia.
        reflexivity.
Qed.

Lemma position_next (row : list bool) (rows : list (list bool)) (x y : nat) :
  position (row :: rows) x (S y) = (length row + position rows x y)%nat.
Proof.
  unfold position. cbn [firstn concat]. rewrite length_app. lia.
Qed.

(** The grid: the draws go on from row to row. *)
Lemma loss_rows_cells (rate : number) (factor : Z -> Z -> number)
  (rows : list (list bool)) :
  forall (a b : Z * Z) (y0 : Z),
  exists a' b' rows',
    Maze.loss_rows rate factor (Maze.Generator (PRNG.mk (word a) (word b))) y0 rows
    = Ok (Maze.Generator (PRNG.mk (word a') (word b')), rows')
    /\ (forall k, draw32_at (length (concat rows) + k) (PRNG.mk (word a) (word b))
                  = draw32_at k (PRNG.mk (word a') (word b')))
    /\ map (@length bool) rows' = map (@length bool) rows
    /\ forall x y v, cell rows x y = Some v ->
         exists n,
           draw32_at (position rows x y) (PRNG.mk (word a) (word b)) = Ok n
           /\ 0 <= n < 2 ^ 32
           /\ cell rows' x y
              = Some (loss_outcome rate (factor (Z.of_nat x) (y0 + Z.of_nat y)) n v).
Proof.
  induction rows as [ | row rows IH]; intros a b y0.
  - exists a, b, []. split; [reflexivity | split; [reflexivity | split; [reflexivity | ] ] ].
    intros x [ | y] v H; discriminate H.
  - destruct (loss_row_cells rate factor row a b 0 y0)
      as (a1 & b1 & row1 & E1 & D1 & L1 & K1).
    destruct (IH a1 b1 (y0 + 1)) as (a' & b' & rows' & E' & D & L & K).
    exists a', b', (row1 :: rows').
    split; [ | split; [ | split] ].
    + cbn [Maze.loss_rows]. rewrite E1. cbn [bind]. rewrite E'. reflexivity.
    + intros k. cbn [concat]. rewrite length_app, <- Nat.add_assoc, D1. apply D.
    + cbn [map]. rewrite L1, L. reflexivity.
    + intros x [ | y] v H; unfold cell in *; cbn [nth_error] in *.
      * destruct (K1 x v H) as (n & Dn & Wn & Cn).
        exists n. unfold position. cbn [firstn concat length Nat.add].
        split; [exact Dn | split; [exact Wn | ] ].
        rewrite Cn, Z.add_0_l, Z.add_0_r. reflexivity.
      * destruct (K x y v H) as (n & Dn & Wn & Cn).
        exists n. rewrite position_next, D1.
        split; [exact Dn | split; [exact Wn | ] ].
        unfold cell in Cn. rewrite Cn.
        replace (y0 + 1 + Z.of_nat y) with (y0 + Z.of_nat (S y)) by lia.
        reflexivity.
Qed.

(** The pass as a whole. *)
Lemma loss_cells (m : Maze.t) (rate : number) (factor : Z -> Z -> number)
  (a b : Z * Z) :
  Maze.RNG m = Maze.Generator (PRNG.mk (word a) (word b)) ->
  exists m',
    Maze.loss rate factor m = Ok m'
    /\ map (@length bool) (Maze.data m') = map (@length bool) (Maze.data m)
    /\ forall x y v, cell (Maze.data m) x y = Some v ->
         exists n,
           draw32_at (position (Maze.data m) x y) (PRNG.mk (word a) (word b)) = Ok n
           /\ 0 <= n < 2 ^ 32
           /\ cell (Maze.data m') x y
              = Some (loss_outcome rate (factor (Z.of_nat x) (Z.of_nat y)) n v).
Proof.
  intros HG.
  destruct (loss_rows_cells rate factor (Maze.data m) a b 0)
    as (a' & b' & rows' & E & _ & L & K).
  eexists. unfold Maze.loss. rewrite HG, E. cbn [bind Maze.data].
  split; [reflexivity | split; [exact L | exact K] ].
Qed.

(** A positive rate times a weight that is not negative is NaN (infinity
    times 0), a zero (a weight of 0, or a product too small for a double),
    or a number above 0. *)
Lemma product_of_positive_rate (rate w : number) :
  flt (number_of_int 0) rate = true -> fle (number_of_int 0) w = true ->
  is_nan (fmul rate w) = true
  \/ is_zero (fmul rate w) = true
  \/ (is_nan (fmul rate w) = false /\ is_zero (fmul rate w) = false
      /\ sign_bit (fmul rate w) = false).
Proof.
  change (number_of_int 0) with (S754_zero false).
  intros Hr Hw.
  destruct (is_nan (fmul rate w)) eqn:N; [left; reflexivity | right].
  destruct (is_zero (fmul rate w)) eqn:Z; [left; reflexivity | right].
  split; [reflexivity | split; [reflexivity | ] ].
  rewrite (fmul_sign rate w N).
  destruct rate as [sr | sr | | sr mr er], w as [sw | sw | | sw mw ew];
    try discriminate Hr; try discriminate Hw; try discriminate N; try discriminate Z;
    destruct sr, sw; try discriminate Hr; try discriminate Hw; reflexivity.
Qed.

(** A rate of 0 or below times a weight that is not negative is NaN, a zero
    or a number below 0. *)
Lemma product_of_nonpositive_rate (rate w : number) :
  fle rate (number_of_int 0) = true -> fle (number_of_int 0) w = true ->
  is_nan (fmul rate w) = true \/ is_zero (fmul rate w) = true
  \/ sign_bit (fmul rate w) = true.
Proof.
  change (number_of_int 0) with (S754_zero false).
  intros Hr Hw.
  destruct (is_nan (fmul rate w)) eqn:N; [left; reflexivity | right].
  destruct (is_zero (fmul rate w)) eqn:Z; [left; reflexivity | right].
  rewrite (fmul_sign rate w N).
  destruct rate as [sr | sr | | sr mr er], w as [sw | sw | | sw mw ew];
    try discriminate Hr; try discriminate Hw; try discriminate N; try discriminate Z;
    destruct sr, sw; try discriminate Hr; try discriminate Hw; reflexivity.
Qed.

(** C7, as stated, fails: with [rate = 1] and weight 1 the closed cell of a
    one-cell grid is open after the pass (the draw 0 is below 1). *)
Lemma loss_opens_closed_cell :
  ~ (forall (m m' : Maze.t) (rate : number) (factor : Z -> Z -> number),
        flt (number_of_int 0) rate = true ->
        (forall x y, fle (number_of_int 0) (factor x y) = true) ->
        Maze.loss rate factor m = Ok m' ->
        forall x y, cell (Maze.data m) x y = Some false ->
                    cell (Maze.data m') x y = Some false).
Proof.
  intros H.
  set (g := Maze.Generator (PRNG.mk (word (0, 0)) (word (0, 0)))).
  set (m := Maze.mk 1 1 g (Maze.isEdge 1 1) [[false]]).
  set (m' := Maze.mk 1 1 g (Maze.isEdge 1 1) [[true]]).
  assert (E : Maze.loss (number_of_int 1) (fun _ _ => number_of_int 1) m = Ok m')
    by (vm_compute; reflexivity).
  assert (R : flt (number_of_int 0) (number_of_int 1) = true) by reflexivity.
  assert (F : forall x y : Z, fle (number_of_int 0) (number_of_int 1) = true)
    by (intros _ _; reflexivity).
  specialize (H m m' (number_of_int 1) (fun _ _ => number_of_int 1) R F E
                0%nat 0%nat eq_refl).
  discriminate H.
Qed.

(** C7 (amended): run on a maze whose generator holds two pairs of numbers,
    the loss pass returns a grid of the same shape, and decides every cell
    from the draw of its own, the draws taken row after row: a closed cell
    becomes open exactly when its draw is below [rate * factor(x, y)], an
    open cell stays open exactly when its draw is above
    [-rate * factor(x, y)], on doubles.  So for [rate > 0] and a weight that
    is not negative the pass only ever adds openings, but for one case: an
    open cell is closed exactly when the product [rate * factor(x, y)] is
    NaN, or is 0, as a double, and the draw is 0. *)
Theorem loss_never_closes (m : Maze.t) (rate : number) (factor : Z -> Z -> number)
  (a b : Z * Z) :
  Maze.RNG m = Maze.Generator (PRNG.mk (word a) (word b)) ->
  exists m',
    Maze.loss rate factor m = Ok m'
    /\ map (@length bool) (Maze.data m') = map (@length bool) (Maze.data m)
    /\ forall x y v, cell (Maze.data m) x y = Some v ->
         exists n,
           draw32_at (position (Maze.data m) x y) (PRNG.mk (word a) (word b)) = Ok n
           /\ 0 <= n < 2 ^ 32
           /\ cell (Maze.data m') x y
              = Some (if v
                      then flt (fmul (fneg rate) (factor (Z.of_nat x) (Z.of_nat y)))
                               (unit_draw n)
                      else flt (unit_draw n)
                               (fmul rate (factor (Z.of_nat x) (Z.of_nat y))))
           /\ (flt (number_of_int 0) rate = true ->
               fle (number_of_int 0) (factor (Z.of_nat x) (Z.of_nat y)) = true ->
               v = true ->
               (cell (Maze.data m') x y = Some false
                <-> is_nan (fmul rate (factor (Z.of_nat x) (Z.of_nat y))) = true
                    \/ (is_zero (fmul rate (factor (Z.of_nat x) (Z.of_nat y))) = true
                        /\ n = 0))).
Proof.
  intros HG.
  destruct (loss_cells m rate factor a b HG) as (m' & E & L & K).
  exists m'. split; [exact E | split; [exact L | ] ].
  intros x y v H. destruct (K x y v H) as (n & D & W & C).
  exists n. split; [exact D | split; [exact W | split; [exact C | ] ] ].
  intros Hr Hw ->. rewrite C. unfold loss_outcome.
  set (w := factor (Z.of_nat x) (Z.of_nat y)) in *.
  rewrite fmul_fneg.
  destruct (unit_draw_nonneg n ltac:(lia)) as [Nd Sd].
  pose proof (unit_draw_zero_iff n W) as Zd.
  destruct (product_of_positive_rate rate w Hr Hw) as [N | [Z | (N & Z & S)] ].
  - rewrite flt_nan_l by (destruct (fmul rate w); try discriminate N; reflexivity).
    split; [intros _; left; exact N | reflexivity].
  - assert (N : is_nan (fmul rate w) = false)
      by (destruct (fmul rate w); try discriminate Z; reflexivity).
    rewrite (flt_zero_nonneg (fneg (fmul rate w)) (unit_draw n))
      by (try assumption; destruct (fmul rate w); try discriminate Z; reflexivity).
    rewrite N. split.
    + intros F. right. split; [exact Z | ]. apply Zd.
      injection F as F. apply negb_false_iff in F. exact F.
    + intros [F | [_ F] ]; [discriminate F | ].
      apply Zd in F. rewrite F. reflexivity.
  - rewrite (flt_neg_nonneg (fneg (fmul rate w)) (unit_draw n))
      by (try assumption; destruct (fmul rate w) as [ | | | ]; cbn in *;
          try discriminate; subst; reflexivity).
    rewrite N, Z. split; [discriminate | intros [F | [F _] ]; discriminate F].
Qed.

Lemma loss_never_closes_witness :
  Maze.RNG (Maze.mk 2 1 (Maze.Generator (PRNG.mk (word (0, 0)) (word (0, 0))))
                    (Maze.isEdge 2 1) [[true; false]])
  = Maze.Generator (PRNG.mk (word (0, 0)) (word (0, 0)))
  /\ exists m',
       Maze.loss (number_of_int 1) (fun _ _ => number_of_int 1)
         (Maze.mk 2 1 (Maze.Generator (PRNG.mk (word (0, 0)) (word (0, 0))))
                  (Maze.isEdge 2 1) [[true; false]])
       = Ok m'
       /\ map (@length bool) (Maze.data m') = [2%nat].
Proof.
  split; [reflexivity | ].
  destruct (loss_never_closes
              (Maze.mk 2 1 (Maze.Generator (PRNG.mk (word (0, 0)) (word (0, 0))))
                       (Maze.isEdge 2 1) [[true; false]])
              (number_of_int 1) (fun _ _ => number_of_int 1) (0, 0) (0, 0) eq_refl)
    as (m' & E & L & _).
  exists m'. split; [exact E | exact L].
Defined.

(** The one case shown: with the weight 0, or with a rate and a weight whose
    product is too small for a double (2^-600 each), the test on an open
    cell is [rand() > -0], and the cell closes when the draw is 0. *)
Lemma loss_zero_product_closes_on_zero_draw :
  Maze.loss (number_of_int 1) (fun _ _ => number_of_int 0)
    (Maze.mk 1 1 (Maze.Generator (PRNG.mk (word (0, 0)) (word (0, 0))))
             (Maze.isEdge 1 1) [[true]])
  = Ok (Maze.mk 1 1 (Maze.Generator (PRNG.mk (word (0, 0)) (word (0, 0))))
                (Maze.isEdge 1 1) [[false]])
  /\ Maze.loss (S754_finite false 4503599627370496 (-652))
       (fun _ _ => S754_finite false 4503599627370496 (-652))
       (Maze.mk 1 1 (Maze.Generator (PRNG.mk (word (0, 0)) (word (0, 0))))
                (Maze.isEdge 1 1) [[true]])
     = Ok (Maze.mk 1 1 (Maze.Generator (PRNG.mk (word (0, 0)) (word (0, 0))))
                   (Maze.isEdge 1 1) [[false]]).
Proof. split; vm_compute; reflexivity. Qed.

(** ** Maze.split *)

(** [copy], when it is called, builds a generator with the same two fields. *)
Lemma copy_same_fields (p : PRNG.t) : PRNG.copy p = p.
Proof. destruct p. reflexivity. Qed.


(** What holds of every result of the iteratee holds of the mapped list. *)
Lemma mapM_Forall {A B} (f : A -> result B) (P : B -> Prop) (l : list A) :
  (forall a b, f a = Ok b -> P b) ->
  forall l', Maze.mapM f l = Ok l' -> Forall P l'.
Proof.
  intros Hf. induction l as [ | a l IH]; intros l'; cbn [Maze.mapM].
  - intros E. injection E as <-. constructor.
  - destruct (f a) as [b | | | ] eqn:Ea; cbn [bind]; try discriminate.
    destruct (Maze.mapM f l) as [bs | | | ] eqn:El; cbn [bind]; try discriminate.
    intros E. injection E as <-. constructor; [exact (Hf a b Ea) | exact (IH bs eq_refl)].
Qed.

(** A room gets as [RNG] the value of [this.RNG.copy]. *)
Lemma room_rng (parent c : Maze.t) (d : list (list bool)) :
  Maze.room parent d = Ok c -> Maze.RNG c = Maze.RNG_copy (Maze.RNG parent).
Proof.
  unfold Maze.room. destruct d as [ | row d]; [discriminate | ].
  intros E. injection E as <-. reflexivity.
Qed.

(** C8: the rooms [split] builds from a maze that owns a generator do not
    own a copy of it.  Their [RNG] field is the method [copy] itself, which
    was passed without being called; it has no state, and a draw on it
    throws a TypeError. *)
Theorem split_rooms_hold_copy_method (m : Maze.t) (divX divY : Z) (p : PRNG.t)
  (rooms : list (list Maze.t)) :
  Maze.RNG m = Maze.Generator p ->
  Maze.split m divX divY = Ok rooms ->
  Forall (Forall (fun c => Maze.RNG c = Maze.CopyMethod
                           /\ Maze.rng_rand32 (Maze.RNG c) = TypeError
                           /\ forall q, Maze.RNG c <> Maze.Generator q)) rooms.
Proof.
  intros HG. unfold Maze.split.
  destruct (Maze.cut divY (Maze.Y m) [Maze.data m]) as [bands | | | ];
    cbn [bind]; try discriminate.
  apply mapM_Forall. intros rect row.
  destruct (Maze.cut divX (Maze.X m) rect) as [blocks | | | ];
    cbn [bind]; try discriminate.
  apply mapM_Forall. intros d c E.
  apply room_rng in E. rewrite HG in E. cbn [Maze.RNG_copy] in E.
  rewrite E. split; [reflexivity | split; [reflexivity | discriminate] ].
Qed.

Lemma split_rooms_hold_copy_method_witness :
  exists rooms,
    Maze.split (Maze.mk 2 2 (Maze.Generator (PRNG.mk (word (0, 0)) (word (0, 1))))
                        (Maze.isEdge 2 2) [[true; false]; [false; true]]) 1 1
    = Ok rooms
    /\ map (map Maze.data) rooms = [[ [[true]]; [[false]] ]; [ [[false]]; [[true]] ]]
    /\ Forall (Forall (fun c => Maze.RNG c = Maze.CopyMethod
                                /\ Maze.rng_rand32 (Maze.RNG c) = TypeError
                                /\ forall q, Maze.RNG c <> Maze.Generator q)) rooms.
Proof.
  eexists. split; [vm_compute; reflexivity | ].
  split; [reflexivity | ].
  apply (split_rooms_hold_copy_method
           (Maze.mk 2 2 (Maze.Generator (PRNG.mk (word (0, 0)) (word (0, 1))))
                    (Maze.isEdge 2 2) [[true; false]; [false; true]])
           1 1 (PRNG.mk (word (0, 0)) (word (0, 1))));
    [reflexivity | vm_compute; reflexivity].
Defined.

(** * Further properties of the code *)

(** ** M64.mul32 and M64.imul32 *)

(** The two 16-bit halves [mul32] takes of a number. *)
Lemma halves16 (a : Z) :
  Z.land (to_int32 a) 65535 = a mod 65536
  /\ Z.land (Z.shiftr (to_int32 a) 16) 65535 = (a / 65536) mod 65536.
Proof.
  change 65535 with (Z.ones 16). rewrite !Z.land_ones, Z.shiftr_div_pow2 by lia.
  change (2 ^ 16) with 65536. unfold to_int32. pow2.
  split; Z.div_mod_to_equations; lia.
Qed.

Lemma to_uint32_shl16 (c : Z) : to_uint32 (shl c 16) = to_uint32 (c * 65536).
Proof.
  unfold shl. change (shcount 16) with 16.
  rewrite to_uint32_int32, Z.shiftl_mul_pow2 by lia. change (2 ^ 16) with 65536.
  unfold to_uint32, to_int32. pow2. Z.div_mod_to_equations. lia.
Qed.

(** X1: [imul32] is the multiplication modulo 2^32: for all integers [a]
    and [b] its result is congruent to [a * b]. *)
Theorem imul32_wraps (a b : Z) :
  to_uint32 (M64.imul32 (Num a) (Num b)) = (a * b) mod 2 ^ 32.
Proof.
  unfold M64.imul32, M64.mul32. cbn [snd ToInt32].
  destruct (halves16 a) as [Al Ah]. destruct (halves16 b) as [Bl Bh].
  rewrite Al, Ah, Bl, Bh.
  set (aH := (a / 65536) mod 65536). set (aL := a mod 65536).
  set (bH := (b / 65536) mod 65536). set (bL := b mod 65536).
  assert (S : forall x y, to_uint32 (x + y) = to_uint32 (x + to_uint32 y)).
  { intros x y. unfold to_uint32. rewrite Z.add_mod_idemp_r by discriminate. reflexivity. }
  rewrite S, to_uint32_shl16, <- S. unfold to_uint32.
  assert (A : a mod 2 ^ 32 = aH * 65536 + aL).
  { unfold aH, aL. pow2. Z.div_mod_to_equations. lia. }
  assert (B : b mod 2 ^ 32 = bH * 65536 + bL).
  { unfold bH, bL. pow2. Z.div_mod_to_equations. lia. }
  rewrite (Z.mul_mod a b), A, B by discriminate.
  replace ((aH * 65536 + aL) * (bH * 65536 + bL))
    with (aL * bL + (aH * bL + aL * bH) * 65536 + aH * bH * 2 ^ 32)
    by (change (2 ^ 32) with (65536 * 65536); ring).
  rewrite Z.mod_add by discriminate. reflexivity.
Qed.

(** What [c >> 16] and [c << 16] make of the cross term [c] of [mul32]:
    together they carry [c * 2^16] only when [c] is below 2^31 and its bit 15
    is clear. *)
Lemma cross_term_carried (c : Z) :
  0 <= c < 2 ^ 33 ->
  (sar c 16 * 2 ^ 32 + shl c 16 = c * 65536 <-> c < 2 ^ 31 /\ c mod 65536 < 32768).
Proof.
  intros Hc. unfold sar, shl. change (shcount 16) with 16.
  rewrite Z.shiftr_div_pow2, Z.shiftl_mul_pow2 by lia. change (2 ^ 16) with 65536.
  unfold to_int32. change (2 ^ 33) with 8589934592 in Hc. pow2.
  split; intros H; Z.div_mod_to_equations; lia.
Qed.

(** X2: on operands within [0, 2^32) the pair [mul32] returns stands for the
    exact product, [high * 2^32 + low = a * b], exactly when the cross term
    [aH * bL + aL * bH] is below 2^31 and has bit 15 clear. *)
Theorem mul32_exact_iff (a b : Z) :
  is_u32 a -> is_u32 b ->
  (fst (M64.mul32 (Num a) (Num b)) * 2 ^ 32 + snd (M64.mul32 (Num a) (Num b)) = a * b
   <-> (a / 65536) * (b mod 65536) + (a mod 65536) * (b / 65536) < 2 ^ 31
       /\ ((a / 65536) * (b mod 65536) + (a mod 65536) * (b / 65536)) mod 65536 < 32768).
Proof.
  unfold is_u32. intros Ha Hb.
  unfold M64.mul32. cbn [fst snd ToInt32].
  destruct (halves16 a) as [Al Ah]. destruct (halves16 b) as [Bl Bh].
  rewrite Al, Ah, Bl, Bh.
  assert (Ea : (a / 65536) mod 65536 = a / 65536).
  { pow2. Z.div_mod_to_equations. lia. }
  assert (Eb : (b / 65536) mod 65536 = b / 65536).
  { pow2. Z.div_mod_to_equations. lia. }
  rewrite Ea, Eb.
  assert (A : a = a / 65536 * 65536 + a mod 65536) by (Z.div_mod_to_equations; lia).
  assert (B : b = b / 65536 * 65536 + b mod 65536) by (Z.div_mod_to_equations; lia).
  assert (RaH : 0 <= a / 65536 <= 65535) by (pow2; Z.div_mod_to_equations; lia).
  assert (RbH : 0 <= b / 65536 <= 65535) by (pow2; Z.div_mod_to_equations; lia).
  assert (RaL : 0 <= a mod 65536 <= 65535) by (Z.div_mod_to_equations; lia).
  assert (RbL : 0 <= b mod 65536 <= 65535) by (Z.div_mod_to_equations; lia).
  revert A B RaH RbH RaL RbL.
  generalize (a / 65536) (a mod 65536) (b / 65536) (b mod 65536).
  intros aH aL bH bL A B RaH RbH RaL RbL.
  assert (Rc : 0 <= aH * bL + aL * bH < 2 ^ 33).
  { change (2 ^ 33) with 8589934592. nia. }
  rewrite <- (cross_term_carried _ Rc).
  rewrite A, B. change (2 ^ 32) with (65536 * 65536).
  generalize (sar (aH * bL + aL * bH) 16) (shl (aH * bL + aL * bH) 16). intros s t.
  split; intros H; nia.
Qed.

Lemma mul32_exact_iff_witness :
  (is_u32 3 /\ is_u32 5)
  /\ fst (M64.mul32 (Num 3) (Num 5)) * 2 ^ 32 + snd (M64.mul32 (Num 3) (Num 5)) = 3 * 5.
Proof.
  assert (A : is_u32 3) by (unfold is_u32; lia).
  assert (B : is_u32 5) by (unfold is_u32; lia).
  split; [exact (conj A B) | ].
  apply (mul32_exact_iff 3 5 A B). vm_compute. split; reflexivity.
Defined.

(** ** M64.add64, M64.xor64 and M64.divmod *)

(** X3: on halves within [0, 2^32), [add64] is the sum modulo 2^64 exactly
    when the low halves add without a carry. *)
Theorem add64_exact_iff_no_carry (a b : Z * Z) :
  wide a -> wide b ->
  exists out,
    M64.add64 (word a) (word b) = Ok out
    /\ (u64 out = (u64 a + u64 b) mod 2 ^ 64 <-> snd a + snd b < 2 ^ 32).
Proof.
  intros Wa Wb.
  destruct (add64_no_carry a b) as (out & E & Y).
  exists out. split; [exact E | ].
  destruct (u64_halves a) as [_ La]. destruct (u64_halves b) as [_ Lb].
  rewrite La, Lb in Y.
  rewrite (to_uint32_u32 (snd a)), (to_uint32_u32 (snd b)) in Y
    by (apply Wa || apply Wb).
  split; [ | exact Y].
  intros H. destruct (Z.lt_ge_cases (snd a + snd b) (2 ^ 32)) as [L | G]; [exact L | ].
  destruct (add64_wrong_on_carry a b Wa Wb G) as (out' & E' & N).
  rewrite E in E'. injection E' as <-. contradiction.
Qed.

Lemma add64_exact_iff_no_carry_witness :
  (wide (1, 2) /\ wide (3, 4))
  /\ exists out, M64.add64 (word (1, 2)) (word (3, 4)) = Ok out
                 /\ u64 out = (u64 (1, 2) + u64 (3, 4)) mod 2 ^ 64.
Proof.
  assert (A : wide (1, 2)) by (unfold wide, is_u32; cbn [fst snd]; lia).
  assert (B : wide (3, 4)) by (unfold wide, is_u32; cbn [fst snd]; lia).
  split; [exact (conj A B) | ].
  destruct (add64_exact_iff_no_carry (1, 2) (3, 4) A B) as (out & E & I).
  exists out. split; [exact E | ]. apply I. cbn [snd]. lia.
Defined.

(** X4: [xor64] is the xor of the two 64-bit numbers for every pair of
    halves, signed or not, and xoring the result again with the second
    operand gives back the number of the first. *)
Theorem xor64_exact (a b : Z * Z) :
  exists c,
    M64.xor64 (word a) (word b) = Ok c
    /\ u64 c = Z.lxor (u64 a) (u64 b)
    /\ exists c', M64.xor64 (word c) (word b) = Ok c' /\ u64 c' = u64 a.
Proof.
  destruct (xor64_words a b) as (c & E & U).
  destruct (xor64_words c b) as (c' & E' & U').
  exists c. split; [exact E | split; [exact U | ] ].
  exists c'. split; [exact E' | ].
  rewrite U', U, Z.lxor_assoc, Z.lxor_nilpotent, Z.lxor_0_r. reflexivity.
Qed.

(** X5: with a divisor other than 0, [divmod] returns a quotient and a
    remainder with [x = q * y + r] and [|r| < |y|]; the remainder has the
    sign of [x], so the pair is the floor quotient and the modulus only when
    [x] is not negative (for a positive [y]).  With the divisor 0 both
    results are NaN. *)
Theorem divmod_truncates (x y : Z) :
  M64.divmod x 0 = None
  /\ (y <> 0 ->
      exists q r,
        M64.divmod x y = Some (q, r)
        /\ x = q * y + r /\ Z.abs r < Z.abs y
        /\ (0 <= x -> 0 <= r) /\ (x <= 0 -> r <= 0)
        /\ (0 <= x -> 0 < y -> q = x / y /\ r = x mod y)).
Proof.
  split; [reflexivity | ]. intros Hy.
  unfold M64.divmod. destruct (Z.eqb_spec y 0) as [E | _]; [contradiction | ].
  exists ((x - Z.rem x y) / y), (Z.rem x y). split; [reflexivity | ].
  pose proof (Z.quot_rem' x y) as QR.
  assert (Q : (x - Z.rem x y) / y = Z.quot x y).
  { replace (x - Z.rem x y) with (Z.quot x y * y) by lia. apply Z.div_mul. exact Hy. }
  rewrite Q.
  pose proof (Z.rem_bound_abs x y Hy) as Bd.
  assert (Pos : 0 <= x -> 0 <= Z.rem x y).
  { intros Hx. apply Z.rem_nonneg; assumption. }
  assert (Neg : x <= 0 -> Z.rem x y <= 0).
  { intros Hx. pose proof (Z.rem_opp_l' x y) as O.
    pose proof (Z.rem_nonneg (- x) y Hy ltac:(lia)). lia. }
  split; [lia | ]. split; [exact Bd | ]. split; [exact Pos | ]. split; [exact Neg | ].
  intros Hx Hp. split.
  - apply Z.quot_div_nonneg; lia.
  - apply Z.rem_mod_nonneg; lia.
Qed.

Lemma divmod_truncates_witness :
  (3 <> 0)
  /\ exists q r, M64.divmod (-7) 3 = Some (q, r) /\ -7 = q * 3 + r /\ r <= 0.
Proof.
  assert (N : 3 <> 0) by discriminate.
  split; [exact N | ].
  destruct (divmod_truncates (-7) 3) as [_ H].
  destruct (H N) as (q & r & E & D & _ & _ & S & _).
  exists q, r. split; [exact E | split; [exact D | ] ]. apply S. lia.
Defined.

(** ** PRNG.pick and PRNG.select *)

Lemma last_cons {A} (l : list A) (a d : A) : last (a :: l) d = last l a.
Proof.
  revert a d. induction l as [ | b l IH]; intros a d; [reflexivity | ].
  change (last (a :: b :: l) d) with (last (b :: l) d).
  rewrite (IH b d), (IH b a). reflexivity.
Qed.

(** A non-empty array is what [pop] leaves followed by what it returns. *)
Lemma pop_split {A} (first : A) (rest : list A) :
  first :: rest = removelast (first :: rest) ++ [last rest first].
Proof.
  rewrite <- (last_cons rest first first).
  apply app_removelast_last. discriminate.
Qed.

(** Overwriting position [i] of [r] with [z] trades the element there for
    [z]. *)
Lemma set_at_perm {A} (r : list A) (z x : A) (i : nat) :
  nth_error r i = Some x ->
  nth_error (r ++ [z]) i = Some x
  /\ Permutation (r ++ [z]) (x :: PRNG.set_at r i z)
  /\ length (PRNG.set_at r i z) = length r.
Proof.
  intros H. destruct (nth_error_split r i H) as (l1 & l2 & -> & <-).
  split; [ | split].
  - rewrite <- app_assoc. rewrite nth_error_app2 by lia.
    rewrite Nat.sub_diag. reflexivity.
  - unfold PRNG.set_at.
    rewrite firstn_app, firstn_all, Nat.sub_diag, app_nil_r.
    replace (skipn (S (length l1)) (l1 ++ x :: l2)) with l2.
    + rewrite <- app_assoc. cbn [app].
      apply Permutation_trans with (l' := x :: l1 ++ l2 ++ [z]).
      * apply Permutation_sym, Permutation_middle.
      * apply perm_skip, Permutation_app_head.
        change (Permutation (l2 ++ [z]) ([z] ++ l2)). apply Permutation_app_comm.
    + change (l1 ++ x :: l2) with (l1 ++ [x] ++ l2). rewrite app_assoc.
      rewrite skipn_app.
      replace (length (l1 ++ [x])) with (S (length l1)) by (rewrite length_app; cbn; lia).
      rewrite Nat.sub_diag, skipn_all2 by (rewrite length_app; cbn; lia). reflexivity.
  - unfold PRNG.set_at.
    rewrite firstn_app, firstn_all, Nat.sub_diag, app_nil_r.
    rewrite !length_app. cbn [length firstn].
    rewrite length_skipn, length_app. cbn [length]. lia.
Qed.

(** One [pick] on a generator whose fields are pairs of numbers. *)
Lemma pick_words {A} (a b : Z * Z) (array : list A) :
  exists n1 n,
    PRNG.rand32 (PRNG.mk (word a) (word b)) = Ok (PRNG.mk (word b) (word n1), n)
    /\ 0 <= n
    /\ (array = [] ->
        PRNG.pick (PRNG.mk (word a) (word b)) array
        = Ok (PRNG.mk (word b) (word n1), None, []))
    /\ (array <> [] ->
        exists x array',
          PRNG.pick (PRNG.mk (word a) (word b)) array
          = Ok (PRNG.mk (word b) (word n1), Some x, array')
          /\ nth_error array (Z.to_nat (n mod Z.of_nat (length array))) = Some x
          /\ Permutation array (x :: array')
          /\ S (length array') = length array).
Proof.
  destruct (rand_words a b) as (n1 & n & E & _ & R).
  exists n1, n. split; [exact E | split; [lia | split] ].
  - intros ->. unfold PRNG.pick. rewrite E. reflexivity.
  - intros NE. destruct array as [ | first rest]; [contradiction | ].
    unfold PRNG.pick. rewrite E. cbn [bind].
    set (l := first :: rest) in *.
    assert (Len : 0 < Z.of_nat (length l)) by (unfold l; cbn [length]; lia).
    rewrite Z.rem_mod_nonneg by lia.
    pose proof (Z.mod_pos_bound n (Z.of_nat (length l)) Len) as Bi.
    set (i := n mod Z.of_nat (length l)) in *.
    pose proof (pop_split first rest) as Sp. fold l in Sp.
    set (r := removelast l) in *. set (z := last rest first) in *.
    assert (Lr : length l = S (length r)).
    { rewrite Sp, length_app. cbn [length]. lia. }
    destruct (Z.eqb_spec i (Z.of_nat (length l) - 1)) as [Last | NotLast].
    + exists z, r. split; [ | split; [ | split] ].
      * assert (P : nth_error l (Z.to_nat i) = Some z).
        { rewrite Sp, nth_error_app2 by lia.
          replace (Z.to_nat i - length r)%nat with 0%nat by lia. reflexivity. }
        rewrite P. reflexivity.
      * rewrite Sp, nth_error_app2 by lia.
        replace (Z.to_nat i - length r)%nat with 0%nat by lia. reflexivity.
      * rewrite Sp. change (z :: r) with ([z] ++ r). apply Permutation_app_comm.
      * lia.
    + assert (Hi : (Z.to_nat i < length r)%nat) by lia.
      destruct (nth_error r (Z.to_nat i)) as [x | ] eqn:Nx;
        [ | apply nth_error_None in Nx; lia ].
      destruct (set_at_perm r z x (Z.to_nat i) Nx) as (N & P & L).
      rewrite <- Sp in N, P.
      exists x, (PRNG.set_at r (Z.to_nat i) z). rewrite N.
      split; [reflexivity | split; [reflexivity | split; [exact P | lia] ] ].
Qed.

(** X6: on a generator whose fields are pairs of numbers, [pick] of a
    non-empty array returns the element at index [rand32() % length] and
    leaves the other elements, one fewer, in the array; [pick] of an empty
    array throws nothing: it draws, returns [undefined] and leaves the array
    empty. *)
Theorem pick_removes_one {A} (a b : Z * Z) (array : list A) :
  exists p' n,
    PRNG.rand32 (PRNG.mk (word a) (word b)) = Ok (p', n)
    /\ (array = [] -> PRNG.pick (PRNG.mk (word a) (word b)) array = Ok (p', None, []))
    /\ (array <> [] ->
        exists x array',
          PRNG.pick (PRNG.mk (word a) (word b)) array = Ok (p', Some x, array')
          /\ nth_error array (Z.to_nat (n mod Z.of_nat (length array))) = Some x
          /\ Permutation array (x :: array')
          /\ S (length array') = length array).
Proof.
  destruct (pick_words a b array) as (n1 & n & E & _ & H0 & H1).
  exists (PRNG.mk (word b) (word n1)), n. split; [exact E | split; assumption].
Qed.

Lemma pick_removes_one_witness :
  ([10; 20; 30] <> @nil Z)
  /\ exists p' x array',
       PRNG.pick (PRNG.mk (word (1, 2)) (word (3, 4))) [10; 20; 30]
       = Ok (p', Some x, array')
       /\ Permutation [10; 20; 30] (x :: array').
Proof.
  assert (N : [10; 20; 30] <> @nil Z) by discriminate.
  split; [exact N | ].
  destruct (pick_removes_one (1, 2) (3, 4) [10; 20; 30]) as (p' & n & _ & _ & H).
  destruct (H N) as (x & array' & E & _ & P & _).
  exists p', x, array'. split; [exact E | exact P].
Defined.

(** As many picks as the array has elements, from any such generator. *)
Lemma picks_words {A} (k : nat) :
  forall (a b : Z * Z) (array : list A),
    length array = k ->
    exists a' b' xs,
      picks k (PRNG.mk (word a) (word b)) array
      = Ok (PRNG.mk (word a') (word b'), xs, [])
      /\ Permutation array xs.
Proof.
  induction k as [ | k IH]; intros a b array L.
  - destruct array; [ | discriminate]. exists a, b, []. split; [reflexivity | constructor].
  - assert (NE : array <> []) by (destruct array; [discriminate | discriminate]).
    destruct (pick_words a b array) as (n1 & n & _ & _ & _ & H).
    destruct (H NE) as (x & array' & E & _ & P & Len).
    destruct (IH b n1 array' ltac:(lia)) as (a' & b' & xs & E' & P').
    exists a', b', (x :: xs). cbn [picks]. rewrite E. cbn [bind]. rewrite E'. cbn [bind].
    split; [reflexivity | ].
    apply (Permutation_trans P). apply perm_skip. exact P'.
Qed.

(** X7: as many calls of [pick] as the array has elements empty it, and the
    picked elements are the elements of the array, each once. *)
Theorem picks_exhaust {A} (a b : Z * Z) (array : list A) :
  exists p' xs,
    picks (length array) (PRNG.mk (word a) (word b)) array = Ok (p', xs, [])
    /\ Permutation array xs.
Proof.
  destruct (picks_words (length array) a b array eq_refl) as (a' & b' & xs & E & P).
  exists (PRNG.mk (word a') (word b')), xs. split; assumption.
Qed.

Lemma key_eqb_eq (k k' : list Z) : PRNG.key_eqb k k' = true <-> k = k'.
Proof.
  unfold PRNG.key_eqb. destruct (list_eq_dec Z.eq_dec k k'); split; congruence.
Qed.

Lemma delete_absent {V} (o : PRNG.object V) (k : list Z) :
  ~ In k (map fst o) -> PRNG.delete o k = o.
Proof.
  induction o as [ | [k0 v0] o IH]; intros N; [reflexivity | ].
  cbn [PRNG.delete filter fst].
  destruct (PRNG.key_eqb k k0) eqn:E.
  - apply key_eqb_eq in E. subst. exfalso. apply N. left. reflexivity.
  - cbn [negb]. f_equal. apply IH. intros H. apply N. right. exact H.
Qed.

Lemma delete_removes {V} (o : PRNG.object V) (k : list Z) :
  ~ In k (map fst (PRNG.delete o k)).
Proof.
  unfold PRNG.delete. intros H. apply in_map_iff in H. destruct H as ([k' v'] & <- & F).
  apply filter_In in F. destruct F as [_ F]. cbn [fst] in F.
  apply negb_true_iff in F. assert (T : PRNG.key_eqb k' k' = true) by (apply key_eqb_eq; reflexivity).
  congruence.
Qed.

(** With distinct keys, the binding of a key is what [object[key]] reads and
    what [delete] takes out. *)
Lemma get_delete {V} (o : PRNG.object V) (k : list Z) :
  NoDup (map fst o) -> In k (map fst o) ->
  exists v, PRNG.get o k = Some v /\ In (k, v) o
            /\ Permutation o ((k, v) :: PRNG.delete o k).
Proof.
  induction o as [ | [k0 v0] o IH]; intros ND H; [destruct H | ].
  cbn [map fst] in ND, H. inversion ND as [ | ? ? N0 ND']; subst.
  cbn [PRNG.get PRNG.delete filter fst].
  destruct (PRNG.key_eqb k k0) eqn:E.
  - apply key_eqb_eq in E. subst k0. cbn [negb].
    exists v0. split; [reflexivity | split; [left; reflexivity | ] ].
    fold (PRNG.delete o k). rewrite (delete_absent o k N0). apply Permutation_refl.
  - cbn [negb]. fold (PRNG.delete o k).
    destruct H as [H | H]; [subst; exfalso; rewrite (proj2 (key_eqb_eq k k) eq_refl) in E; discriminate | ].
    destruct (IH ND' H) as (v & G & I & P).
    exists v. split; [exact G | split; [right; exact I | ] ].
    apply Permutation_trans with (l' := (k0, v0) :: (k, v) :: PRNG.delete o k).
    + apply perm_skip. exact P.
    + apply perm_swap.
Qed.

(** X8: on a generator whose fields are pairs of numbers and an object with
    at least one property, [select] returns one of the object's bindings
    [[key, value]] and deletes exactly that binding, the others keeping
    their order; on an object without properties it throws nothing and
    returns [[undefined, undefined]]. *)
Theorem select_removes_binding {V} (a b : Z * Z) (o : PRNG.object V) :
  NoDup (map fst o) ->
  (o = [] ->
   exists p', PRNG.select (PRNG.mk (word a) (word b)) o = Ok (p', (None, None), []))
  /\ (o <> [] ->
      exists p' k v,
        PRNG.select (PRNG.mk (word a) (word b)) o
        = Ok (p', (Some k, Some v), PRNG.delete o k)
        /\ In (k, v) o
        /\ Permutation o ((k, v) :: PRNG.delete o k)
        /\ ~ In k (map fst (PRNG.delete o k))).
Proof.
  intros ND.
  destruct (pick_words a b (map fst o)) as (n1 & n & _ & _ & H0 & H1).
  split.
  - intros ->. eexists. unfold PRNG.select. rewrite (H0 eq_refl). reflexivity.
  - intros NE.
    assert (NK : map fst o <> []) by (destruct o; [contradiction | discriminate]).
    destruct (H1 NK) as (k & keys' & E & Nth & _ & _).
    apply nth_error_In in Nth.
    destruct (get_delete o k ND Nth) as (v & G & I & P).
    exists (PRNG.mk (word b) (word n1)), k, v.
    unfold PRNG.select. rewrite E. cbn [bind]. rewrite G.
    split; [reflexivity | split; [exact I | split; [exact P | apply delete_removes] ] ].
Qed.

Lemma select_removes_binding_witness :
  (NoDup (map fst [([97], 1); ([98], 2)]) /\ [([97], 1); ([98], 2)] <> @nil (list Z * Z))
  /\ exists p' k v,
       PRNG.select (PRNG.mk (word (1, 2)) (word (3, 4))) [([97], 1); ([98], 2)]
       = Ok (p', (Some k, Some v), PRNG.delete [([97], 1); ([98], 2)] k)
       /\ In (k, v) [([97], 1); ([98], 2)].
Proof.
  assert (ND : NoDup (map fst [([97], 1); ([98], 2)])).
  { cbn [map fst]. constructor.
    - intros [H | []]. discriminate H.
    - constructor; [intros [] | constructor]. }
  assert (NE : [([97], 1); ([98], 2)] <> @nil (list Z * Z)) by discriminate.
  split; [exact (conj ND NE) | ].
  destruct (select_removes_binding (1, 2) (3, 4) [([97], 1); ([98], 2)] ND) as [_ H].
  destruct (H NE) as (p' & k & v & E & I & _).
  exists p', k, v. split; [exact E | exact I].
Defined.

(** ** PRNG.randhex *)

Lemma hexdigit_value (d : Z) :
  0 <= d < 16 -> digit_value (PRNG.hexdigit d) = d /\ is_hex_digit (PRNG.hexdigit d).
Proof.
  intros H. unfold digit_value, PRNG.hexdigit, is_hex_digit.
  destruct (Z.ltb_spec d 10).
  - destruct (Z.ltb_spec (48 + d) 58); lia.
  - destruct (Z.ltb_spec (87 + d) 58); lia.
Qed.

(** The digits of a number with [k + 1] hexadecimal digits, last first. *)
Lemma to_hex_rev_digits (k : nat) :
  forall (fuel : nat) (n : Z),
    (k < fuel)%nat -> 16 ^ Z.of_nat k <= n < 16 ^ (Z.of_nat k + 1) ->
    PRNG.to_hex_rev fuel n
    = map (fun i => PRNG.hexdigit ((n / 16 ^ Z.of_nat i) mod 16)) (seq 0 (S k)).
Proof.
  induction k as [ | k IH]; intros fuel n Hf Hn.
  - destruct fuel as [ | fuel]; [lia | ]. cbn [PRNG.to_hex_rev seq map].
    change (16 ^ Z.of_nat 0) with 1 in *. change (16 ^ (Z.of_nat 0 + 1)) with 16 in Hn.
    rewrite Z.div_1_r.
    replace (n / 16) with 0 by (Z.div_mod_to_equations; lia). reflexivity.
  - destruct fuel as [ | fuel]; [lia | ].
    assert (P : 0 < 16 ^ Z.of_nat k) by (apply Z.pow_pos_nonneg; lia).
    assert (E1 : 16 ^ Z.of_nat (S k) = 16 * 16 ^ Z.of_nat k).
    { rewrite Nat2Z.inj_succ, Z.pow_succ_r by lia. reflexivity. }
    assert (E2 : 16 ^ (Z.of_nat (S k) + 1) = 16 * (16 * 16 ^ Z.of_nat k)).
    { rewrite Z.pow_add_r, E1 by lia. change (16 ^ 1) with 16. lia. }
    assert (E3 : 16 ^ (Z.of_nat k + 1) = 16 * 16 ^ Z.of_nat k).
    { rewrite Z.pow_add_r by lia. change (16 ^ 1) with 16. lia. }
    rewrite E1, E2 in Hn.
    assert (Hq : 16 ^ Z.of_nat k <= n / 16 < 16 ^ (Z.of_nat k + 1)).
    { rewrite E3. revert Hn P. generalize (16 ^ Z.of_nat k). intros q Hn P.
      Z.div_mod_to_equations. lia. }
    cbn [PRNG.to_hex_rev].
    destruct (Z.eqb_spec (n / 16) 0) as [Z0 | _]; [lia | ].
    rewrite (IH fuel (n / 16) ltac:(lia) Hq).
    change (seq 0 (S (S k))) with (0%nat :: seq 1 (S k)). cbn [map].
    change (16 ^ Z.of_nat 0) with 1. rewrite Z.div_1_r. f_equal.
    rewrite <- seq_shift, map_map. apply map_ext. intros i.
    rewrite Nat2Z.inj_succ, Z.pow_succ_r, Z.div_div by lia. reflexivity.
Qed.

(** [toHex] of a number within [0, 2^32): its eight hexadecimal digits. *)
Lemma toHex_u32 (n : Z) :
  is_u32 n ->
  PRNG.toHex n
  = map (fun i => PRNG.hexdigit ((n / 16 ^ i) mod 16)) [7; 6; 5; 4; 3; 2; 1; 0].
Proof.
  unfold is_u32. pow2. intros H. unfold PRNG.toHex, PRNG.toString16.
  destruct (Z.ltb_spec (4294967296 + n) 0) as [N | _]; [lia | ].
  assert (L : Z.log2 (4294967296 + n) = 32).
  { apply Z.log2_unique; [lia | ]. change (2 ^ 32) with 4294967296.
    change (2 ^ Z.succ 32) with 8589934592. lia. }
  rewrite L. change (S (Z.to_nat 32)) with 33%nat.
  rewrite (to_hex_rev_digits 8 33 (4294967296 + n)); [ | lia | ].
  - cbn [seq map List.rev List.app length Nat.sub skipn Z.of_nat Pos.of_succ_nat Pos.succ].
    change (16 ^ 0) with 1. change (16 ^ 1) with 16. change (16 ^ 2) with 256.
    change (16 ^ 3) with 4096. change (16 ^ 4) with 65536. change (16 ^ 5) with 1048576.
    change (16 ^ 6) with 16777216. change (16 ^ 7) with 268435456.
    repeat (f_equal; [f_equal; Z.div_mod_to_equations; lia | ]).
    do 2 f_equal. Z.div_mod_to_equations. lia.
  - change (16 ^ Z.of_nat 8) with 4294967296.
    change (16 ^ (Z.of_nat 8 + 1)) with 68719476736. lia.
Qed.

Lemma hex_value_app (s1 s2 : list Z) :
  hex_value (s1 ++ s2) = hex_value s1 * 16 ^ Z.of_nat (length s2) + hex_value s2.
Proof.
  unfold hex_value. rewrite fold_left_app. generalize (fold_left (fun acc c => acc * 16 + digit_value c) s1 0).
  induction s2 as [ | c s2 IH]; intros acc.
  - cbn [fold_left length Z.of_nat]. change (16 ^ 0) with 1. lia.
  - cbn [fold_left length]. rewrite IH, (IH (0 * 16 + digit_value c)).
    rewrite Nat2Z.inj_succ, Z.pow_succ_r by lia. ring.
Qed.

Lemma toHex_value (n : Z) :
  is_u32 n ->
  length (PRNG.toHex n) = 8%nat /\ Forall is_hex_digit (PRNG.toHex n)
  /\ hex_value (PRNG.toHex n) = n.
Proof.
  intros H. rewrite (toHex_u32 n H). unfold is_u32 in H. pow2.
  assert (D : forall i, 0 <= (n / 16 ^ i) mod 16 < 16).
  { intros i. apply Z.mod_pos_bound. lia. }
  split; [reflexivity | split].
  - cbn [map]. repeat (constructor; [apply hexdigit_value, D | ]). constructor.
  - unfold hex_value. cbn [map fold_left].
    rewrite !(proj1 (hexdigit_value _ (D _))).
    change (16 ^ 0) with 1. change (16 ^ 1) with 16. change (16 ^ 2) with 256.
    change (16 ^ 3) with 4096. change (16 ^ 4) with 65536. change (16 ^ 5) with 1048576.
    change (16 ^ 6) with 16777216. change (16 ^ 7) with 268435456.
    Z.div_mod_to_equations. lia.
Qed.

(** X9: on a generator whose fields are pairs of numbers, [randhex] returns
    sixteen lower-case hexadecimal digits, and the numeral they form is the
    64-bit number of the pair [rand64] returns, high half first. *)
Theorem randhex_renders_rand64 (a b : Z * Z) :
  exists p' out s,
    PRNG.rand64 (PRNG.mk (word a) (word b)) = Ok (p', out)
    /\ PRNG.randhex (PRNG.mk (word a) (word b)) = Ok (p', s)
    /\ length s = 16%nat
    /\ Forall is_hex_digit s
    /\ hex_value s = u64 out.
Proof.
  destruct (rand64_words a b) as (n1 & out & E & [Wh Wl]).
  destruct (toHex_value (fst out) Wh) as (Lh & Fh & Vh).
  destruct (toHex_value (snd out) Wl) as (Ll & Fl & Vl).
  exists (PRNG.mk (word b) (word n1)), out, (PRNG.toHex (fst out) ++ PRNG.toHex (snd out)).
  split; [exact E | split; [ | split; [ | split] ] ].
  - unfold PRNG.randhex. rewrite E. reflexivity.
  - rewrite length_app, Lh, Ll. reflexivity.
  - apply Forall_app. split; assumption.
  - rewrite hex_value_app, Vh, Vl, Ll. unfold u64.
    rewrite !to_uint32_u32 by assumption. reflexivity.
Qed.

(** ** Maze.look, Maze.count, Maze.trim and Maze.grow *)

Lemma index_nat {A} (l : list A) (i : nat) : Maze.index l (Z.of_nat i) = nth_error l i.
Proof.
  unfold Maze.index. destruct (Z.ltb_spec (Z.of_nat i) 0); [lia | ].
  rewrite Nat2Z.id. reflexivity.
Qed.

Lemma index_None {A} (l : list A) (i : Z) :
  Maze.index l i = None <-> i < 0 \/ Z.of_nat (length l) <= i.
Proof.
  unfold Maze.index. destruct (Z.ltb_spec i 0); [split; [left; lia | reflexivity] | ].
  rewrite nth_error_None. split; [right | intros [ | ] ]; lia.
Qed.

(** X10: on a maze whose wall predicate is the default [isEdge(X, Y)] and
    whose grid has [Y] rows of [X] cells, as the constructor builds it,
    [look] returns 0.3 exactly on the forced walls and the stored boolean of
    the cell everywhere else; it never returns [undefined]. *)
Theorem look_default_defined (m : Maze.t) (w h : nat) :
  Maze.X m = Z.of_nat w -> Maze.Y m = Z.of_nat h ->
  (forall x y, Maze.isWall m x y = Maze.isEdge (Maze.X m) (Maze.Y m) x y) ->
  rectangular (Maze.data m) w h ->
  forall x y,
    (Maze.isEdge (Maze.X m) (Maze.Y m) x y = true /\ Maze.look m x y = Maze.Weight03)
    \/ (Maze.isEdge (Maze.X m) (Maze.Y m) x y = false
        /\ exists b, Maze.look m x y = Maze.Cell b
                     /\ cell (Maze.data m) (Z.to_nat x) (Z.to_nat y) = Some b).
Proof.
  intros HX HY HW [Hh Hw] x y. unfold Maze.look. rewrite HW.
  destruct (Maze.isEdge (Maze.X m) (Maze.Y m) x y) eqn:E; [left; split; reflexivity | right].
  split; [reflexivity | ].
  unfold Maze.isEdge in E. rewrite !orb_false_iff, !Z.leb_gt in E.
  destruct E as [[[Ex1 Ex2] Ey1] Ey2]. rewrite HX in Ex2. rewrite HY in Ey2.
  rewrite <- (Z2Nat.id y), <- (Z2Nat.id x) by lia. rewrite index_nat.
  unfold cell.
  destruct (nth_error (Maze.data m) (Z.to_nat y)) as [row | ] eqn:R;
    [ | apply nth_error_None in R; lia ].
  rewrite index_nat.
  assert (Lr : length row = w).
  { rewrite Forall_forall in Hw. apply Hw. eapply nth_error_In. exact R. }
  destruct (nth_error row (Z.to_nat x)) as [b | ] eqn:C;
    [ | apply nth_error_None in C; lia ].
  exists b. split; [reflexivity | ]. rewrite !Nat2Z.id, R. exact C.
Qed.

Lemma look_default_defined_witness :
  rectangular [[false; false; false]; [false; true; false]; [false; false; false]] 3 3
  /\ Maze.look (Maze.mk 3 3 Maze.FromClock (Maze.isEdge 3 3)
                  [[false; false; false]; [false; true; false]; [false; false; false]])
               1 1
     = Maze.Cell true.
Proof.
  assert (R : rectangular
                [[false; false; false]; [false; true; false]; [false; false; false]] 3 3).
  { split; [reflexivity | repeat constructor]. }
  split; [exact R | ].
  destruct (look_default_defined
              (Maze.mk 3 3 Maze.FromClock (Maze.isEdge 3 3)
                 [[false; false; false]; [false; true; false]; [false; false; false]])
              3 3 eq_refl eq_refl (fun x y => eq_refl) R 1 1)
    as [[E _] | [_ (b & L & C)]]; [discriminate E | ].
  rewrite L. injection C as <-. reflexivity.
Defined.

Lemma mapi_length {A B} (f : Z -> A -> B) (l : list A) :
  forall i, length (Maze.mapi f i l) = length l.
Proof.
  induction l as [ | a l IH]; intros i; [reflexivity | ].
  cbn [Maze.mapi length]. rewrite IH. reflexivity.
Qed.

Lemma mapi_nth {A B} (f : Z -> A -> B) (l : list A) :
  forall i k, nth_error (Maze.mapi f i l) k
              = option_map (f (i + Z.of_nat k)) (nth_error l k).
Proof.
  induction l as [ | a l IH]; intros i k.
  - destruct k; reflexivity.
  - destruct k as [ | k]; cbn [Maze.mapi nth_error].
    + rewrite Z.add_0_r. reflexivity.
    + rewrite IH. replace (i + 1 + Z.of_nat k) with (i + Z.of_nat (S k)) by lia.
      reflexivity.
Qed.

(** A pass that maps every cell through [f x y] keeps the shape of the grid
    and acts cell by cell. *)
Lemma pass_cell (f : Z -> Z -> bool -> bool) (d : list (list bool)) (x y : nat) :
  cell (Maze.mapi (fun y row => Maze.mapi (fun x v => f x y v) 0 row) 0 d) x y
  = option_map (f (Z.of_nat x) (Z.of_nat y)) (cell d x y).
Proof.
  unfold cell. rewrite mapi_nth.
  destruct (nth_error d y) as [row | ]; [ | reflexivity].
  cbn [option_map]. rewrite mapi_nth. reflexivity.
Qed.

Lemma pass_shape_from (f : Z -> Z -> bool -> bool) (d : list (list bool)) :
  forall i,
    map (@length bool)
        (Maze.mapi (fun y row => Maze.mapi (fun x v => f x y v) 0 row) i d)
    = map (@length bool) d.
Proof.
  induction d as [ | row d IH]; intros i; [reflexivity | ].
  cbn [Maze.mapi map]. rewrite mapi_length, IH. reflexivity.
Qed.

Lemma pass_shape (f : Z -> Z -> bool -> bool) (d : list (list bool)) :
  map (@length bool)
      (Maze.mapi (fun y row => Maze.mapi (fun x v => f x y v) 0 row) 0 d)
  = map (@length bool) d.
Proof. apply pass_shape_from. Qed.

Lemma trim_round_cell (dudv : list (Z * Z)) (m : Maze.t) (x y : nat) :
  cell (Maze.data (Maze.trim_round dudv m)) x y
  = option_map (fun v : bool =>
      if v then Qle_bool 2 (Maze.count m (Z.of_nat x) (Z.of_nat y) dudv) else false)
      (cell (Maze.data m) x y).
Proof.
  unfold Maze.trim_round. cbn [Maze.data].
  apply (pass_cell (fun x y (v : bool) =>
           if v then Qle_bool 2 (Maze.count m x y dudv) else false)).
Qed.

Lemma grow_round_cell (dxdy : list (Z * Z)) (m : Maze.t) (x y : nat) :
  cell (Maze.data (Maze.grow_round dxdy m)) x y
  = option_map (fun v : bool =>
      if v then true
      else negb (Maze.isWall m (Z.of_nat x) (Z.of_nat y))
           && Qle_bool 4 (Maze.count m (Z.of_nat x) (Z.of_nat y) dxdy))
      (cell (Maze.data m) x y).
Proof.
  unfold Maze.grow_round. cbn [Maze.data].
  apply (pass_cell (fun x y (v : bool) =>
           if v then true
           else negb (Maze.isWall m x y) && Qle_bool 4 (Maze.count m x y dxdy))).
Qed.

(** X11: [trim] never opens a cell: after any number of rounds every open
    cell was open before.  It keeps the shape of the grid and leaves the
    generator and the wall predicate alone, and a negative round count runs
    as many rounds as its absolute value. *)
Theorem trim_never_opens (dudv : list (Z * Z)) (round : Z) (m : Maze.t) :
  (forall x y, cell (Maze.data (Maze.trim dudv round m)) x y = Some true ->
               cell (Maze.data m) x y = Some true)
  /\ map (@length bool) (Maze.data (Maze.trim dudv round m))
     = map (@length bool) (Maze.data m)
  /\ Maze.RNG (Maze.trim dudv round m) = Maze.RNG m
  /\ Maze.isWall (Maze.trim dudv round m) = Maze.isWall m
  /\ Maze.trim dudv (- round) m = Maze.trim dudv round m.
Proof.
  unfold Maze.trim, Maze.rounds. rewrite Z.abs_opp.
  generalize (Z.to_nat (Z.abs round)). intros n.
  split; [ | split; [ | split; [ | split; [ | reflexivity] ] ] ].
  - induction n as [ | n IH]; intros x y H; [exact H | ].
    rewrite Nat.iter_succ, trim_round_cell in H. apply IH.
    destruct (cell (Maze.data (Nat.iter n (Maze.trim_round dudv) m)) x y) as [[ | ] | ];
      [reflexivity | discriminate H | discriminate H].
  - induction n as [ | n IH]; [reflexivity | ].
    rewrite Nat.iter_succ, <- IH. unfold Maze.trim_round at 1. cbn [Maze.data].
    apply (pass_shape (fun x y (v : bool) => if v then _ else false)).
  - induction n as [ | n IH]; [reflexivity | ]. rewrite Nat.iter_succ. exact IH.
  - induction n as [ | n IH]; [reflexivity | ]. rewrite Nat.iter_succ. exact IH.
Qed.

(** X13: [grow] never closes a cell, and never opens a cell that is a
    forced wall: after any number of rounds every cell that was open is
    open, and a closed forced-wall cell is still closed.  The shape of the
    grid is kept. *)
Theorem grow_never_closes (dxdy : list (Z * Z)) (round : Z) (m : Maze.t) :
  (forall x y, cell (Maze.data m) x y = Some true ->
               cell (Maze.data (Maze.grow dxdy round m)) x y = Some true)
  /\ (forall x y, Maze.isWall m (Z.of_nat x) (Z.of_nat y) = true ->
                  cell (Maze.data m) x y = Some false ->
                  cell (Maze.data (Maze.grow dxdy round m)) x y = Some false)
  /\ map (@length bool) (Maze.data (Maze.grow dxdy round m))
     = map (@length bool) (Maze.data m).
Proof.
  unfold Maze.grow. generalize (Maze.rounds round). intros n.
  assert (W : forall k, Maze.isWall (Nat.iter k (Maze.grow_round dxdy) m) = Maze.isWall m).
  { induction k as [ | k IH]; [reflexivity | ]. rewrite Nat.iter_succ. exact IH. }
  split; [ | split].
  - induction n as [ | n IH]; intros x y H; [exact H | ].
    rewrite Nat.iter_succ, grow_round_cell, (IH x y H). reflexivity.
  - induction n as [ | n IH]; intros x y Hw H; [exact H | ].
    rewrite Nat.iter_succ, grow_round_cell, (IH x y Hw H), W, Hw. reflexivity.
  - induction n as [ | n IH]; [reflexivity | ].
    rewrite Nat.iter_succ, <- IH. unfold Maze.grow_round at 1. cbn [Maze.data].
    apply (pass_shape (fun x y (v : bool) => if v then true else _)).
Qed.

Lemma fold_sum {A} (f : A -> Q) (l : list A) :
  forall acc, (fold_left (fun acc b => acc + f b) l acc == acc + Maze.sumBy f l)%Q.
Proof.
  induction l as [ | b l IH]; intros acc.
  - cbn [fold_left Maze.sumBy]. ring.
  - cbn [fold_left Maze.sumBy]. rewrite (IH (acc + f b)%Q), (IH (f b)). ring.
Qed.

Lemma sumBy_cons {A} (f : A -> Q) (a : A) (l : list A) :
  (Maze.sumBy f (a :: l) == f a + Maze.sumBy f l)%Q.
Proof. cbn [Maze.sumBy]. apply fold_sum. Qed.

(** [count] is the number of open cells the table reaches plus three tenths
    of the number of forced walls it reaches. *)
Lemma count_weights (m : Maze.t) (x y : Z) (set : list (Z * Z)) :
  (Maze.count m x y set
   == Qmake (10 * opens m x y set + 3 * walls m x y set) 10)%Q
  /\ 0 <= opens m x y set /\ 0 <= walls m x y set
  /\ opens m x y set + walls m x y set <= Z.of_nat (length set).
Proof.
  unfold Maze.count, opens, walls.
  induction set as [ | d set (IH & Ho & Hw & Hl)].
  - cbn. split; [reflexivity | lia].
  - rewrite sumBy_cons, IH. cbn [filter length].
    destruct (Maze.look m (x + fst d) (y + snd d)) as [ | [ | ] | ]; cbn [Maze.weight length];
      (split; [unfold Qeq, Qplus; cbn [Qnum Qden]; lia | lia]).
Qed.

(** X12: with a table of at most four neighbours, one round of [trim]
    keeps an open cell exactly when at least two of the cells the table
    reaches are open cells: forced walls, at 0.3 each, never make up the
    difference. *)
Theorem trim_keeps_two_open (dudv : list (Z * Z)) (m : Maze.t) (x y : nat) :
  (length dudv <= 4)%nat ->
  (cell (Maze.data (Maze.trim dudv 1 m)) x y = Some true
   <-> cell (Maze.data m) x y = Some true
       /\ 2 <= opens m (Z.of_nat x) (Z.of_nat y) dudv).
Proof.
  intros L. change (Maze.trim dudv 1 m) with (Maze.trim_round dudv m).
  rewrite trim_round_cell.
  destruct (count_weights m (Z.of_nat x) (Z.of_nat y) dudv) as (C & Ho & Hw & Hl).
  assert (T : Qle_bool 2 (Maze.count m (Z.of_nat x) (Z.of_nat y) dudv) = true
              <-> 2 <= opens m (Z.of_nat x) (Z.of_nat y) dudv).
  { rewrite Qle_bool_iff, C. unfold Qle. cbn [Qnum Qden]. lia. }
  destruct (cell (Maze.data m) x y) as [[ | ] | ]; cbn [option_map].
  - rewrite <- T. split; [intros H; injection H as H; split; [reflexivity | exact H]
                         | intros [_ H]; rewrite H; reflexivity].
  - split; [discriminate | intros [H _]; discriminate H].
  - split; [discriminate | intros [H _]; discriminate H].
Qed.

Lemma trim_keeps_two_open_witness :
  Nat.le (length [(0, -1); (1, 0); (0, 1); (-1, 0)]) 4
  /\ cell (Maze.data
             (Maze.trim [(0, -1); (1, 0); (0, 1); (-1, 0)] 1
                (Maze.mk 3 3 Maze.FromClock (Maze.isEdge 3 3)
                   [[false; false; false]; [false; true; false]; [false; false; false]])))
          1 1
     <> Some true.
Proof.
  assert (L : Nat.le (length [(0, -1); (1, 0); (0, 1); (-1, 0)]) 4) by (cbn [length]; lia).
  split; [exact L | ].
  intros H.
  apply (trim_keeps_two_open [(0, -1); (1, 0); (0, 1); (-1, 0)] _ 1 1 L) in H.
  destruct H as [_ H]. vm_compute in H. apply H. reflexivity.
Defined.

(** X14: with a table of at most eight neighbours, one round of [grow]
    opens a closed cell exactly when the cell is no forced wall and either
    four of the cells the table reaches are open, or three are open and at
    least four are forced walls. *)
Theorem grow_opens_when (dxdy : list (Z * Z)) (m : Maze.t) (x y : nat) :
  (length dxdy <= 8)%nat ->
  cell (Maze.data m) x y = Some false ->
  (cell (Maze.data (Maze.grow dxdy 1 m)) x y = Some true
   <-> Maze.isWall m (Z.of_nat x) (Z.of_nat y) = false
       /\ (4 <= opens m (Z.of_nat x) (Z.of_nat y) dxdy
           \/ (opens m (Z.of_nat x) (Z.of_nat y) dxdy = 3
               /\ 4 <= walls m (Z.of_nat x) (Z.of_nat y) dxdy))).
Proof.
  intros L Hc. change (Maze.grow dxdy 1 m) with (Maze.grow_round dxdy m).
  rewrite grow_round_cell, Hc. cbn [option_map].
  destruct (count_weights m (Z.of_nat x) (Z.of_nat y) dxdy) as (C & Ho & Hw & Hl).
  assert (T : Qle_bool 4 (Maze.count m (Z.of_nat x) (Z.of_nat y) dxdy) = true
              <-> 4 <= opens m (Z.of_nat x) (Z.of_nat y) dxdy
                  \/ (opens m (Z.of_nat x) (Z.of_nat y) dxdy = 3
                      /\ 4 <= walls m (Z.of_nat x) (Z.of_nat y) dxdy)).
  { rewrite Qle_bool_iff, C. unfold Qle. cbn [Qnum Qden]. lia. }
  rewrite <- T.
  destruct (Maze.isWall m (Z.of_nat x) (Z.of_nat y)); cbn [negb andb].
  - split; [discriminate | intros [H _]; discriminate H].
  - split; [intros H; injection H as H; split; [reflexivity | exact H]
           | intros [_ H]; rewrite H; reflexivity].
Qed.

Lemma grow_opens_when_witness :
  Nat.le (length [(0, -1); (1, 0); (0, 1); (-1, 0)]) 8
  /\ cell [[false; true; false]; [true; false; true]; [false; true; false]] 1 1
     = Some false
  /\ cell (Maze.data
             (Maze.grow [(0, -1); (1, 0); (0, 1); (-1, 0)] 1
                (Maze.mk 3 3 Maze.FromClock (fun _ _ => false)
                   [[false; true; false]; [true; false; true]; [false; true; false]])))
          1 1
     = Some true.
Proof.
  assert (L : Nat.le (length [(0, -1); (1, 0); (0, 1); (-1, 0)]) 8) by (cbn [length]; lia).
  split; [exact L | split; [reflexivity | ] ].
  apply (grow_opens_when [(0, -1); (1, 0); (0, 1); (-1, 0)]
           (Maze.mk 3 3 Maze.FromClock (fun _ _ => false)
              [[false; true; false]; [true; false; true]; [false; true; false]])
           1 1 L eq_refl).
  split; [reflexivity | left; vm_compute; discriminate].
Defined.

(** ** Maze.loss: the other sign of the rate, and the draws it takes *)

(** X15: for [rate <= 0] and weights that are not negative, run on a maze
    whose generator holds two pairs of numbers, the loss pass returns a
    grid of the same shape in which every cell that was closed is still
    closed: with a rate of 0 or below it never opens a cell. *)
Theorem loss_never_opens (m : Maze.t) (rate : number) (factor : Z -> Z -> number)
  (a b : Z * Z) :
  fle rate (number_of_int 0) = true ->
  (forall x y, fle (number_of_int 0) (factor x y) = true) ->
  Maze.RNG m = Maze.Generator (PRNG.mk (word a) (word b)) ->
  exists m', Maze.loss rate factor m = Ok m'
    /\ map (@length bool) (Maze.data m') = map (@length bool) (Maze.data m)
    /\ forall x y, cell (Maze.data m) x y = Some false ->
                   cell (Maze.data m') x y = Some false.
Proof.
  intros Hr Hf HG.
  destruct (loss_cells m rate factor a b HG) as (m' & E & L & K).
  exists m'. split; [exact E | split; [exact L | ] ].
  intros x y H. destruct (K x y false H) as (n & _ & W & C).
  rewrite C. unfold loss_outcome. f_equal.
  destruct (unit_draw_nonneg n ltac:(lia)) as [Nd Sd].
  apply flt_nonneg_nonpos; [exact Nd | exact Sd | ].
  apply product_of_nonpositive_rate; [exact Hr | apply Hf].
Qed.

Lemma loss_never_opens_witness :
  fle (number_of_int 0) (number_of_int 0) = true
  /\ (forall x y : Z, fle (number_of_int 0) (number_of_int 1) = true)
  /\ exists m',
       Maze.loss (number_of_int 0) (fun _ _ => number_of_int 1)
         (Maze.mk 2 1 (Maze.Generator (PRNG.mk (word (0, 0)) (word (0, 1))))
                  (Maze.isEdge 2 1) [[true; false]])
       = Ok m'
       /\ cell (Maze.data m') 1 0 = Some false.
Proof.
  assert (R : fle (number_of_int 0) (number_of_int 0) = true) by reflexivity.
  assert (F : forall x y : Z, fle (number_of_int 0) (number_of_int 1) = true)
    by (intros _ _; reflexivity).
  split; [exact R | split; [exact F | ] ].
  destruct (loss_never_opens
              (Maze.mk 2 1 (Maze.Generator (PRNG.mk (word (0, 0)) (word (0, 1))))
                       (Maze.isEdge 2 1) [[true; false]])
              (number_of_int 0) (fun _ _ => number_of_int 1) (0, 0) (0, 1) R F eq_refl)
    as (m' & E & _ & K).
  exists m'. split; [exact E | ]. apply K. reflexivity.
Defined.

(** One cell of [loss] takes one [rand64] from the generator. *)
Lemma loss_cell_draw (rate : number) (factor : Z -> Z -> number) (p p' : PRNG.t)
  (out : Z * Z) (x y : Z) (value : bool) :
  PRNG.rand64 p = Ok (p', out) ->
  exists v, Maze.loss_cell rate factor (Maze.Generator p) x y value
            = Ok (Maze.Generator p', v).
Proof.
  intros E. unfold Maze.loss_cell, Maze.rng_rand, PRNG.rand_double, PRNG.rand32.
  rewrite E. cbn [bind]. eexists. reflexivity.
Qed.

Lemma loss_row_draws (rate : number) (factor : Z -> Z -> number) (row : list bool) :
  forall p p' x y,
    draws (length row) p = Ok p' ->
    exists row', Maze.loss_row rate factor (Maze.Generator p) x y row
                 = Ok (Maze.Generator p', row').
Proof.
  induction row as [ | value row IH]; intros p p' x y D.
  - injection D as <-. exists []. reflexivity.
  - cbn [length draws] in D.
    destruct (PRNG.rand64 p) as [[p1 out] | | | ] eqn:E; cbn [bind] in D; try discriminate.
    destruct (loss_cell_draw rate factor p p1 out x y value E) as (v & C).
    destruct (IH p1 p' (x + 1) y D) as (row' & R).
    exists (v :: row'). cbn [Maze.loss_row]. rewrite C. cbn [bind]. rewrite R. reflexivity.
Qed.

Lemma draws_add (n k : nat) :
  forall p, draws (n + k) p = (p1 <- draws n p ;; draws k p1).
Proof.
  induction n as [ | n IH]; intros p; [reflexivity | ].
  cbn [Nat.add draws]. destruct (PRNG.rand64 p) as [[p1 out] | | | ]; cbn [bind];
    [apply IH | reflexivity | reflexivity | reflexivity].
Qed.

Lemma loss_rows_draws (rate : number) (factor : Z -> Z -> number)
  (rows : list (list bool)) :
  forall p p' y,
    draws (length (concat rows)) p = Ok p' ->
    exists rows', Maze.loss_rows rate factor (Maze.Generator p) y rows
                  = Ok (Maze.Generator p', rows').
Proof.
  induction rows as [ | row rows IH]; intros p p' y D.
  - injection D as <-. exists []. reflexivity.
  - cbn [concat] in D. rewrite length_app, draws_add in D.
    destruct (draws (length row) p) as [p1 | | | ] eqn:D1; cbn [bind] in D; try discriminate.
    destruct (loss_row_draws rate factor row p p1 0 y D1) as (row' & R).
    destruct (IH p1 p' (y + 1) D) as (rows' & R').
    exists (row' :: rows'). cbn [Maze.loss_rows]. rewrite R. cbn [bind]. rewrite R'.
    reflexivity.
Qed.

Lemma draws_words (n : nat) :
  forall a b, exists a' b',
    draws n (PRNG.mk (word a) (word b)) = Ok (PRNG.mk (word a') (word b')).
Proof.
  induction n as [ | n IH]; intros a b.
  - exists a, b. reflexivity.
  - destruct (rand64_words a b) as (n1 & out & E & _).
    destruct (IH b n1) as (a' & b' & D).
    exists a', b'. cbn [draws]. rewrite E. cbn [bind]. exact D.
Qed.

(** X16: whatever the rate, the weights and the cells, the loss pass takes
    one [rand64] per stored cell: on a maze whose generator holds two pairs
    of numbers it returns, and the generator it leaves is the one that many
    calls of [rand64] leave. *)
Theorem loss_draws_once_per_cell (m : Maze.t) (rate : number)
  (factor : Z -> Z -> number) (a b : Z * Z) :
  Maze.RNG m = Maze.Generator (PRNG.mk (word a) (word b)) ->
  exists m' p',
    draws (length (concat (Maze.data m))) (PRNG.mk (word a) (word b)) = Ok p'
    /\ Maze.loss rate factor m = Ok m'
    /\ Maze.RNG m' = Maze.Generator p'.
Proof.
  intros HG.
  destruct (draws_words (length (concat (Maze.data m))) a b) as (a' & b' & D).
  destruct (loss_rows_draws rate factor (Maze.data m) _ _ 0 D) as (rows' & R).
  eexists. exists (PRNG.mk (word a') (word b')).
  split; [exact D | ]. unfold Maze.loss. rewrite HG, R. cbn [bind].
  split; reflexivity.
Qed.

Lemma loss_draws_once_per_cell_witness :
  exists m' p',
    draws 2 (PRNG.mk (word (0, 1)) (word (2, 3))) = Ok p'
    /\ Maze.loss (number_of_int 1) (fun _ _ => number_of_int 1)
         (Maze.mk 2 1 (Maze.Generator (PRNG.mk (word (0, 1)) (word (2, 3))))
                  (Maze.isEdge 2 1) [[true; false]])
       = Ok m'
    /\ Maze.RNG m' = Maze.Generator p'.
Proof.
  exact (loss_draws_once_per_cell
           (Maze.mk 2 1 (Maze.Generator (PRNG.mk (word (0, 1)) (word (2, 3))))
                    (Maze.isEdge 2 1) [[true; false]])
           (number_of_int 1) (fun _ _ => number_of_int 1) (0, 1) (2, 3) eq_refl).
Defined.

(** ** Maze.split: the tiling *)

Lemma range_exact (k : nat) (div : Z) :
  0 < div -> Maze.range (Z.of_nat k * div) div = Ok (map Z.of_nat (seq 0 k)).
Proof.
  intros Hd. unfold Maze.range.
  destruct (Z.eqb_spec div 0) as [E | _]; [lia | ].
  destruct k as [ | k].
  - cbn [Z.of_nat Z.mul]. destruct (Z.ltb_spec 0 (0 * div)); [lia | ].
    rewrite Z.div_0_l by lia. reflexivity.
  - destruct (Z.ltb_spec 0 (Z.of_nat (S k) * div * div)) as [_ | N]; [ | nia].
    replace (- (Z.of_nat (S k) * div)) with ((- Z.of_nat (S k)) * div) by ring.
    rewrite Z.div_mul by lia. rewrite Z.opp_involutive, Nat2Z.id. reflexivity.
Qed.

(** A slice between two bounds inside the list. *)
Lemma slice_block {A} (l : list A) (i d : nat) :
  (i * d + d <= length l)%nat ->
  Maze.slice l (Z.of_nat i * Z.of_nat d) ((Z.of_nat i + 1) * Z.of_nat d)
  = firstn d (skipn (i * d) l).
Proof.
  intros H. unfold Maze.slice.
  destruct (Z.ltb_spec (Z.of_nat i * Z.of_nat d) 0) as [N | _]; [nia | ].
  destruct (Z.ltb_spec (Z.of_nat (length l)) ((Z.of_nat i + 1) * Z.of_nat d)) as [N | _];
    [nia | ].
  destruct (Z.ltb_spec ((Z.of_nat i + 1) * Z.of_nat d) 0) as [N | _]; [nia | ].
  destruct (Z.ltb_spec ((Z.of_nat i + 1) * Z.of_nat d) (Z.of_nat i * Z.of_nat d))
    as [N | _]; [nia | ].
  replace ((Z.of_nat i + 1) * Z.of_nat d - Z.of_nat i * Z.of_nat d) with (Z.of_nat d)
    by ring.
  rewrite <- Nat2Z.inj_mul, !Nat2Z.id. reflexivity.
Qed.

(** [cut] of a rectangle whose rows hold [k] blocks of [d] cells. *)
Lemma cut_exact {A} (rect : list (list A)) (k d : nat) :
  (0 < d)%nat ->
  Forall (fun row => length row = (k * d)%nat) rect ->
  Maze.cut (Z.of_nat d) (Z.of_nat k * Z.of_nat d) rect
  = Ok (map (fun j => map (fun row => firstn d (skipn (j * d) row)) rect) (seq 0 k)).
Proof.
  intros Hd Hr. unfold Maze.cut, Maze.cuts.
  rewrite range_exact by lia. cbn [bind]. f_equal.
  rewrite !map_map. apply map_ext_in. intros j Hj. apply in_seq in Hj.
  apply map_ext_in. intros row Hrow.
  rewrite Forall_forall in Hr. specialize (Hr row Hrow).
  apply slice_block. nia.
Qed.

Lemma mapM_map {A B} (f : A -> result B) (g : A -> B) (l : list A) :
  (forall a, In a l -> f a = Ok (g a)) -> Maze.mapM f l = Ok (map g l).
Proof.
  induction l as [ | a l IH]; intros H; [reflexivity | ].
  cbn [Maze.mapM map]. rewrite (H a (or_introl eq_refl)). cbn [bind].
  rewrite IH by (intros a' Ha'; apply H; right; exact Ha'). reflexivity.
Qed.

Lemma block_nth {A} (l : list A) (i d k : nat) :
  (k < d)%nat -> nth_error (firstn d (skipn (i * d) l)) k = nth_error l (i * d + k).
Proof.
  intros H. rewrite nth_error_firstn.
  destruct (Nat.ltb_spec k d) as [_ | N]; [ | lia].
  rewrite nth_error_skipn. reflexivity.
Qed.

Lemma block_In {A} (l : list A) (n d : nat) (a : A) :
  In a (firstn d (skipn n l)) -> In a l.
Proof.
  intros H. apply In_nth_error in H. destruct H as (k & H).
  rewrite nth_error_firstn in H. destruct (Nat.ltb k d); [ | discriminate H].
  rewrite nth_error_skipn in H. eapply nth_error_In. exact H.
Qed.

(** The room [split] builds from a block with at least one row. *)
Lemma room_block (m : Maze.t) (block : list (list bool)) :
  block <> [] ->
  Maze.room m block
  = Ok (Maze.mk (Z.of_nat (length (hd [] block))) (Z.of_nat (length block))
                (Maze.RNG_copy (Maze.RNG m))
                (Maze.isEdge (Z.of_nat (length (hd [] block))) (Z.of_nat (length block)))
                block).
Proof. destruct block; [contradiction | reflexivity]. Qed.

(** X17: when the width is [kx] times [divX] and the height [ky] times
    [divY], and the grid has that many rows and columns, [split] returns
    [ky] rows of [kx] rooms; every room is [divX] wide and [divY] high, and
    the cell [(x, y)] of the room in row [i], column [j] is the cell
    [(j * divX + x, i * divY + y)] of the parent: put side by side, the
    rooms give the grid back. *)
Theorem split_tiles (m : Maze.t) (dx dy kx ky : nat) :
  (0 < dx)%nat -> (0 < dy)%nat ->
  Maze.X m = Z.of_nat kx * Z.of_nat dx -> Maze.Y m = Z.of_nat ky * Z.of_nat dy ->
  rectangular (Maze.data m) (kx * dx) (ky * dy) ->
  exists rooms,
    Maze.split m (Z.of_nat dx) (Z.of_nat dy) = Ok rooms
    /\ length rooms = ky
    /\ Forall (fun row => length row = kx) rooms
    /\ forall i j row room,
         nth_error rooms i = Some row -> nth_error row j = Some room ->
         Maze.X room = Z.of_nat dx /\ Maze.Y room = Z.of_nat dy
         /\ rectangular (Maze.data room) dx dy
         /\ forall x y, (x < dx)%nat -> (y < dy)%nat ->
              cell (Maze.data room) x y = cell (Maze.data m) (j * dx + x) (i * dy + y).
Proof.
  intros Hdx Hdy HX HY [Hh Hw].
  set (rect := fun i => firstn dy (skipn (i * dy) (Maze.data m))).
  set (block := fun i j => map (fun row => firstn dx (skipn (j * dx) row)) (rect i)).
  set (mk_room := fun i j =>
    Maze.mk (Z.of_nat (length (hd [] (block i j)))) (Z.of_nat (length (block i j)))
            (Maze.RNG_copy (Maze.RNG m))
            (Maze.isEdge (Z.of_nat (length (hd [] (block i j))))
                         (Z.of_nat (length (block i j))))
            (block i j)).
  assert (Lrect : forall i, (i < ky)%nat -> length (rect i) = dy).
  { intros i Hi. unfold rect. rewrite length_firstn, length_skipn, Hh. nia. }
  assert (Wrect : forall i, Forall (fun row => length row = (kx * dx)%nat) (rect i)).
  { intros i. unfold rect. rewrite Forall_forall in *. intros row Hr.
    apply Hw. eapply block_In. exact Hr. }
  assert (Lblock : forall i j, (i < ky)%nat -> length (block i j) = dy).
  { intros i j Hi. unfold block. rewrite length_map. apply Lrect. exact Hi. }
  assert (Wblock : forall i j, (j < kx)%nat ->
                     Forall (fun row => length row = dx) (block i j)).
  { intros i j Hj. unfold block. rewrite Forall_map.
    eapply Forall_impl; [ | apply (Wrect i)]. cbn beta. intros row Hr.
    rewrite length_firstn, length_skipn, Hr. nia. }
  exists (map (fun i => map (fun j => mk_room i j) (seq 0 kx)) (seq 0 ky)).
  split; [ | split; [ | split] ].
  - unfold Maze.split. rewrite HY.
    rewrite (cut_exact [Maze.data m] ky dy Hdy)
      by (constructor; [exact Hh | constructor]).
    cbn [bind]. rewrite map_map. cbn [map hd].
    rewrite (mapM_map _ (fun rect0 => map (fun j =>
               Maze.mk (Z.of_nat (length (hd [] (map (fun row => firstn dx (skipn (j * dx) row)) rect0))))
                       (Z.of_nat (length (map (fun row => firstn dx (skipn (j * dx) row)) rect0)))
                       (Maze.RNG_copy (Maze.RNG m))
                       (Maze.isEdge (Z.of_nat (length (hd [] (map (fun row => firstn dx (skipn (j * dx) row)) rect0))))
                                    (Z.of_nat (length (map (fun row => firstn dx (skipn (j * dx) row)) rect0))))
                       (map (fun row => firstn dx (skipn (j * dx) row)) rect0))
               (seq 0 kx))).
    + rewrite map_map. reflexivity.
    + intros rect0 Hin. apply in_map_iff in Hin. destruct Hin as (i & <- & Hi).
      apply in_seq in Hi. rewrite HX. fold (rect i).
      rewrite (cut_exact _ kx dx Hdx (Wrect i)). cbn [bind].
      rewrite (mapM_map _ (fun b =>
                 Maze.mk (Z.of_nat (length (hd [] b))) (Z.of_nat (length b))
                         (Maze.RNG_copy (Maze.RNG m))
                         (Maze.isEdge (Z.of_nat (length (hd [] b))) (Z.of_nat (length b)))
                         b)).
      * rewrite map_map. reflexivity.
      * intros b Hb. apply room_block. apply in_map_iff in Hb.
        destruct Hb as (j & <- & _). intros E.
        apply (f_equal (@length _)) in E. rewrite length_map in E.
        fold (rect i) in E. rewrite (Lrect i) in E by lia. cbn [length] in E. lia.
  - rewrite length_map, length_seq. reflexivity.
  - rewrite Forall_map, Forall_forall. intros i _. rewrite length_map, length_seq.
    reflexivity.
  - intros i j row room Hi Hj.
    rewrite nth_error_map, nth_error_seq in Hi.
    destruct (Nat.ltb_spec i ky) as [Ii | ]; [ | discriminate Hi].
    cbn [option_map Nat.add] in Hi. injection Hi as <-.
    rewrite nth_error_map, nth_error_seq in Hj.
    destruct (Nat.ltb_spec j kx) as [Ij | ]; [ | discriminate Hj].
    cbn [option_map Nat.add] in Hj. injection Hj as <-.
    unfold mk_room. cbn [Maze.X Maze.Y Maze.data].
    pose proof (Lblock i j Ii) as LB. pose proof (Wblock i j Ij) as WB.
    split; [ | split; [ | split] ].
    + destruct (block i j) as [ | r0 b0] eqn:EB; [cbn [length] in LB; lia | ].
      cbn [hd]. inversion WB as [ | ? ? Hr0 _]. rewrite Hr0. reflexivity.
    + rewrite LB. reflexivity.
    + split; assumption.
    + intros x y Hx Hy. unfold cell, block.
      rewrite nth_error_map. unfold rect. rewrite block_nth by exact Hy.
      destruct (nth_error (Maze.data m) (i * dy + y)) as [r | ]; [ | reflexivity].
      cbn [option_map]. apply block_nth. exact Hx.
Qed.

Lemma split_tiles_witness :
  ((0 < 1)%nat /\ rectangular [[true; false]; [false; true]] (2 * 1) (2 * 1))
  /\ exists rooms,
       Maze.split (Maze.mk 2 2 Maze.FromClock (Maze.isEdge 2 2)
                           [[true; false]; [false; true]]) 1 1
       = Ok rooms
       /\ length rooms = 2%nat.
Proof.
  assert (P : (0 < 1)%nat) by lia.
  assert (R : rectangular [[true; false]; [false; true]] (2 * 1) (2 * 1)).
  { split; [reflexivity | repeat constructor]. }
  split; [exact (conj P R) | ].
  destruct (split_tiles
              (Maze.mk 2 2 Maze.FromClock (Maze.isEdge 2 2) [[true; false]; [false; true]])
              1 1 2 2 P P eq_refl eq_refl R)
    as (rooms & E & L & _).
  exists rooms. split; [exact E | exact L].
Defined.

(** X18: [split] does not reject a divisor of 0: with a height other than 0
    and [divY = 0], or with a width other than 0, [divX = 0] and at least
    one band of rows, it throws a RangeError (the range of an infinite
    quotient); a maze of height 0 splits into no rooms whatever the
    divisors. *)
Theorem split_zero_divisor (m : Maze.t) (divX divY : Z) :
  (Maze.Y m <> 0 -> Maze.split m divX 0 = RangeError)
  /\ (Maze.X m <> 0 -> 0 < divY -> 0 < Maze.Y m -> Maze.split m 0 divY = RangeError)
  /\ (Maze.Y m = 0 -> Maze.split m divX divY = Ok []).
Proof.
  split; [ | split].
  - intros HY. unfold Maze.split, Maze.cut, Maze.cuts, Maze.range.
    cbn [Z.eqb]. destruct (Z.eqb_spec (Maze.Y m) 0); [contradiction | reflexivity].
  - intros HX Hd HY. unfold Maze.split, Maze.cut, Maze.cuts.
    unfold Maze.range at 1.
    destruct (Z.eqb_spec divY 0) as [E | _]; [lia | ].
    destruct (Z.ltb_spec 0 (Maze.Y m * divY)) as [_ | N]; [ | nia].
    assert (K : exists k, Z.to_nat (- (- Maze.Y m / divY)) = S k).
    { exists (Nat.pred (Z.to_nat (- (- Maze.Y m / divY)))).
      assert (- Maze.Y m / divY < 0) by (apply Z.div_lt_upper_bound; lia). lia. }
    destruct K as (k & ->). cbn [seq map bind Maze.mapM hd].
    unfold Maze.range. cbn [Z.eqb]. destruct (Z.eqb_spec (Maze.X m) 0); [contradiction | ].
    reflexivity.
  - intros HY. unfold Maze.split, Maze.cut, Maze.cuts, Maze.range. rewrite HY.
    destruct (Z.eqb_spec divY 0); [reflexivity | ].
    cbn [Z.mul Z.ltb Z.compare]. rewrite Z.div_0_l by assumption. reflexivity.
Qed.

Lemma split_zero_divisor_witness :
  (2 <> 0)
  /\ Maze.split (Maze.mk 2 2 Maze.FromClock (Maze.isEdge 2 2)
                         [[true; false]; [false; true]]) 1 0
     = RangeError.
Proof.
  assert (N : 2 <> 0) by discriminate.
  split; [exact N | ].
  exact (proj1 (split_zero_divisor
                  (Maze.mk 2 2 Maze.FromClock (Maze.isEdge 2 2)
                           [[true; false]; [false; true]]) 1 0) N).
Defined.

(** ** The wall predicate of [generate] *)

Lemma divmod_floor (x y : Z) :
  0 <= x -> 0 < y -> M64.divmod x y = Some (x / y, x mod y).
Proof.
  intros Hx Hy. unfold M64.divmod.
  destruct (Z.eqb_spec y 0); [lia | ].
  cbv zeta. rewrite Z.rem_mod_nonneg by lia.
  do 2 f_equal.
  rewrite Z.mod_eq by lia.
  replace (x - (x - y * (x / y))) with ((x / y) * y) by ring.
  apply Z.div_mul; lia.
Qed.

Lemma isEdge_inside (X Y x y : Z) :
  Maze.isEdge X Y x y = false <-> 0 < x /\ x + 1 < X /\ 0 < y /\ y + 1 < Y.
Proof. unfold Maze.isEdge. rewrite !orb_false_iff, !Z.leb_gt. lia. Qed.

Lemma isEdge_border (X Y x y : Z) :
  Maze.isEdge X Y x y = true <-> x <= 0 \/ X <= x + 1 \/ y <= 0 \/ Y <= y + 1.
Proof. unfold Maze.isEdge. rewrite !orb_true_iff, !Z.leb_le. lia. Qed.

Lemma isEdge_diag (X Y r : Z) :
  Maze.isEdge X Y r r = true <-> r <= 0 \/ Z.min X Y <= r + 1.
Proof. rewrite isEdge_border. lia. Qed.

Lemma isEdge_diag_inside (X Y r : Z) :
  Maze.isEdge X Y r r = false <-> 0 < r /\ r + 1 < Z.min X Y.
Proof. rewrite isEdge_inside. lia. Qed.

Lemma next_room (x X : Z) :
  0 < X -> x mod X = X - 1 -> (x + 1) / X = x / X + 1 /\ (x + 1) mod X = 0.
Proof.
  intros HX E.
  pose proof (Z.div_mod x X ltac:(lia)) as D. rewrite E in D.
  assert (S : x + 1 = (x / X + 1) * X) by lia.
  rewrite S. split; [apply Z.div_mul; lia | apply Z.mod_mul; lia].
Qed.

(** X19: inside the whole map, the wall predicate [generate] builds frames
    every room: a cell in the interior of its room is never a forced wall,
    and a border cell whose two room coordinates are each 0 or at least
    [min(X, Y) - 1] always is.  For square rooms these are the four corners;
    for [Y < X] they include border cells in the middle of the top and
    bottom edges. *)
Theorem generate_isWall_frame (cross : Maze.t) (nX nY X Y x y : Z)
  (HX : 0 < X) (HY : 0 < Y)
  (Inside : Maze.isEdge (nX * X) (nY * Y) x y = false) :
  (Maze.isEdge X Y (x mod X) (y mod Y) = false ->
   Maze.generate_isWall cross nX nY X Y x y = false)
  /\ (x mod X = 0 \/ Z.min X Y <= x mod X + 1 ->
      y mod Y = 0 \/ Z.min X Y <= y mod Y + 1 ->
      Maze.generate_isWall cross nX nY X Y x y = true).
Proof.
  pose proof Inside as I. apply isEdge_inside in I.
  unfold Maze.generate_isWall. rewrite Inside.
  rewrite !divmod_floor by lia.
  pose proof (Z.mod_pos_bound x X HX) as Bx.
  pose proof (Z.mod_pos_bound y Y HY) as By.
  split.
  - intros E. rewrite E. reflexivity.
  - intros Cx Cy.
    assert (E : Maze.isEdge X Y (x mod X) (y mod Y) = true)
      by (apply isEdge_border; lia).
    assert (Ex : Maze.isEdge X Y (x mod X) (x mod X) = true)
      by (apply isEdge_diag; lia).
    assert (Ey : Maze.isEdge X Y (y mod Y) (y mod Y) = true)
      by (apply isEdge_diag; lia).
    rewrite E, Ex, Ey. reflexivity.
Qed.

Lemma generate_isWall_frame_witness :
  (0 < 5 /\ Maze.isEdge (2 * 5) (2 * 5) 7 3 = false
   /\ Maze.isEdge 5 5 (7 mod 5) (3 mod 5) = false)
  /\ Maze.generate_isWall
       (Maze.mk 5 5 Maze.FromClock (Maze.isEdge 5 5) []) 2 2 5 5 7 3 = false.
Proof.
  assert (P : 0 < 5) by lia.
  assert (I : Maze.isEdge (2 * 5) (2 * 5) 7 3 = false) by reflexivity.
  assert (E : Maze.isEdge 5 5 (7 mod 5) (3 mod 5) = false) by reflexivity.
  split; [exact (conj P (conj I E)) | ].
  exact (proj1 (generate_isWall_frame
                  (Maze.mk 5 5 Maze.FromClock (Maze.isEdge 5 5) []) 2 2 5 5 7 3 P P I) E).
Defined.

(** X20: the two cells on either side of the line between two rooms side by
    side get the same answer from the wall predicate of [generate]: both
    consult the one coarse cell [(2 * (x / X) + 2, 2 * (y / Y) + 1)] that
    stands for the passage between the two rooms, and are a forced wall
    exactly when [look] finds nothing truthy there. *)
Theorem generate_isWall_shared_line (cross : Maze.t) (nX nY X Y x y : Z)
  (HX : 2 <= X) (HY : 0 < Y)
  (Inside : Maze.isEdge (nX * X) (nY * Y) x y = false)
  (Inside' : Maze.isEdge (nX * X) (nY * Y) (x + 1) y = false)
  (Last : x mod X = X - 1)
  (Mid : 0 < y mod Y /\ y mod Y + 1 < Z.min X Y) :
  Maze.generate_isWall cross nX nY X Y x y
  = negb (Maze.truthy (Maze.look cross (2 * (x / X) + 2) (2 * (y / Y) + 1)))
  /\ Maze.generate_isWall cross nX nY X Y (x + 1) y
     = Maze.generate_isWall cross nX nY X Y x y.
Proof.
  pose proof Inside as I. apply isEdge_inside in I.
  pose proof Inside' as I'. apply isEdge_inside in I'.
  destruct (next_room x X ltac:(lia) Last) as [Q R].
  assert (Ey : Maze.isEdge X Y (y mod Y) (y mod Y) = false)
    by (apply isEdge_diag_inside; exact Mid).
  assert (A : Maze.generate_isWall cross nX nY X Y x y
              = negb (Maze.truthy
                        (Maze.look cross (2 * (x / X) + 2) (2 * (y / Y) + 1)))).
  { unfold Maze.generate_isWall. rewrite Inside, !divmod_floor by lia.
    rewrite Last.
    assert (E : Maze.isEdge X Y (X - 1) (y mod Y) = true)
      by (apply isEdge_border; lia).
    assert (Ex : Maze.isEdge X Y (X - 1) (X - 1) = true)
      by (apply isEdge_diag; lia).
    assert (N : (X - 1 =? 0) = false) by (apply Z.eqb_neq; lia).
    rewrite E, Ex, Ey, N. cbn [negb andb Z.b2z].
    do 3 f_equal; ring. }
  split; [exact A | ].
  rewrite A. unfold Maze.generate_isWall.
  rewrite Inside', !divmod_floor by lia. rewrite Q, R.
  assert (E : Maze.isEdge X Y 0 (y mod Y) = true)
    by (apply isEdge_border; lia).
  assert (Ex : Maze.isEdge X Y 0 0 = true)
    by (apply isEdge_diag; lia).
  rewrite E, Ex, Ey. cbn [negb andb Z.b2z Z.eqb].
  do 3 f_equal; ring.
Qed.

Lemma generate_isWall_shared_line_witness :
  (2 <= 5 /\ 0 < 5
   /\ Maze.isEdge (2 * 5) (2 * 5) 4 2 = false
   /\ Maze.isEdge (2 * 5) (2 * 5) (4 + 1) 2 = false
   /\ 4 mod 5 = 5 - 1
   /\ 0 < 2 mod 5 /\ 2 mod 5 + 1 < Z.min 5 5)
  /\ Maze.generate_isWall
       (Maze.mk 5 5 Maze.FromClock (Maze.isEdge 5 5) []) 2 2 5 5 (4 + 1) 2
     = Maze.generate_isWall
         (Maze.mk 5 5 Maze.FromClock (Maze.isEdge 5 5) []) 2 2 5 5 4 2.
Proof.
  assert (P : 2 <= 5) by lia.
  assert (P' : 0 < 5) by lia.
  assert (I : Maze.isEdge (2 * 5) (2 * 5) 4 2 = false) by reflexivity.
  assert (I' : Maze.isEdge (2 * 5) (2 * 5) (4 + 1) 2 = false) by reflexivity.
  assert (L : 4 mod 5 = 5 - 1) by reflexivity.
  assert (M : 0 < 2 mod 5 /\ 2 mod 5 + 1 < Z.min 5 5) by (split; reflexivity).
  split; [exact (conj P (conj P' (conj I (conj I' (conj L M))))) | ].
  exact (proj2 (generate_isWall_shared_line
                  (Maze.mk 5 5 Maze.FromClock (Maze.isEdge 5 5) [])
                  2 2 5 5 4 2 P P' I I' L M)).
Defined.

(** X21: a maze with the default wall predicate has a cell that is not a
    forced wall exactly when it is at least 3 wide and 3 high; in a smaller
    maze [look] answers 0.3 everywhere, whatever the grid holds. *)
Theorem isEdge_leaves_room_iff (X Y : Z) :
  ((exists x y, Maze.isEdge X Y x y = false) <-> 3 <= X /\ 3 <= Y)
  /\ (X <= 2 \/ Y <= 2 ->
      forall rng d x y,
        Maze.look (Maze.mk X Y rng (Maze.isEdge X Y) d) x y = Maze.Weight03).
Proof.
  split.
  - split.
    + intros (x & y & E). apply isEdge_inside in E. lia.
    + intros [HX HY]. exists 1, 1. apply isEdge_inside. lia.
  - intros H rng d x y. unfold Maze.look. cbn [Maze.isWall].
    assert (E : Maze.isEdge X Y x y = true) by (apply isEdge_border; lia).
    rewrite E. reflexivity.
Qed.

(** ** The printed maze *)

Lemma join_cons (a b : list Z) (l : list (list Z)) (sep : list Z) :
  Maze.join (a :: b :: l) sep = a ++ sep ++ Maze.join (b :: l) sep.
Proof. reflexivity. Qed.

Lemma join_length (rows : list (list Z)) (w : nat) (sep : list Z) :
  Forall (fun r => length r = w) rows -> rows <> [] ->
  (length (Maze.join rows sep) + length sep
   = length rows * (w + length sep))%nat.
Proof.
  induction rows as [| a [| b l] IH]; intros F N.
  - contradiction.
  - inversion F; subst. cbn [Maze.join length]. lia.
  - inversion F as [| ? ? La F']; subst.
    rewrite join_cons, !length_app.
    specialize (IH F' ltac:(discriminate)).
    change (length (a :: b :: l)) with (S (length (b :: l))).
    lia.
Qed.

Lemma join_nth (sep : list Z) (w : nat) (rows : list (list Z)) :
  Forall (fun r => length r = w) rows ->
  forall y j : nat,
    (y < length rows)%nat -> (j < w + length sep)%nat ->
    (y + 1 < length rows \/ j < w)%nat ->
    nth_error (Maze.join rows sep) (y * (w + length sep) + j)
    = nth_error (nth y rows [] ++ sep) j.
Proof.
  induction rows as [| a [| b l] IH]; intros F y j Hy Hj Hl.
  - cbn [length] in Hy. lia.
  - cbn [length] in Hy, Hl. assert (y = 0%nat) by lia. subst y.
    inversion F; subst. cbn [Maze.join nth Nat.mul Nat.add].
    rewrite nth_error_app1 by lia. reflexivity.
  - inversion F as [| ? ? La F']; subst.
    rewrite join_cons, app_assoc.
    destruct y as [| y'].
    + cbn [nth Nat.mul Nat.add].
      apply nth_error_app1. rewrite length_app. lia.
    + rewrite nth_error_app2 by (rewrite length_app; lia).
      rewrite length_app.
      replace (S y' * (length a + length sep) + j - (length a + length sep))%nat
        with (y' * (length a + length sep) + j)%nat by lia.
      change (nth (S y') (a :: b :: l) []) with (nth y' (b :: l) []).
      change (length (a :: b :: l)) with (S (length (b :: l))) in Hy, Hl.
      apply IH; [exact F' | lia | lia | lia].
Qed.

Lemma array_rows (m : Maze.t) (w h : nat) :
  rectangular (Maze.data m) w h ->
  length (Maze.array m) = h
  /\ Forall (fun r => length r = w) (Maze.array m).
Proof.
  intros [L F]. unfold Maze.array. split; [rewrite length_map; exact L | ].
  apply Forall_map. revert F. apply Forall_impl.
  intros r E. rewrite length_map. exact E.
Qed.

Lemma print_nth (m : Maze.t) (w h y j : nat) :
  rectangular (Maze.data m) w h ->
  (y < h)%nat -> (j < w + 3)%nat -> (y + 1 < h \/ j < w)%nat ->
  nth_error (Maze.print m) (S (y * (w + 3) + j))
  = nth_error (map Maze.draw (nth y (Maze.data m) []) ++ [124; 10; 124]) j.
Proof.
  intros R Hy Hj Hl. destruct (array_rows m w h R) as [L F].
  unfold Maze.print. cbn [nth_error].
  assert (N : Maze.array m <> []).
  { intros E. rewrite E in L. cbn [length] in L. lia. }
  pose proof (join_length (Maze.array m) w [124; 10; 124] F N) as JL.
  cbn [length] in JL. rewrite L in JL.
  rewrite nth_error_app1 by nia.
  pose proof (join_nth [124; 10; 124] w (Maze.array m) F y j) as JN.
  cbn [length] in JN. rewrite L in JN.
  rewrite JN by lia.
  f_equal. f_equal. unfold Maze.array.
  change (@nil Z) with (map Maze.draw []). apply map_nth.
Qed.

(** X22: the layout of [print()] for a grid of [h] rows of [w] cells: the
    text has [h * (w + 3) - 1] code units ([||] for no row); line [y] starts
    at offset [y * (w + 3)] with a bar, holds the [w] cells of row [y] drawn
    by [draw], and ends with a bar, followed by a line feed unless it is the
    last line. *)
Theorem print_layout (m : Maze.t) (w h : nat)
  (R : rectangular (Maze.data m) w h) :
  (h = 0%nat -> Maze.print m = [124; 124])
  /\ ((0 < h)%nat -> length (Maze.print m) = (h * (w + 3) - 1)%nat)
  /\ forall y : nat, (y < h)%nat ->
       nth_error (Maze.print m) (y * (w + 3)) = Some 124
       /\ (forall x : nat, (x < w)%nat ->
             nth_error (Maze.print m) (y * (w + 3) + 1 + x)
             = option_map Maze.draw (cell (Maze.data m) x y))
       /\ nth_error (Maze.print m) (y * (w + 3) + w + 1) = Some 124
       /\ ((y + 1 < h)%nat ->
           nth_error (Maze.print m) (y * (w + 3) + w + 2) = Some 10).
Proof.
  destruct (array_rows m w h R) as [L F].
  split; [ | split].
  - intros E. rewrite E in L. unfold Maze.print.
    destruct (Maze.array m); [reflexivity | discriminate L].
  - intros Hh. unfold Maze.print. cbn [length]. rewrite length_app. cbn [length].
    assert (N : Maze.array m <> []).
    { intros E. rewrite E in L. cbn [length] in L. lia. }
    pose proof (join_length (Maze.array m) w [124; 10; 124] F N) as JL.
    cbn [length] in JL. rewrite L in JL. nia.
  - intros y Hy.
    assert (Ly : length (map Maze.draw (nth y (Maze.data m) [])) = w).
    { rewrite length_map. destruct R as [Ld Fd].
      rewrite Forall_forall in Fd. apply Fd. apply nth_In. lia. }
    split; [ | split; [ | split]].
    + destruct y as [| y'].
      * reflexivity.
      * replace (S y' * (w + 3))%nat with (S (y' * (w + 3) + (w + 2)))%nat by lia.
        rewrite (print_nth m w h y' (w + 2) R) by lia.
        assert (Ly' : length (map Maze.draw (nth y' (Maze.data m) [])) = w).
        { rewrite length_map. destruct R as [Ld Fd].
          rewrite Forall_forall in Fd. apply Fd. apply nth_In. lia. }
        rewrite nth_error_app2 by lia. rewrite Ly'.
        replace (w + 2 - w)%nat with 2%nat by lia. reflexivity.
    + intros x Hx.
      replace (y * (w + 3) + 1 + x)%nat with (S (y * (w + 3) + x)) by lia.
      rewrite (print_nth m w h y x R) by lia.
      rewrite nth_error_app1 by lia.
      rewrite nth_error_map. unfold cell.
      destruct R as [Ld Fd].
      destruct (nth_error (Maze.data m) y) as [row | ] eqn:E.
      * rewrite (nth_error_nth _ _ _ E). reflexivity.
      * apply nth_error_None in E. lia.
    + destruct (Nat.lt_ge_cases (y + 1) h) as [Hl | Hl].
      * replace (y * (w + 3) + w + 1)%nat with (S (y * (w + 3) + w)) by lia.
        rewrite (print_nth m w h y w R) by lia.
        rewrite nth_error_app2 by lia. rewrite Ly, Nat.sub_diag. reflexivity.
      * assert (y = (h - 1)%nat) by lia. subst y.
        unfold Maze.print.
        assert (N : Maze.array m <> []).
        { intros E. rewrite E in L. cbn [length] in L. lia. }
        pose proof (join_length (Maze.array m) w [124; 10; 124] F N) as JL.
        cbn [length] in JL. rewrite L in JL.
        replace ((h - 1) * (w + 3) + w + 1)%nat
          with (S (length (Maze.join (Maze.array m) [124; 10; 124]))) by nia.
        cbn [nth_error]. rewrite nth_error_app2 by lia.
        rewrite Nat.sub_diag. reflexivity.
    + intros Hl.
      replace (y * (w + 3) + w + 2)%nat with (S (y * (w + 3) + (w + 1))) by lia.
      rewrite (print_nth m w h y (w + 1) R) by lia.
      rewrite nth_error_app2 by lia. rewrite Ly.
      replace (w + 1 - w)%nat with 1%nat by lia. reflexivity.
Qed.

Lemma print_layout_witness :
  rectangular [[true; false]; [false; true]] 2 2
  /\ length (Maze.print (Maze.mk 2 2 Maze.FromClock (Maze.isEdge 2 2)
                                 [[true; false]; [false; true]]))
     = 9%nat.
Proof.
  assert (R : rectangular [[true; false]; [false; true]] 2 2).
  { split; [reflexivity | repeat constructor]. }
  split; [exact R | ].
  exact (proj1 (proj2 (print_layout
                         (Maze.mk 2 2 Maze.FromClock (Maze.isEdge 2 2)
                                  [[true; false]; [false; true]]) 2 2 R))
               (Nat.lt_0_succ 1)).
Defined.

(** ** [shift64] for every amount *)

(** X23: [shift64(a, k)] for [0 < k < 32], the low half with bit 31 clear:
    the pair returned is the 64-bit logical right shift of [a] by [k]
    exactly when bit 31 of the high half is clear too.  With that bit set,
    [>>] fills the high half with sign bits. *)
Theorem shift64_right_exact_iff (a : Z * Z) (k : Z)
  (Hk : 0 < k < 32) (Hl : to_uint32 (snd a) < 2 ^ 31) :
  exists s, M64.shift64 (word a) k = Ok (word s)
            /\ (u64 s = Z.shiftr (u64 a) k <-> to_uint32 (fst a) < 2 ^ 31).
Proof.
  destruct a as [h l]. cbn [fst snd] in *.
  exists (sar (ToInt32 (Num h)) k,
          bor (shl (ToInt32 (Num h)) (32 - k)) (sar (ToInt32 (Num l)) k)).
  split.
  { unfold M64.shift64, word. cbn [destructure bind fst snd].
    destruct (Z.ltb_spec 0 k); [reflexivity | lia]. }
  cbn [ToInt32]. unfold u64, sar, shl, bor; cbn [fst snd].
  rewrite !to_int32_idem, !(to_int32_of_u31 l Hl).
  rewrite (shcount_small k), (shcount_small (32 - k)) by lia.
  split.
  - intros E.
    destruct (Z.lt_ge_cases (to_uint32 h) (2 ^ 31)) as [S | S]; [exact S | ].
    exfalso.
    apply (f_equal (fun z => Z.testbit z 63)) in E.
    rewrite Z.shiftr_spec in E by lia.
    rewrite !concat_testbit in E by (try lia; apply to_uint32_range).
    destruct (Z.ltb_spec 63 32); [lia | ].
    destruct (Z.ltb_spec (63 + k) 32); [lia | ].
    rewrite u32_testbit_low, Z.shiftr_spec in E by lia.
    rewrite to_int32_testbit in E by lia.
    rewrite Z.min_r in E by lia.
    rewrite (u32_testbit_high h (63 + k - 32)) in E by lia.
    rewrite <- (u32_testbit_low h 31) in E by lia.
    pose proof (to_uint32_range h) as R.
    rewrite testbit_31_big in E by lia. discriminate E.
  - intros Hh. rewrite !(to_int32_of_u31 h Hh).
    apply Z.bits_inj'. intros i Hi.
    rewrite Z.shiftr_spec by lia.
    rewrite !concat_testbit by (try lia; apply to_uint32_range).
    destruct (Z.ltb_spec i 32) as [A | A].
    + rewrite u32_testbit_low by lia.
      rewrite Z.lor_spec, !int32_testbit_low by lia.
      rewrite Z.shiftl_spec, Z.shiftr_spec by lia.
      destruct (Z.ltb_spec (i + k) 32).
      * rewrite (Z.testbit_neg_r _ (i - (32 - k))) by lia. reflexivity.
      * rewrite (u32_testbit_high l (i + k)) by lia. rewrite orb_false_r.
        f_equal. lia.
    + destruct (Z.ltb_spec (i + k) 32); [lia | ].
      destruct (Z.lt_ge_cases i 64).
      * rewrite u32_testbit_low, Z.shiftr_spec by lia. f_equal. lia.
      * rewrite !u32_testbit_high by lia. reflexivity.
Qed.

Lemma shift64_right_exact_iff_witness :
  (0 < 4 < 32 /\ to_uint32 1 < 2 ^ 31)
  /\ exists s, M64.shift64 (word (2147483648, 1)) 4 = Ok (word s)
               /\ (u64 s = Z.shiftr (u64 (2147483648, 1)) 4
                   <-> to_uint32 2147483648 < 2 ^ 31).
Proof.
  assert (K : 0 < 4 < 32) by lia.
  assert (L : to_uint32 1 < 2 ^ 31) by reflexivity.
  split; [exact (conj K L) | ].
  exact (shift64_right_exact_iff (2147483648, 1) 4 K L).
Defined.

(** X24: [shift64(a, -k)] for [0 < k < 32]: the pair returned is the 64-bit
    left shift of [a] by [k], the bits pushed beyond bit 63 dropped, as soon
    as bit 31 of the low half is clear; the high half may be any number. *)
Theorem shift64_left_exact (a : Z * Z) (k : Z)
  (Hk : 0 < k < 32) (Hl : to_uint32 (snd a) < 2 ^ 31) :
  exists s, M64.shift64 (word a) (- k) = Ok (word s)
            /\ u64 s = Z.shiftl (u64 a) k mod 2 ^ 64.
Proof.
  destruct a as [h l]. cbn [fst snd] in *.
  exists (bor (shl (ToInt32 (Num h)) (- - k)) (sar (ToInt32 (Num l)) (32 + - k)),
          shl (ToInt32 (Num l)) (- - k)).
  split.
  { unfold M64.shift64, word. cbn [destructure bind fst snd].
    destruct (Z.ltb_spec 0 (- k)); [lia | ].
    destruct (Z.ltb_spec (- k) 0); [reflexivity | lia]. }
  cbn [ToInt32]. unfold u64, sar, shl, bor; cbn [fst snd].
  rewrite Z.opp_involutive.
  rewrite !to_int32_idem, !(to_int32_of_u31 l Hl).
  rewrite (shcount_small k), (shcount_small (32 + - k)) by lia.
  apply Z.bits_inj'. intros i Hi.
  destruct (Z.lt_ge_cases i 64) as [B | B].
  - rewrite Z.mod_pow2_bits_low by lia.
    rewrite Z.shiftl_spec by lia.
    rewrite (concat_testbit _ _ i) by (try lia; apply to_uint32_range).
    destruct (Z.ltb_spec i 32) as [A | A].
    + rewrite u32_testbit_low, int32_testbit_low by lia.
      rewrite Z.shiftl_spec by lia.
      destruct (Z.lt_ge_cases (i - k) 0).
      * rewrite !Z.testbit_neg_r by lia. reflexivity.
      * rewrite concat_testbit by (try lia; apply to_uint32_range).
        destruct (Z.ltb_spec (i - k) 32); [reflexivity | lia].
    + rewrite concat_testbit by (try lia; apply to_uint32_range).
      rewrite u32_testbit_low by lia.
      rewrite Z.lor_spec, !int32_testbit_low by lia.
      rewrite Z.shiftl_spec, Z.shiftr_spec by lia.
      destruct (Z.ltb_spec (i - k) 32).
      * rewrite (Z.testbit_neg_r _ (i - 32 - k)) by lia. cbn [orb].
        f_equal. lia.
      * rewrite int32_testbit_low by lia.
        rewrite (u32_testbit_high l) by lia. rewrite orb_false_r.
        rewrite u32_testbit_low by lia. f_equal. lia.
  - rewrite Z.mod_pow2_bits_high by lia.
    rewrite concat_testbit by (try lia; apply to_uint32_range).
    destruct (Z.ltb_spec i 32); [lia | ].
    apply u32_testbit_high. lia.
Qed.

Lemma shift64_left_exact_witness :
  (0 < 4 < 32 /\ to_uint32 1 < 2 ^ 31)
  /\ exists s, M64.shift64 (word (4026531840, 1)) (- 4) = Ok (word s)
               /\ u64 s = Z.shiftl (u64 (4026531840, 1)) 4 mod 2 ^ 64.
Proof.
  assert (K : 0 < 4 < 32) by lia.
  assert (L : to_uint32 1 < 2 ^ 31) by reflexivity.
  split; [exact (conj K L) | ].
  exact (shift64_left_exact (4026531840, 1) 4 K L).
Defined.

(** X25: only the amount modulo 32 counts in [shift64]: 32 more on a
    positive amount, or 32 less on a negative one, changes nothing; and a
    shift by 32 itself moves nothing: it leaves the high half in place and
    ORs it into the low half. *)
Theorem shift64_amount_wraps (a : value) (l : Z) :
  (0 < l -> M64.shift64 a (l + 32) = M64.shift64 a l)
  /\ (l < 0 -> M64.shift64 a (l - 32) = M64.shift64 a l)
  /\ forall h lo : Z,
       M64.shift64 (word (h, lo)) 32
       = Ok (word (to_int32 h, Z.lor (to_int32 h) (to_int32 lo))).
Proof.
  split; [ | split].
  - intros H. unfold M64.shift64.
    destruct (Z.ltb_spec 0 (l + 32)); [ | lia].
    destruct (Z.ltb_spec 0 l); [ | lia].
    unfold sar, shl. rewrite !shcount_mod.
    replace ((l + 32) mod 32) with (l mod 32)
      by (rewrite <- (Z.mod_add l 1 32) by lia; reflexivity).
    replace ((32 - (l + 32)) mod 32) with ((32 - l) mod 32)
      by (rewrite <- (Z.mod_add (32 - (l + 32)) 1 32) by lia; f_equal; lia).
    reflexivity.
  - intros H. unfold M64.shift64.
    destruct (Z.ltb_spec 0 (l - 32)); [lia | ].
    destruct (Z.ltb_spec 0 l); [lia | ].
    destruct (Z.ltb_spec (l - 32) 0); [ | lia].
    destruct (Z.ltb_spec l 0); [ | lia].
    unfold sar, shl. rewrite !shcount_mod.
    replace ((- (l - 32)) mod 32) with ((- l) mod 32)
      by (rewrite <- (Z.mod_add (- l) 1 32) by lia; f_equal; lia).
    replace ((32 + (l - 32)) mod 32) with ((32 + l) mod 32)
      by (rewrite <- (Z.mod_add (32 + (l - 32)) 1 32) by lia; f_equal; lia).
    reflexivity.
  - intros h lo. unfold M64.shift64, word. cbn [destructure bind fst snd ToInt32].
    cbn [Z.ltb Z.compare]. unfold sar, shl, bor.
    change (shcount 32) with 0. change (shcount (32 - 32)) with 0.
    rewrite !Z.shiftr_0_r, !Z.shiftl_0_r, !to_int32_idem. reflexivity.
Qed.

(** ** The states a seeded generator goes through *)

Lemma xor64_signed (a b : Z * Z) :
  exists c, M64.xor64 (word a) (word b) = Ok c /\ signed c.
Proof.
  destruct a as [aH aL], b as [bH bL].
  exists (bxor aH bH, bxor aL bL).
  split; [reflexivity | ].
  split; cbn [fst snd]; apply lxor_int32.
Qed.

Lemma rand64_signed (a b : Z * Z) :
  exists n1 out,
    PRNG.rand64 (PRNG.mk (word a) (word b)) = Ok (PRNG.mk (word b) (word n1), out)
    /\ signed n1.
Proof.
  destruct (shift64_left_iff a 23 ltac:(lia)) as (sx & E1 & _).
  change (M64.shift64 (word a) (-23) = Ok (word sx)) in E1.
  destruct (xor64_words a sx) as (x & E2 & _).
  destruct (xor64_words x b) as (xy & E3 & _).
  destruct (shift64_right_iff x 17 ltac:(lia)) as (sx17 & E4 & _).
  destruct (shift64_right_iff b 26 ltac:(lia)) as (sy26 & E5 & _).
  destruct (xor64_words sx17 sy26) as (sh & E6 & _).
  destruct (xor64_signed xy sh) as (n1 & E7 & S).
  destruct (add64_no_carry n1 b) as (out & E8 & _).
  exists n1, out. split; [ | exact S].
  unfold PRNG.rand64. cbn [PRNG.s0 PRNG.s1].
  rewrite E1. cbn [bind]. rewrite E2. cbn [bind]. rewrite E3. cbn [bind].
  rewrite E4. cbn [bind]. rewrite E5. cbn [bind]. rewrite E6. cbn [bind].
  rewrite E7. cbn [bind]. rewrite E8. reflexivity.
Qed.

(** X26: a generator seeded by [PRNG.from(seed)] holds two pairs of signed
    32-bit halves, and keeps doing so: any number of calls of [rand64]
    returns, none throws, and the state left is again two pairs of signed
    32-bit halves. *)
Theorem from_draws_signed (seed : list Z) (n : nat) :
  exists p, draws n (PRNG.from seed) = Ok p /\ signed_state p.
Proof.
  assert (I : forall k p, signed_state p ->
                exists p', draws k p = Ok p' /\ signed_state p').
  { induction k as [ | k IH]; intros p S.
    - exists p. split; [reflexivity | exact S].
    - destruct S as (a & b & -> & Sa & Sb).
      destruct (rand64_signed a b) as (n1 & out & E & Sn).
      destruct (IH (PRNG.mk (word b) (word n1))) as (p' & D & S').
      { exists b, n1. split; [reflexivity | split; assumption]. }
      exists p'. split; [ | exact S'].
      cbn [draws]. rewrite E. cbn [bind]. exact D. }
  apply I. unfold PRNG.from, signed_state.
  pose proof (hash32_int32) as H32.
  set (a := PRNG.hash64 seed).
  set (b := PRNG.hash64 (PRNG.number_to_string (fst a)
                         ++ 44 :: PRNG.number_to_string (snd a) ++ seed)).
  exists a, b. split; [reflexivity | ].
  unfold signed, a, b, PRNG.hash64. cbv zeta. cbn [fst snd].
  repeat split; apply H32.
Qed.

(** ** The direction tables *)

Lemma key_eqb_refl (k : list Z) : PRNG.key_eqb k k = true.
Proof. apply key_eqb_eq. reflexivity. Qed.

Lemma key_eqb_neq (k k' : list Z) : k <> k' -> PRNG.key_eqb k k' = false.
Proof.
  intros N. destruct (PRNG.key_eqb k k') eqn:E; [ | reflexivity].
  apply key_eqb_eq in E. contradiction.
Qed.

Lemma put_fresh {V} (o : PRNG.object V) (k : list Z) (v : V) :
  ~ In k (map fst o) -> Directions.put o k v = o ++ [(k, v)].
Proof.
  induction o as [ | [k0 v0] o IH]; intros N; [reflexivity | ].
  cbn [Directions.put]. cbn [map fst In] in N.
  rewrite key_eqb_neq by (intros E; apply N; left; symmetry; exact E).
  cbn [List.app]. f_equal. apply IH. intros H. apply N. right. exact H.
Qed.

Lemma fold_put_fresh {V} (entries acc : PRNG.object V) :
  NoDup (map fst (acc ++ entries)) ->
  fold_left (fun o kv => Directions.put o (fst kv) (snd kv)) entries acc
  = acc ++ entries.
Proof.
  revert acc. induction entries as [ | [k v] entries IH]; intros acc ND.
  - cbn [fold_left]. rewrite app_nil_r. reflexivity.
  - rewrite fold_left_step. cbn [fst snd].
    rewrite put_fresh.
    + rewrite IH; rewrite <- app_assoc; [reflexivity | exact ND].
    + rewrite map_app in ND. cbn [map fst] in ND.
      apply NoDup_remove_2 in ND. intros H. apply ND. apply in_or_app. left. exact H.
Qed.

(** With pairwise distinct keys an object literal holds its entries as
    written. *)
Lemma literal_distinct {V} (entries : PRNG.object V) :
  NoDup (map fst entries) -> Directions.literal entries = entries.
Proof. intros ND. unfold Directions.literal. apply (fold_put_fresh entries []). exact ND. Qed.

Lemma get_head {V} (o : PRNG.object V) (k : list Z) (v : V) :
  PRNG.get ((k, v) :: o) k = Some v.
Proof. cbn [PRNG.get]. rewrite key_eqb_refl. reflexivity. Qed.

Lemma get_skip {V} (o : PRNG.object V) (k k' : list Z) (v : V) :
  k <> k' -> PRNG.get ((k', v) :: o) k = PRNG.get o k.
Proof. intros N. cbn [PRNG.get]. rewrite key_eqb_neq by exact N. reflexivity. Qed.

Lemma NoDup_four {A} (a b c d e f g h : A) :
  NoDup [a; b; c; d; e; f; g; h] -> NoDup [a; c; e; g].
Proof.
  intros H.
  repeat match goal with
         | N : NoDup (_ :: _) |- _ => inversion_clear N
         end.
  cbn [In] in *.
  repeat (constructor; [cbn [In]; tauto | ]). constructor.
Qed.

Ltac distinct_keys :=
  repeat match goal with
         | N : NoDup (_ :: _) |- _ => inversion_clear N
         end;
  cbn [In] in *;
  repeat match goal with
         | N : ~ (_ \/ _) |- _ =>
           let N' := fresh in
           apply Decidable.not_or in N; destruct N as [N' N]
         end.

Ltac differ := first [assumption | apply not_eq_sym; assumption].

Ltac read_table :=
  repeat first [rewrite get_head | rewrite get_skip by differ].

(** X27: with eight pairwise distinct direction constants, [opposite] is an
    involution without a fixed point on the eight directions, and the step
    [dxdy] gives for the opposite of a direction is the negated step. *)
Theorem opposite_reverses_step
  (TOP TOP_RIGHT RIGHT BOTTOM_RIGHT BOTTOM BOTTOM_LEFT LEFT TOP_LEFT : list Z)
  (Distinct : NoDup (Directions.dirs TOP TOP_RIGHT RIGHT BOTTOM_RIGHT
                                     BOTTOM BOTTOM_LEFT LEFT TOP_LEFT))
  (d : list Z)
  (Hd : In d (Directions.dirs TOP TOP_RIGHT RIGHT BOTTOM_RIGHT
                              BOTTOM BOTTOM_LEFT LEFT TOP_LEFT)) :
  exists d' dx dy,
    PRNG.get (Directions.opposite TOP TOP_RIGHT RIGHT BOTTOM_RIGHT
                                  BOTTOM BOTTOM_LEFT LEFT TOP_LEFT) d = Some d'
    /\ d' <> d
    /\ PRNG.get (Directions.opposite TOP TOP_RIGHT RIGHT BOTTOM_RIGHT
                                     BOTTOM BOTTOM_LEFT LEFT TOP_LEFT) d' = Some d
    /\ PRNG.get (Directions.dxdy TOP TOP_RIGHT RIGHT BOTTOM_RIGHT
                                 BOTTOM BOTTOM_LEFT LEFT TOP_LEFT) d = Some (dx, dy)
    /\ PRNG.get (Directions.dxdy TOP TOP_RIGHT RIGHT BOTTOM_RIGHT
                                 BOTTOM BOTTOM_LEFT LEFT TOP_LEFT) d'
       = Some (- dx, - dy).
Proof.
  unfold Directions.opposite, Directions.dxdy.
  rewrite !literal_distinct by exact Distinct.
  unfold Directions.dirs in *. cbn [In] in Hd.
  distinct_keys.
  repeat match goal with
         | H : _ \/ _ |- _ => destruct H as [<- | H]
         | H : False |- _ => destruct H
         end.
  all: eexists; eexists; eexists.
  all: repeat apply conj.
  all: try (read_table; reflexivity).
  all: differ.
Qed.

Lemma eight_keys_distinct :
  NoDup (Directions.dirs [49] [50] [51] [52] [53] [54] [55] [56]).
Proof.
  unfold Directions.dirs.
  repeat (constructor; [cbn [In]; intuition discriminate | ]). constructor.
Qed.

Lemma opposite_reverses_step_witness :
  (NoDup (Directions.dirs [49] [50] [51] [52] [53] [54] [55] [56])
   /\ In [51] (Directions.dirs [49] [50] [51] [52] [53] [54] [55] [56]))
  /\ exists d' dx dy,
       PRNG.get (Directions.opposite [49] [50] [51] [52] [53] [54] [55] [56]) [51]
       = Some d'
       /\ d' <> [51]
       /\ PRNG.get (Directions.opposite [49] [50] [51] [52] [53] [54] [55] [56]) d'
          = Some [51]
       /\ PRNG.get (Directions.dxdy [49] [50] [51] [52] [53] [54] [55] [56]) [51]
          = Some (dx, dy)
       /\ PRNG.get (Directions.dxdy [49] [50] [51] [52] [53] [54] [55] [56]) d'
          = Some (- dx, - dy).
Proof.
  assert (I : In [51] (Directions.dirs [49] [50] [51] [52] [53] [54] [55] [56])).
  { right. right. left. reflexivity. }
  split; [exact (conj eight_keys_distinct I) | ].
  exact (opposite_reverses_step [49] [50] [51] [52] [53] [54] [55] [56]
                                eight_keys_distinct [51] I).
Defined.

(** X28: with eight pairwise distinct direction constants, every step of
    [dudv] is a unit step along one axis and is the step [dxdy] has under
    the same key, and [dudv[opposite[dir]]], which [make] reads for a
    direction [dir] of [dudv], is defined and is the negated step. *)
Theorem dudv_steps_back
  (TOP TOP_RIGHT RIGHT BOTTOM_RIGHT BOTTOM BOTTOM_LEFT LEFT TOP_LEFT : list Z)
  (Distinct : NoDup (Directions.dirs TOP TOP_RIGHT RIGHT BOTTOM_RIGHT
                                     BOTTOM BOTTOM_LEFT LEFT TOP_LEFT))
  (dir : list Z) (v : Z * Z)
  (Hv : PRNG.get (Directions.dudv TOP RIGHT BOTTOM LEFT) dir = Some v) :
  PRNG.get (Directions.dxdy TOP TOP_RIGHT RIGHT BOTTOM_RIGHT
                            BOTTOM BOTTOM_LEFT LEFT TOP_LEFT) dir = Some v
  /\ Z.abs (fst v) + Z.abs (snd v) = 1
  /\ exists d',
       PRNG.get (Directions.opposite TOP TOP_RIGHT RIGHT BOTTOM_RIGHT
                                     BOTTOM BOTTOM_LEFT LEFT TOP_LEFT) dir
       = Some d'
       /\ PRNG.get (Directions.dudv TOP RIGHT BOTTOM LEFT) d'
          = Some (- fst v, - snd v).
Proof.
  unfold Directions.opposite, Directions.dxdy, Directions.dudv in *.
  rewrite !literal_distinct by exact Distinct.
  rewrite (literal_distinct [(TOP, (0, -1)); (RIGHT, (1, 0));
                             (BOTTOM, (0, 1)); (LEFT, (-1, 0))])
    in * by (exact (NoDup_four _ _ _ _ _ _ _ _ Distinct)).
  unfold Directions.dirs in Distinct.
  distinct_keys.
  cbn [PRNG.get] in Hv.
  repeat match type of Hv with
         | (if PRNG.key_eqb ?a ?b then _ else _) = _ =>
           let E := fresh "E" in
           destruct (PRNG.key_eqb a b) eqn:E;
           [apply key_eqb_eq in E; subst dir; injection Hv as <- | ]
         end.
  5: discriminate Hv.
  all: cbn [fst snd].
  all: split; [read_table; reflexivity | ].
  all: split; [reflexivity | ].
  all: eexists; split; [read_table; reflexivity | read_table; reflexivity].
Qed.

Lemma dudv_steps_back_witness :
  (NoDup (Directions.dirs [49] [50] [51] [52] [53] [54] [55] [56])
   /\ PRNG.get (Directions.dudv [49] [51] [53] [55]) [51] = Some (1, 0))
  /\ PRNG.get (Directions.dxdy [49] [50] [51] [52] [53] [54] [55] [56]) [51]
     = Some (1, 0).
Proof.
  assert (G : PRNG.get (Directions.dudv [49] [51] [53] [55]) [51] = Some (1, 0))
    by reflexivity.
  split; [exact (conj eight_keys_distinct G) | ].
  exact (proj1 (dudv_steps_back [49] [50] [51] [52] [53] [54] [55] [56]
                                eight_keys_distinct [51] (1, 0) G)).
Defined.

(** ** A new maze *)

Lemma mapM_repeat {B} (r : B) (n : nat) :
  Maze.mapM (fun _ : unit => Ok r) (repeat tt n) = Ok (repeat r n).
Proof.
  induction n as [ | n IH]; [reflexivity | ].
  cbn [repeat Maze.mapM bind]. rewrite IH. reflexivity.
Qed.

Lemma Array_ok (n : Z) : 0 <= n <= 4294967295 -> Maze.Array n = Ok (Z.to_nat n).
Proof.
  intros H. unfold Maze.Array.
  destruct (Z.ltb_spec n 0); [lia | ].
  destruct (Z.ltb_spec 4294967295 n); [lia | reflexivity].
Qed.

Lemma Array_error (n : Z) : n < 0 \/ 4294967295 < n -> Maze.Array n = RangeError.
Proof.
  intros H. unfold Maze.Array.
  destruct (Z.ltb_spec n 0); [reflexivity | ].
  destruct (Z.ltb_spec 4294967295 n); [reflexivity | lia].
Qed.

(** X29: the constructor, for a width and a height that are array lengths,
    builds a grid of [Y] rows of [X] cells without an open cell.  A height
    that is not an array length is a RangeError, and so is such a width as
    soon as there is a row to build; with a height of 0 the width is never
    used and the grid has no row. *)
Theorem constructor_closed_grid (X Y : Z) (r : Maze.rng) (w : Z -> Z -> bool) :
  (0 <= X <= 4294967295 -> 0 <= Y <= 4294967295 ->
   exists d, Maze.constructor X Y r w = Ok (Maze.mk X Y r w d)
             /\ rectangular d (Z.to_nat X) (Z.to_nat Y)
             /\ closed d)
  /\ (Y < 0 \/ 4294967295 < Y -> Maze.constructor X Y r w = RangeError)
  /\ (0 < Y <= 4294967295 -> X < 0 \/ 4294967295 < X ->
      Maze.constructor X Y r w = RangeError)
  /\ (Y = 0 -> Maze.constructor X Y r w = Ok (Maze.mk X Y r w [])).
Proof.
  unfold Maze.constructor.
  split; [ | split; [ | split] ].
  - intros HX HY. exists (repeat (repeat false (Z.to_nat X)) (Z.to_nat Y)).
    rewrite (Array_ok Y HY), (Array_ok X HX). cbn [bind].
    rewrite mapM_repeat. cbn [bind].
    split; [reflexivity | split].
    + split; [apply repeat_length | ].
      apply Forall_forall. intros row H. apply repeat_spec in H. subst row.
      apply repeat_length.
    + apply Forall_forall. intros row H. apply repeat_spec in H. subst row.
      apply Forall_forall. intros b H. apply repeat_spec in H. exact H.
  - intros HY. rewrite (Array_error Y HY). reflexivity.
  - intros HY HX. rewrite (Array_ok Y) by lia. rewrite (Array_error X HX).
    cbn [bind].
    destruct (Z.to_nat Y) as [ | n] eqn:E; [lia | ]. reflexivity.
  - intros ->. reflexivity.
Qed.

Lemma constructor_closed_grid_witness :
  (0 <= 3 <= 4294967295 /\ 0 <= 2 <= 4294967295)
  /\ exists d, Maze.constructor 3 2 Maze.FromClock (Maze.isEdge 3 2)
               = Ok (Maze.mk 3 2 Maze.FromClock (Maze.isEdge 3 2) d)
               /\ rectangular d (Z.to_nat 3) (Z.to_nat 2)
               /\ closed d.
Proof.
  assert (HX : 0 <= 3 <= 4294967295) by lia.
  assert (HY : 0 <= 2 <= 4294967295) by lia.
  split; [exact (conj HX HY) | ].
  exact (proj1 (constructor_closed_grid 3 2 Maze.FromClock (Maze.isEdge 3 2)) HX HY).
Defined.

(** ** A maze without an open cell *)

Lemma mapi_closed_row (g : Z -> bool -> bool) (row : list bool) :
  Forall (fun b : bool => b = false) row -> (forall x, g x false = false) ->
  forall i, Maze.mapi g i row = row.
Proof.
  intros F G. induction F as [ | b row -> _ IH]; intros i; [reflexivity | ].
  cbn [Maze.mapi]. rewrite G, IH. reflexivity.
Qed.

Lemma mapi_closed_grid (f : Z -> Z -> bool -> bool) (d : list (list bool)) :
  closed d -> (forall x y, f x y false = false) ->
  forall i, Maze.mapi (fun y row => Maze.mapi (fun x v => f x y v) 0 row) i d = d.
Proof.
  intros C G. induction C as [ | row d R _ IH]; intros i; [reflexivity | ].
  cbn [Maze.mapi]. rewrite IH.
  rewrite (mapi_closed_row (fun x v => f x i v) row R (fun x => G x i)).
  reflexivity.
Qed.

Lemma look_closed (m : Maze.t) (x y : Z) :
  closed (Maze.data m) -> Maze.look m x y <> Maze.Cell true.
Proof.
  intros C. unfold Maze.look.
  destruct (Maze.isWall m x y); [discriminate | ].
  unfold Maze.index.
  destruct (y <? 0); [discriminate | ].
  destruct (nth_error (Maze.data m) (Z.to_nat y)) as [row | ] eqn:R; [ | discriminate].
  destruct (x <? 0); [discriminate | ].
  destruct (nth_error row (Z.to_nat x)) as [b | ] eqn:B; [ | discriminate].
  unfold closed in C. rewrite Forall_forall in C.
  specialize (C row (nth_error_In _ _ R)). rewrite Forall_forall in C.
  rewrite (C b (nth_error_In _ _ B)). discriminate.
Qed.

Lemma opens_closed (m : Maze.t) (x y : Z) (set : list (Z * Z)) :
  closed (Maze.data m) -> opens m x y set = 0.
Proof.
  intros C. unfold opens.
  induction set as [ | d set IH]; [reflexivity | ].
  cbn [filter].
  pose proof (look_closed m (x + fst d) (y + snd d) C) as N.
  destruct (Maze.look m (x + fst d) (y + snd d)) as [ | [ | ] | ];
    [exact IH | contradiction | exact IH | exact IH].
Qed.

Lemma iter_fixed {A} (f : A -> A) (a : A) (n : nat) : f a = a -> Nat.iter n f a = a.
Proof.
  intros H. induction n as [ | n IH]; [reflexivity | ].
  rewrite Nat.iter_succ, IH. exact H.
Qed.

(** X30: a maze without an open cell, such as a new one, is left as it is by
    [trim] and, with a table of at most thirteen neighbours, by [grow]:
    forced walls alone, at 0.3 each, do not reach the count of 4 that opens
    a cell. *)
Theorem closed_maze_fixed (dudv dxdy : list (Z * Z)) (round : Z) (m : Maze.t)
  (C : closed (Maze.data m)) (L : (length dxdy <= 13)%nat) :
  Maze.trim dudv round m = m /\ Maze.grow dxdy round m = m.
Proof.
  split.
  - unfold Maze.trim. apply iter_fixed.
    unfold Maze.trim_round.
    rewrite (mapi_closed_grid
               (fun x y (v : bool) =>
                  if v then Qle_bool 2 (Maze.count m x y dudv) else false)
               (Maze.data m) C (fun x y => eq_refl)).
    destruct m; reflexivity.
  - unfold Maze.grow. apply iter_fixed.
    unfold Maze.grow_round.
    rewrite (mapi_closed_grid
               (fun x y (v : bool) =>
                  if v then true
                  else negb (Maze.isWall m x y) && Qle_bool 4 (Maze.count m x y dxdy))
               (Maze.data m) C).
    + destruct m; reflexivity.
    + intros x y.
      destruct (count_weights m x y dxdy) as (E & _ & Hw & Hl).
      rewrite (opens_closed m x y dxdy C) in E, Hl.
      destruct (Qle_bool 4 (Maze.count m x y dxdy)) eqn:Q; [ | apply andb_false_r].
      exfalso. apply Qle_bool_iff in Q. rewrite E in Q.
      unfold Qle in Q. cbn [Qnum Qden] in Q. lia.
Qed.

Lemma closed_maze_fixed_witness :
  (closed [[false; false]; [false; false]] /\ (length [(0, 1); (1, 0)] <= 13)%nat)
  /\ Maze.grow [(0, 1); (1, 0)] 3
       (Maze.mk 2 2 Maze.FromClock (fun _ _ => false) [[false; false]; [false; false]])
     = Maze.mk 2 2 Maze.FromClock (fun _ _ => false) [[false; false]; [false; false]].
Proof.
  assert (C : closed [[false; false]; [false; false]]) by (repeat constructor).
  assert (L : (length [(0, 1); (1, 0)] <= 13)%nat) by (cbn [length]; lia).
  split; [exact (conj C L) | ].
  exact (proj2 (closed_maze_fixed [] [(0, 1); (1, 0)] 3
                  (Maze.mk 2 2 Maze.FromClock (fun _ _ => false)
                           [[false; false]; [false; false]]) C L)).
Defined.
